(** * AetherFS graph integrity store and force layout engine

    A shallow embedding of [GraphStore] (src/render/renderer.js) and of
    [ForceLayout] (the force-directed layout engine) together with the
    properties that the design document states about them, and of the
    functions around them: the id hash, the clamp and the easing curve of
    [Utils], the categories of [NodeTypes] and the camera of [Renderer].

    Conventions of the embedding.
    - A JavaScript array is a [list]; an object held by reference in such an
      array is addressed by its position, and a mutation of the object is an
      update of the list at that position.  An array that holds the same
      object at two positions is outside the model.
    - A [Set] of strings is a [gset string], a [Map] keyed by strings a
      [gmap string _].
    - Numbers are exact rationals ([Q]); rounding, infinities and NaN are
      outside the model.  A position that is [null] is [None]; a position
      that is [undefined], which arithmetic turns into NaN, is outside the
      model.
    - [Math.sqrt], [Math.atan2], [Math.cos], [Math.sin], [Math.PI],
      [String.prototype.localeCompare], [String.prototype.toLowerCase] and
      the size that the page gives the canvas are parameters of the
      development. *)

From Stdlib Require Import QArith Qminmax Qround Lqa.
From stdpp Require Import gmap strings list.

Open Scope string_scope.
Open Scope list_scope.

(** ** Data model *)

(** A node object.  The structural fields come from the storage
    collaborators; [x], [y], [vx], [vy] belong to the layout engine, [fx],
    [fy] are the pin, and the underscore fields are the annotations written
    by the depth pass. *)
Record node := mkNode {
  id : string;
  name : string;
  parentId : option string;
  collapsed : bool;
  _radius : option Q;
  x : option Q;
  y : option Q;
  vx : Q;
  vy : Q;
  fx : option Q;
  fy : option Q;
  _depth : Z;
  _vIndex : Z;
  _visited : bool;
  _vCount : Z;
  _maxDepth : Z
}.

Record edge := mkEdge {
  eid : string;
  source : string;
  target : string
}.

#[global] Instance edge_eq_dec : EqDecision edge.
Proof. solve_decision. Defined.

(** The ids of a node array, in order. *)
Definition ids (nodes : list node) : list string := id <$> nodes.

(** JavaScript truthiness of a string and of a nullable string. *)
Definition truthy (s : string) : bool := negb (String.eqb s "").

Definition js_or (a b : option string) : option string :=
  match a with
  | Some s => if truthy s then Some s else b
  | None => b
  end.

(** ** GraphStore *)

Module GraphStore.

Record t := mkStore {
  _nodes : list node;
  _edges : list edge;
  _nodeMap : gmap string node;
  _emitted : nat
}.

(** [constructor()] *)
Definition new : t :=
  {| _nodes := []; _edges := []; _nodeMap := ∅; _emitted := 0 |}.

(** The template string [`${e.source}→${e.target}`]. *)
Definition edge_key (e : edge) : string := source e +:+ "→" +:+ target e.

(** Step 1: [this._edges.filter(e => nodeIds.has(e.source) && nodeIds.has(e.target))]. *)
Definition valid_edge (nodeIds : gset string) (e : edge) : bool :=
  bool_decide (source e ∈ nodeIds) && bool_decide (target e ∈ nodeIds).

(** Step 2: the deduplication loop; the result is the array [uniqueEdges]
    and the number of edges that were skipped. *)
Fixpoint dedupe (edgeKeys : gset string) (es : list edge) : list edge * nat :=
  match es with
  | [] => ([], 0)
  | e :: rest =>
      let key := edge_key e in
      if bool_decide (key ∈ edgeKeys) then
        let '(u, k) := dedupe edgeKeys rest in (u, S k)
      else
        let '(u, k) := dedupe ({[key]} ∪ edgeKeys) rest in (e :: u, k)
  end.

(** Step 3: [roots.length > 0 ? roots[0].id : (this._nodes[0]?.id || null)]. *)
Definition find_root (nodes : list node) (es : list edge) : option string :=
  let targeted : gset string := list_to_set (target <$> es) in
  let roots := filter (λ n, id n ∉ targeted) nodes in
  match roots with
  | r :: _ => Some (id r)
  | [] => match nodes with
          | n0 :: _ => if truthy (id n0) then Some (id n0) else None
          | [] => None
          end
  end.

(** Step 4, the set [connected]. *)
Definition connected_set (rootId : option string) (es : list edge) : gset string :=
  let c0 : gset string := match rootId with Some r => {[r]} | None => ∅ end in
  foldl (λ c e, {[target e]} ∪ ({[source e]} ∪ c)) c0 es.

(** Step 4, the body of the loop over the nodes: the edge that is pushed
    for a dangling node (none when there is no root id to fall back on). *)
Definition reconnect (nodeIds : gset string) (rootId : option string) (n : node)
  : list edge :=
  let parentId := js_or (parentId n) rootId in
  match parentId with
  | Some p =>
      if bool_decide (p ∈ nodeIds) then
        [ {| eid := p +:+ "->" +:+ id n; source := p; target := id n |} ]
      else
        match rootId with
        | Some r => [ {| eid := r +:+ "->" +:+ id n; source := r; target := id n |} ]
        | None => []
        end
  | None => []
  end.

Definition is_dangling (connected : gset string) (rootId : option string) (n : node)
  : bool :=
  bool_decide (id n ∉ connected) && bool_decide (Some (id n) ≠ rootId).

(** Step 4, the loop over the nodes: pushed edges and the number of
    dangling nodes.  [connected] is not updated while edges are pushed. *)
Fixpoint reconnect_all (nodeIds connected : gset string) (rootId : option string)
  (nodes : list node) : list edge * nat :=
  match nodes with
  | [] => ([], 0)
  | n :: rest =>
      let '(es, k) := reconnect_all nodeIds connected rootId rest in
      if is_dangling connected rootId n
      then (reconnect nodeIds rootId n ++ es, S k)
      else (es, k)
  end.

(** [_ensureGraphIntegrity()]: the repaired store and the [fixed] count. *)
Definition _ensureGraphIntegrity (s : t) : t * nat :=
  let nodeIds : gset string := list_to_set (id <$> _nodes s) in
  let beforeEdges := length (_edges s) in
  let edges1 := filter (λ e, Is_true (valid_edge nodeIds e)) (_edges s) in
  let fixed1 := beforeEdges - length edges1 in
  let '(uniqueEdges, fixed2) := dedupe ∅ edges1 in
  let rootId := find_root (_nodes s) uniqueEdges in
  let connected := connected_set rootId uniqueEdges in
  let '(pushed, fixed3) := reconnect_all nodeIds connected rootId (_nodes s) in
  ({| _nodes := _nodes s;
      _edges := uniqueEdges ++ pushed;
      _nodeMap := list_to_map ((λ n, (id n, n)) <$> reverse (_nodes s));
      _emitted := _emitted s |},
   fixed1 + fixed2 + fixed3).

(** [_emit({type: 'graphChanged', ...})]: listeners are observers outside
    the store; the store only counts the events it has published. *)
Definition _emit (s : t) : t :=
  {| _nodes := _nodes s; _edges := _edges s; _nodeMap := _nodeMap s;
     _emitted := S (_emitted s) |}.

(** [loadGraph(nodes, edges)]; an argument that is not an array is [None]. *)
Definition loadGraph (s : t) (nodes : option (list node)) (edges : option (list edge))
  : t * nat :=
  let s1 := {| _nodes := default [] nodes; _edges := default [] edges;
               _nodeMap := _nodeMap s; _emitted := _emitted s |} in
  let '(s2, fixed) := _ensureGraphIntegrity s1 in
  (_emit s2, fixed).

(** [refreshGraph(nodes, edges)] *)
Definition refreshGraph (s : t) (nodes : option (list node)) (edges : option (list edge))
  : t * nat :=
  let s1 := {| _nodes := default (_nodes s) nodes; _edges := default (_edges s) edges;
               _nodeMap := _nodeMap s; _emitted := _emitted s |} in
  let '(s2, fixed) := _ensureGraphIntegrity s1 in
  (_emit s2, fixed).

Definition getNode (s : t) (i : string) : option node := _nodeMap s !! i.

(** Names for the intermediate results of the repair pass: the edges that
    survive steps 1 and 2, and the root id picked in step 3. *)
Definition surviving (nodes : list node) (edges : list edge) : list edge :=
  (dedupe ∅ (filter (λ e, Is_true (valid_edge (list_to_set (id <$> nodes)) e)) edges)).1.

Definition chosen_root (nodes : list node) (edges : list edge) : option string :=
  find_root nodes (surviving nodes edges).

End GraphStore.

(** ** ForceLayout *)

Module ForceLayout.

(** *** Field updates of a node object *)

Definition set_pos (px py : option Q) (n : node) : node :=
  mkNode (id n) (name n) (parentId n) (collapsed n) (_radius n) px py
    (vx n) (vy n) (fx n) (fy n)
    (_depth n) (_vIndex n) (_visited n) (_vCount n) (_maxDepth n).

Definition set_vel (v w : Q) (n : node) : node :=
  mkNode (id n) (name n) (parentId n) (collapsed n) (_radius n) (x n) (y n)
    v w (fx n) (fy n)
    (_depth n) (_vIndex n) (_visited n) (_vCount n) (_maxDepth n).

Definition set_depth (d : Z) (n : node) : node :=
  mkNode (id n) (name n) (parentId n) (collapsed n) (_radius n) (x n) (y n)
    (vx n) (vy n) (fx n) (fy n)
    d (_vIndex n) (_visited n) (_vCount n) (_maxDepth n).

Definition set_visit (vi : Z) (n : node) : node :=
  mkNode (id n) (name n) (parentId n) (collapsed n) (_radius n) (x n) (y n)
    (vx n) (vy n) (fx n) (fy n)
    (_depth n) vi true (_vCount n) (_maxDepth n).

Definition set_counts (vc md : Z) (n : node) : node :=
  mkNode (id n) (name n) (parentId n) (collapsed n) (_radius n) (x n) (y n)
    (vx n) (vy n) (fx n) (fy n)
    (_depth n) (_vIndex n) (_visited n) vc md.

(** STEP 0 of [_calcTreeDepths]: the full reset of one node. *)
Definition reset (n : node) : node :=
  mkNode (id n) (name n) (parentId n) (collapsed n) (_radius n) (x n) (y n)
    (vx n) (vy n) (fx n) (fy n)
    (-1) 0 false 1 0.

(** [new Map(nodes.map(n => [n.id, n]))]: the object stored under an id is
    the last one of the array that carries it; objects are positions. *)
Definition index_map (nodes : list node) : gmap string nat :=
  list_to_map (reverse (imap (λ i n, (id n, i)) nodes)).

Section Depths.

Variable localeCompare : string → string → Z.

(** *** STEP 1: adjacency *)

Definition add_edge (nodeMap : gmap string nat)
  (acc : gmap string (list string) * gmap string Z) (e : edge)
  : gmap string (list string) * gmap string Z :=
  if bool_decide (is_Some (nodeMap !! source e)) &&
     bool_decide (is_Some (nodeMap !! target e))
  then (alter (λ l, l ++ [target e]) (source e) acc.1,
        <[target e := (default 0 (acc.2 !! target e) + 1)%Z]> acc.2)
  else acc.

Definition adjacency (nodes : list node) (edges : list edge)
  : gmap string (list string) * gmap string Z :=
  let nodeMap := index_map nodes in
  let init := foldl (λ acc n, (<[id n := []]> acc.1, <[id n := 0%Z]> acc.2))
                    (∅, ∅) nodes in
  foldl (add_edge nodeMap) init edges.

(** *** STEP 2: roots, as positions in the node array *)

Definition find_roots (incomingCount : gmap string Z) (nodes : list node) : list nat :=
  let roots :=
    omap (λ '(i, n), if (default 0 (incomingCount !! id n) =? 0)%Z then Some i else None)
         (imap pair nodes) in
  match roots, nodes with
  | [], _ :: _ => [0]
  | _, _ => roots
  end.

(** *** STEP 3: breadth-first assignment of depths *)

Record bfs_state := mkBfs {
  bnodes : list node;
  bfsVisited : gset string;
  queue : list nat
}.

Definition bfs_root (st : bfs_state) (r : nat) : bfs_state :=
  match bnodes st !! r with
  | Some n =>
      {| bnodes := alter (set_depth 0) r (bnodes st);
         bfsVisited := {[id n]} ∪ bfsVisited st;
         queue := queue st ++ [r] |}
  | None => st
  end.

(** The body of [for (const childId of children)]; [curr] is the position
    of the node taken from the queue. *)
Definition bfs_child (nodeMap : gmap string nat) (curr : nat)
  (st : bfs_state) (childId : string) : bfs_state :=
  if bool_decide (childId ∈ bfsVisited st) then st
  else match nodeMap !! childId, bnodes st !! curr with
       | Some c, Some cn =>
           {| bnodes := alter (set_depth (_depth cn + 1)) c (bnodes st);
              bfsVisited := {[childId]} ∪ bfsVisited st;
              queue := queue st ++ [c] |}
       | _, _ => st
       end.

(** One iteration of [while (queue.length > 0)]. *)
Definition bfs_step (nodeMap : gmap string nat) (childrenMap : gmap string (list string))
  (curr : nat) (rest : list nat) (st : bfs_state) : bfs_state :=
  let st1 := {| bnodes := bnodes st; bfsVisited := bfsVisited st; queue := rest |} in
  match bnodes st !! curr with
  | Some cn => foldl (bfs_child nodeMap curr) st1 (default [] (childrenMap !! id cn))
  | None => st1
  end.

(** The loop itself; every element enters the queue at most once, so a
    number of iterations above the number of nodes is never needed
    (lemma [ForceLayoutFacts.bfs_loop_terminates]). *)
Fixpoint bfs_loop (fuel : nat) (nodeMap : gmap string nat)
  (childrenMap : gmap string (list string)) (st : bfs_state) : bfs_state :=
  match fuel with
  | O => st
  | S f =>
      match queue st with
      | [] => st
      | curr :: rest => bfs_loop f nodeMap childrenMap (bfs_step nodeMap childrenMap curr rest st)
      end
  end.

(** *** STEP 4: fallback depth for unreached nodes *)

Definition max_depth (nodes : list node) : Z :=
  foldl (λ m n, if (m <? _depth n)%Z then _depth n else m) 0%Z nodes.

Definition fallback (nodes : list node) : list node :=
  let maxDepth := max_depth nodes in
  (λ n, if (_depth n =? -1)%Z then set_depth (maxDepth + 1) n else n) <$> nodes.

(** *** STEP 5: depth-first assignment of the vertical indices *)

(** [Array.prototype.sort] with [(a, b) => a.name.localeCompare(b.name)]:
    a stable sort, written as insertion sort on positions. *)
Fixpoint insert_sorted (nodes : list node) (a : nat) (l : list nat) : list nat :=
  match l with
  | [] => [a]
  | b :: l' =>
      match nodes !! a, nodes !! b with
      | Some na, Some nb =>
          if (localeCompare (name na) (name nb) <=? 0)%Z
          then a :: b :: l'
          else b :: insert_sorted nodes a l'
      | _, _ => a :: b :: l'
      end
  end.

Definition sort_by_name (nodes : list node) (l : list nat) : list nat :=
  foldr (insert_sorted nodes) [] l.

Definition unvisited (nodes : list node) (i : nat) : bool :=
  match nodes !! i with
  | Some n => negb (_visited n)
  | None => false
  end.

(** The closure [visit]; the state is the node array and the map [levels].
    Every call that goes on marks a node, so the recursion is no deeper
    than the number of unvisited nodes and the fuel is never used up
    (lemma [ForceLayoutFacts.visit_fuel_enough]). *)
Fixpoint visit (fuel : nat) (nodeMap : gmap string nat)
  (childrenMap : gmap string (list string)) (nodeId : string)
  (st : list node * gmap Z Z) : list node * gmap Z Z :=
  match fuel with
  | O => st
  | S f =>
      match nodeMap !! nodeId with
      | None => st
      | Some i =>
          match st.1 !! i with
          | None => st
          | Some node =>
              if _visited node then st
              else
                let depth := _depth node in
                let vIndex := default 0%Z (st.2 !! depth) in
                let nodes1 := alter (set_visit vIndex) i st.1 in
                let levels1 := <[depth := (vIndex + 1)%Z]> st.2 in
                let childIds :=
                  sort_by_name nodes1
                    (filter (λ c, Is_true (unvisited nodes1 c))
                       (omap (λ cid, nodeMap !! cid)
                          (default [] (childrenMap !! nodeId)))) in
                foldl (λ s c, match s.1 !! c with
                              | Some cn => visit f nodeMap childrenMap (id cn) s
                              | None => s
                              end)
                      (nodes1, levels1) childIds
          end
      end
  end.

Definition visit_node (fuel : nat) (nodeMap : gmap string nat)
  (childrenMap : gmap string (list string))
  (s : list node * gmap Z Z) (c : nat) : list node * gmap Z Z :=
  match s.1 !! c with
  | Some cn => visit fuel nodeMap childrenMap (id cn) s
  | None => s
  end.

(** The final sweep [for (const n of nodes) if (!n._visited) visit(n.id)]. *)
Definition sweep (fuel : nat) (nodeMap : gmap string nat)
  (childrenMap : gmap string (list string))
  (s : list node * gmap Z Z) (c : nat) : list node * gmap Z Z :=
  if unvisited s.1 c then visit_node fuel nodeMap childrenMap s c else s.

(** *** STEP 6: sibling counts per depth *)

Definition depth_counts (nodes : list node) : gmap Z Z :=
  foldl (λ m n, <[_depth n := Z.max (default 0%Z (m !! _depth n)) (_vIndex n + 1)]> m)
        ∅ nodes.

Definition js_or_Z (a b : Z) : Z := if (a =? 0)%Z then b else a.

Definition assign_counts (maxDepth : Z) (nodes : list node) : list node :=
  let depthCounts := depth_counts nodes in
  (λ n, set_counts (js_or_Z (default 0%Z (depthCounts !! _depth n)) 1) maxDepth n)
    <$> nodes.

(** *** [_calcTreeDepths(nodes, edges)] *)

(** Everything after the reset. *)
Definition annotate (nodes : list node) (edges : list edge) : list node :=
  let nodeMap := index_map nodes in
  let '(childrenMap, incomingCount) := adjacency nodes edges in
  let roots := find_roots incomingCount nodes in
  let st0 := foldl bfs_root {| bnodes := nodes; bfsVisited := ∅; queue := [] |} roots in
  let st1 := bfs_loop (S (length nodes)) nodeMap childrenMap st0 in
  let nodes4 := fallback (bnodes st1) in
  let maxDepth := max_depth nodes4 in
  let fuel := S (length nodes) in
  let sortedRoots := sort_by_name nodes4 roots in
  let s5 := foldl (visit_node fuel nodeMap childrenMap) (nodes4, ∅) sortedRoots in
  let s5' := foldl (sweep fuel nodeMap childrenMap) s5 (seq 0 (length nodes)) in
  assign_counts maxDepth s5'.1.

Definition _calcTreeDepths (nodes : list node) (edges : list edge) : list node :=
  match nodes with
  | [] => nodes
  | _ :: _ => annotate (reset <$> nodes) edges
  end.

End Depths.

(** *** Configuration ([cfg]) *)

Definition cfg_repulsion : Q := -280.
Definition cfg_linkDistance : Q := 80.
Definition cfg_linkStrength : Q := 0.35.
Definition cfg_centerStrength : Q := 0.03.
Definition cfg_alphaDecay : Q := 0.018.
Definition cfg_alphaMin : Q := 0.005.
Definition cfg_collideBuffer : Q := 6.

(** *** Numbers *)

(** [ToNumber] of a position: [null] reads as [0]. *)
Definition num (v : option Q) : Q := default 0%Q v.

(** [v || d] on numbers. *)
Definition nz (v d : Q) : Q := if Qeq_bool v 0 then d else v.

(** [Utils.clamp(v, lo, hi)] is [Math.max(lo, Math.min(hi, v))]. *)
Definition clamp (v lo hi : Q) : Q := Qmax lo (Qmin hi v).

(** [n.vx += dvx; n.vy += dvy] *)
Definition add_vel (dvx dvy : Q) (n : node) : node :=
  set_vel (vx n + dvx)%Q (vy n + dvy)%Q n.

(** The pairs [(activeNodes[i], activeNodes[j])] with [i < j], in the order
    of the two nested [for] loops. *)
Fixpoint pairs (l : list nat) : list (nat * nat) :=
  match l with
  | [] => []
  | a :: rest => ((λ b, (a, b)) <$> rest) ++ pairs rest
  end.

(** *** The engine object *)

(** [_raf] tells whether a frame callback is pending; [onTick] whether a
    callback is installed, and [ticklog] records the [done] flag of every
    call made to it, latest first. *)
Record engine := mkEngine {
  nodes : list node;
  edges : list edge;
  alpha : Q;
  running : bool;
  _raf : bool;
  mode : string;
  onTick : bool;
  ticklog : list bool
}.

Definition with_nodes (ns : list node) (st : engine) : engine :=
  mkEngine ns (edges st) (alpha st) (running st) (_raf st) (mode st)
    (onTick st) (ticklog st).

(** [if (this.onTick) this.onTick(this.nodes, done)] *)
Definition call_onTick (done : bool) (st : engine) : engine :=
  if onTick st
  then mkEngine (nodes st) (edges st) (alpha st) (running st) (_raf st)
         (mode st) (onTick st) (done :: ticklog st)
  else st.

(** *** [_getActiveNodes] and [_getActiveEdges] *)

(** The closure [isHidden]: the walk up the [parentId] chain.  The [while]
    loop has no bound of its own; [None] stands for a walk that is still
    going after [fuel] steps. *)
Fixpoint isHidden (fuel : nat) (ns : list node) (nodeMap : gmap string nat)
  (curr : node) : option bool :=
  match js_or (parentId curr) None with
  | None => Some false
  | Some p =>
      match nodeMap !! p ≫= (λ i, ns !! i) with
      | None => Some false
      | Some parent =>
          if collapsed parent then Some true
          else match fuel with
               | O => None
               | S f => isHidden f ns nodeMap parent
               end
      end
  end.

(** The walk visits a new node at every step unless the chain of parents
    runs into a cycle, so [length ns] steps are enough for every walk that
    ends (lemma [ForceLayoutFacts.isHidden_fuel_enough]); [None] is a loop
    that never returns. *)
Fixpoint active_from (ns : list node) (nodeMap : gmap string nat)
  (i : nat) (l : list node) : option (list nat) :=
  match l with
  | [] => Some []
  | n :: rest =>
      h ← isHidden (length ns) ns nodeMap n;
      act ← active_from ns nodeMap (S i) rest;
      Some (if h : bool then act else i :: act)
  end.

Definition _getActiveNodes (ns : list node) : option (list nat) :=
  active_from ns (index_map ns) 0 ns.

Definition active_ids (ns : list node) (active : list nat) : gset string :=
  list_to_set (omap (λ i, id <$> ns !! i) active).

Definition _getActiveEdges (ns : list node) (es : list edge) (active : list nat)
  : list edge :=
  let idSet := active_ids ns active in
  filter (λ e, source e ∈ idSet ∧ target e ∈ idSet) es.

Section Simulation.

Variable localeCompare : string → string → Z.
Variable sqrt : Q → Q.
Variable atan2 : Q → Q → Q.
Variables cos sin : Q → Q.
Variable PI : Q.

Open Scope Q_scope.

(** *** The forces of [_applyForces] *)

(** 1. The body of the n-body repulsion loop. *)
Definition repel (al : Q) (ns : list node) (p : nat * nat) : list node :=
  match ns !! p.1, ns !! p.2 with
  | Some a, Some b =>
      let dx := nz (num (x b) - num (x a)) 0.001 in
      let dy := nz (num (y b) - num (y a)) 0.001 in
      let d2 := dx * dx + dy * dy in
      let d := sqrt d2 in
      let f := (cfg_repulsion / d2) * al in
      let fx := f * dx / d in
      let fy := f * dy / d in
      alter (add_vel fx fy) p.2 (alter (add_vel (- fx) (- fy)) p.1 ns)
  | _, _ => ns
  end.

(** [_gridRepulsion]: the cell of a node; the key [`${gx},${gy}`] is the
    pair of the two integers. *)
Definition cell (n : node) : Z * Z :=
  (Qfloor (num (x n) / 150), Qfloor (num (y n) / 150)).

Definition grid_of (ns : list node) (active : list nat) : gmap (Z * Z) (list nat) :=
  foldl (λ (g : gmap (Z * Z) (list nat)) i,
           match ns !! i with
           | Some n => <[cell n := default [] (g !! cell n) ++ [i]]> g
           | None => g
           end) ∅ active.

Definition grid_push (al : Q) (i : nat) (ns : list node) (m : nat) : list node :=
  if bool_decide (m = i) then ns
  else match ns !! i, ns !! m with
       | Some n, Some nm =>
           let ddx := nz (num (x nm) - num (x n)) 0.001 in
           let ddy := nz (num (y nm) - num (y n)) 0.001 in
           let d2 := ddx * ddx + ddy * ddy in
           let d := sqrt d2 in
           let f := (cfg_repulsion / d2) * al * 0.5 in
           alter (add_vel (- (f * ddx / d)) (- (f * ddy / d))) i ns
       | _, _ => ns
       end.

Definition offsets : list (Z * Z) :=
  [(-1, -1); (-1, 0); (-1, 1); (0, -1); (0, 0); (0, 1); (1, -1); (1, 0); (1, 1)]%Z.

Definition grid_node (al : Q) (grid : gmap (Z * Z) (list nat))
  (ns : list node) (i : nat) : list node :=
  match ns !! i with
  | Some n =>
      let '(gx, gy) := cell n in
      foldl (λ ns1 (o : Z * Z),
               foldl (grid_push al i) ns1
                 (default [] (grid !! ((gx + o.1)%Z, (gy + o.2)%Z))))
            ns offsets
  | None => ns
  end.

Definition _gridRepulsion (al : Q) (active : list nat) (ns : list node) : list node :=
  foldl (grid_node al (grid_of ns active)) ns active.

(** 2. The body of the spring loop; [nodeMap] maps the ids of the active
    nodes to their positions. *)
Definition spring (al : Q) (nodeMap : gmap string nat) (ns : list node) (e : edge)
  : list node :=
  match nodeMap !! source e, nodeMap !! target e with
  | Some s, Some t =>
      match ns !! s, ns !! t with
      | Some src, Some tgt =>
          let dx := num (x tgt) - num (x src) in
          let dy := num (y tgt) - num (y src) in
          let d := nz (sqrt (dx * dx + dy * dy)) 0.001 in
          let displacement := (d - cfg_linkDistance) / d * cfg_linkStrength * al in
          let fx := dx * displacement * 0.5 in
          let fy := dy * displacement * 0.5 in
          alter (add_vel (- fx) (- fy)) t (alter (add_vel fx fy) s ns)
      | _, _ => ns
      end
  | _, _ => ns
  end.

Definition active_map (ns : list node) (active : list nat) : gmap string nat :=
  list_to_map (reverse (omap (λ i, (λ n, (id n, i)) <$> ns !! i) active)).

(** 3. Centering. *)
Definition centroid (ns : list node) (active : list nat) : Q * Q :=
  let s := foldl (λ c i, match ns !! i with
                         | Some n => (c.1 + num (x n), c.2 + num (y n))
                         | None => c
                         end) (0, 0) active in
  (s.1 / inject_Z (Z.of_nat (length active)),
   s.2 / inject_Z (Z.of_nat (length active))).

Definition center (al : Q) (c : Q * Q) (n : node) : node :=
  add_vel (- ((num (x n) - c.1) * cfg_centerStrength * al))
          (- ((num (y n) - c.2) * cfg_centerStrength * al)) n.

(** 4. Strict mode and 6. integration share the treatment of a pin. *)
Definition snap_to_pin (n : node) : node :=
  set_vel 0 0 (set_pos (fx n) (fy n) n).

Definition strict_snap (n : node) : node :=
  match fx n with
  | Some _ => snap_to_pin n
  | None => n
  end.

(** [_applyRadialGraph], the body of its loop. *)
Definition radial (al : Q) (n : node) : node :=
  if (_depth n =? 0)%Z then
    add_vel ((0 - num (x n)) * 0.1 * al) ((0 - num (y n)) * 0.1 * al) n
  else
    let radiusStep := 200 in
    let targetR := inject_Z (js_or_Z (_depth n) 1) * radiusStep in
    let currentR := nz (sqrt (num (x n) * num (x n) + num (y n) * num (y n))) 0.1 in
    let radialForce := (targetR - currentR) * 0.08 * al in
    let n1 := add_vel ((num (x n) / currentR) * radialForce)
                      ((num (y n) / currentR) * radialForce) n in
    let angle := atan2 (num (y n)) (num (x n)) in
    let vIndex := inject_Z (_vIndex n) in
    let vCount := inject_Z (js_or_Z (_vCount n) 1) in
    let targetAngle := ((vIndex / Qmax vCount 1) * PI * 2) - PI in
    let angleDiff := targetAngle - angle in
    add_vel (cos (angle + PI / 2) * angleDiff * 15 * al)
            (sin (angle + PI / 2) * angleDiff * 15 * al) n1.

(** 5. The body of the collision loop. *)
Definition collide (ns : list node) (p : nat * nat) : list node :=
  match ns !! p.1, ns !! p.2 with
  | Some a, Some b =>
      let minD := nz (num (_radius a)) 10 + nz (num (_radius b)) 10 + cfg_collideBuffer in
      let dx := nz (num (x b) - num (x a)) 0.001 in
      let dy := nz (num (y b) - num (y a)) 0.001 in
      let d := sqrt (dx * dx + dy * dy) in
      if Qlt_le_dec d minD then
        let overlap := (minD - d) / d * 0.5 in
        alter (add_vel (dx * overlap) (dy * overlap)) p.2
          (alter (add_vel (- (dx * overlap)) (- (dy * overlap))) p.1 ns)
      else ns
  | _, _ => ns
  end.

(** 6. Integration of one node. *)
Definition integrate (n : node) : node :=
  match fx n with
  | Some _ => snap_to_pin n
  | None =>
      let n1 := set_vel (vx n * 0.7) (vy n * 0.7) n in
      set_pos (Some (num (x n1) + clamp (vx n1) (-20) 20))
              (Some (num (y n1) + clamp (vy n1) (-20) 20)) n1
  end.

(** [for (const n of activeNodes) body(n)] for a body that touches [n] only. *)
Definition for_active (f : node → node) (active : list nat) (ns : list node)
  : list node :=
  foldl (λ l i, alter f i l) ns active.

(** *** [_applyForces] *)

(** 1. N-body repulsion. *)
Definition repulsion (al : Q) (active : list nat) (ns : list node) : list node :=
  if bool_decide (length active ≤ 600)%nat
  then foldl (repel al) ns (pairs active)
  else _gridRepulsion al active ns.

(** 2. Link spring forces. *)
Definition springs (al : Q) (es : list edge) (active : list nat) (ns : list node)
  : list node :=
  foldl (spring al (active_map ns active)) ns (_getActiveEdges ns es active).

(** 3. Centering force, in free mode only. *)
Definition centering (md : string) (al : Q) (active : list nat) (ns : list node)
  : list node :=
  if String.eqb md "free"
  then for_active (center al (centroid ns active)) active ns
  else ns.

(** [_applyRadialGraph(activeNodes, alpha)] *)
Definition _applyRadialGraph (al : Q) (active : list nat) (ns : list node) : list node :=
  for_active (radial al) active ns.

(** 5. Collision avoidance. *)
Definition collisions (active : list nat) (ns : list node) : list node :=
  foldl collide ns (pairs active).

(** The body of [_applyForces] once the active nodes are known. *)
Definition forces (md : string) (al : Q) (es : list edge) (active : list nat)
  (ns : list node) : list node :=
  match active with
  | [] => ns
  | _ :: _ =>
      let ns3 := centering md al active (springs al es active (repulsion al active ns)) in
      if String.eqb md "strict" then for_active strict_snap active ns3
      else
        let ns4 := if String.eqb md "radial"
                   then _applyRadialGraph al active ns3
                   else ns3 in
        for_active integrate active (collisions active ns4)
  end.

Definition _applyForces (st : engine) : option engine :=
  active ← _getActiveNodes (nodes st);
  Some (with_nodes (forces (mode st) (alpha st) (edges st) active (nodes st)) st).

(** *** The tick loop *)

(** [_tick()]; [_raf] is set when the next frame is requested. *)
Definition _tick (st : engine) : option engine :=
  if negb (running st) || (if Qlt_le_dec (alpha st) cfg_alphaMin then true else false)
  then
    Some (call_onTick true
            (mkEngine (nodes st) (edges st) (alpha st) false (_raf st) (mode st)
               (onTick st) (ticklog st)))
  else
    st1 ← _applyForces st;
    let st2 := mkEngine (nodes st1) (edges st1) (alpha st1 * (1 - cfg_alphaDecay))
                 (running st1) (_raf st1) (mode st1) (onTick st1) (ticklog st1) in
    let st3 := call_onTick false st2 in
    Some (mkEngine (nodes st3) (edges st3) (alpha st3) (running st3) true (mode st3)
            (onTick st3) (ticklog st3)).

(** The host runs the pending frame callback, if there is one. *)
Definition frame (st : engine) : option engine :=
  if _raf st
  then _tick (mkEngine (nodes st) (edges st) (alpha st) (running st) false (mode st)
                (onTick st) (ticklog st))
  else Some st.

Fixpoint frames (k : nat) (st : engine) : option engine :=
  match k with
  | O => Some st
  | S k' => st1 ← frame st; frames k' st1
  end.

(** [start()] *)
Definition start (st : engine) : option engine :=
  if running st then Some st
  else _tick (mkEngine (nodes st) (edges st) (alpha st) true (_raf st) (mode st)
                (onTick st) (ticklog st)).

(** [stop()] *)
Definition stop (st : engine) : engine :=
  mkEngine (nodes st) (edges st) (alpha st) false false (mode st)
    (onTick st) (ticklog st).

(** [reheat(alpha = 0.6)] *)
Definition reheat (al : Q) (st : engine) : option engine :=
  let st1 := mkEngine (_calcTreeDepths localeCompare (nodes st) (edges st))
               (edges st) al (running st) (_raf st) (mode st)
               (onTick st) (ticklog st) in
  if running st1 then Some st1 else start st1.

(** [setMode(mode)] *)
Definition setMode (md : string) (st : engine) : option engine :=
  let st1 := mkEngine (_calcTreeDepths localeCompare (nodes st) (edges st))
               (edges st) (alpha st) (running st) (_raf st) md
               (onTick st) (ticklog st) in
  reheat 0.8 st1.

(** *** [applyStrictLayout(opts = {})] *)

Record opts := mkOpts { onlyUnpositioned : option bool }.

Definition no_opts : opts := {| onlyUnpositioned := None |}.

(** The value that a call passes: nothing, for which the default [{}] is
    taken, a boolean, whose property [onlyUnpositioned] is [undefined], or
    an options object. *)
Inductive argument :=
  | arg_undefined
  | arg_boolean (b : bool)
  | arg_object (o : opts).

Definition opts_of (a : argument) : opts :=
  match a with
  | arg_object o => o
  | arg_undefined | arg_boolean _ => no_opts
  end.

(** [n.x != null && n.y != null && !(n.x === 0 && n.y === 0)] *)
Definition hasPos (n : node) : bool :=
  match x n, y n with
  | Some px, Some py => negb (Qeq_bool px 0 && Qeq_bool py 0)
  | _, _ => false
  end.

Definition place (only : bool) (n : node) : node :=
  if only && hasPos n then n
  else
    let hStep := 300 in
    let vStep := 100 in
    let targetX := inject_Z (_depth n) * hStep in
    let vCount := inject_Z (js_or_Z (_vCount n) 1) in
    let spread := (vCount - 1) * vStep in
    let targetY := (inject_Z (_vIndex n) * vStep) - spread / 2 in
    set_vel 0 0 (set_pos (Some targetX) (Some targetY) n).

Definition applyStrictLayout (o : opts) (st : engine) : engine :=
  let only := bool_decide (onlyUnpositioned o = Some true) in
  match nodes st with
  | [] => st
  | _ :: _ =>
      with_nodes (place only <$> _calcTreeDepths localeCompare (nodes st) (edges st)) st
  end.

End Simulation.

End ForceLayout.

(** ** Utils *)

Module Utils.

(** *** [hashStr(str)] *)

(** [ToInt32] and [ToUint32] of an integer. *)
Definition toInt32 (z : Z) : Z := ((z + 2 ^ 31) mod 2 ^ 32 - 2 ^ 31)%Z.

Definition toUint32 (z : Z) : Z := (z mod 2 ^ 32)%Z.

(** [a << k] and [a ^ b] on numbers that hold integers. *)
Definition shl (a k : Z) : Z := toInt32 (Z.shiftl (toInt32 a) k).

Definition xor (a b : Z) : Z := toInt32 (Z.lxor (toInt32 a) (toInt32 b)).

(** The body of the loop, [h = ((h << 5) + h) ^ str.charCodeAt(i)]; the
    sum is a sum of numbers, the two other operations work on 32 bits. *)
Definition hash_step (h c : Z) : Z := xor (shl h 5 + h) c.

(** The value of [h] after the loop; the string is the list of its UTF-16
    code units. *)
Definition hash (str : list Z) : Z := foldl hash_step 5381%Z str.

(** [n.toString(36)] for an integer [n >= 0]: the digits [0-9a-z], most
    significant first. *)
Definition digit36 (d : Z) : Ascii.ascii :=
  Ascii.ascii_of_nat (if (d <? 10)%Z then 48 + Z.to_nat d else 87 + Z.to_nat d)%nat.

Fixpoint toString36_go (fuel : nat) (n : Z) (acc : string) : string :=
  let acc' := String (digit36 (n mod 36)) acc in
  match fuel with
  | O => acc'
  | S f => if (n / 36 =? 0)%Z then acc' else toString36_go f (n / 36) acc'
  end.

(** A number has no more digits in base 36 than in base 2, which bounds
    the recursion (lemma [UtilsFacts.toString36_fuel_enough]). *)
Definition toString36 (n : Z) : string :=
  toString36_go (Z.to_nat (Z.log2 n)) n "".

(** [(h >>> 0).toString(36)] *)
Definition hashStr (str : list Z) : string := toString36 (toUint32 (hash str)).

(** *** [easeInOutCubic(t)] *)

Definition easeInOutCubic (t : Q) : Q :=
  (if Qlt_le_dec t 0.5 then 4 * t * t * t
   else 1 - ((-2 * t + 2) * (-2 * t + 2) * (-2 * t + 2)) / 2)%Q.

(** [Utils.clamp] is [ForceLayout.clamp] above. *)

End Utils.

(** ** NodeTypes *)

Module NodeTypes.

Import Stdlib.Strings.Ascii.

(** The own keys of [CATEGORIES], each with its colour and its label. *)
Definition CATEGORIES : list (string * (string * string)) :=
  [ ("image", ("#a0a0a0", "Изображение"));
    ("code", ("#ffffff", "Код"));
    ("video", ("#888888", "Видео"));
    ("audio", ("#666666", "Аудио"));
    ("document", ("#cccccc", "Документ"));
    ("archive", ("#555555", "Архив"));
    ("folder", ("#ffffff", "Папка"));
    ("file-group", ("#a0c0ff", "Группа файлов"));
    ("unknown", ("#444444", "Неизвестно")) ].

(** [CATEGORIES[category]] for an own key. *)
Fixpoint own_property {A} (l : list (string * A)) (key : string) : option A :=
  match l with
  | [] => None
  | (k, v) :: l' => if String.eqb k key then Some v else own_property l' key
  end.

Definition groups : list (string * list string) :=
  [ ("image", [".png"; ".jpg"; ".jpeg"; ".svg"; ".webp"; ".gif"; ".avif"; ".ico"; ".bmp";
               ".tiff"; ".heic"; ".raw"]);
    ("code", [".js"; ".ts"; ".tsx"; ".jsx"; ".py"; ".go"; ".rs"; ".cpp"; ".c"; ".h";
              ".java"; ".rb"; ".php"; ".swift"; ".kt"; ".cs"; ".html"; ".css"; ".scss";
              ".sass"; ".less"; ".json"; ".yaml"; ".yml"; ".toml"; ".xml"; ".sh"; ".bash";
              ".zsh"; ".ps1"; ".vue"; ".svelte"; ".elm"; ".clj"; ".ex"; ".exs"; ".hs";
              ".ml"; ".r"; ".jl"; ".lua"; ".dart"]);
    ("video", [".mp4"; ".mov"; ".webm"; ".mkv"; ".avi"; ".m4v"; ".flv"; ".wmv"; ".ogv";
               ".3gp"]);
    ("audio", [".mp3"; ".wav"; ".flac"; ".aac"; ".ogg"; ".m4a"; ".opus"; ".wma"]);
    ("document", [".pdf"; ".doc"; ".docx"; ".md"; ".txt"; ".rtf"; ".xls"; ".xlsx"; ".ppt";
                  ".pptx"; ".odt"; ".ods"; ".odp"; ".epub"; ".pages"; ".numbers"; ".key"]);
    ("archive", [".zip"; ".tar"; ".gz"; ".7z"; ".rar"; ".bz2"; ".xz"; ".lz4"; ".zst";
                 ".cab"]) ].

(** [for (const [cat, exts] of Object.entries(groups))
       for (const ext of exts) map.set(ext, cat)] *)
Definition EXT_MAP : gmap string string :=
  foldl (λ map g, foldl (λ map ext, <[ext := g.1]> map) map g.2) ∅ groups.

(** [name.lastIndexOf('.')], [None] for -1, and [name.slice(dot)].  A name
    is the list of its bytes: no byte of a character of several bytes is
    the byte of the dot, so the suffix is that of the JavaScript string. *)
Fixpoint lastIndexOf (c : Ascii.ascii) (s : string) : option nat :=
  match s with
  | EmptyString => None
  | String a s' =>
      match lastIndexOf c s' with
      | Some i => Some (S i)
      | None => if Ascii.eqb a c then Some 0%nat else None
      end
  end.

Fixpoint slice (start : nat) (s : string) : string :=
  match start, s with
  | S k, String _ s' => slice k s'
  | _, _ => s
  end.

Section Infer.

Variable toLowerCase : string → string.

Definition infer (name : string) (isDir : bool) : string :=
  if isDir then "folder"
  else match lastIndexOf "."%char name with
       | None => "unknown"
       | Some dot =>
           let ext := toLowerCase (slice dot name) in
           default "unknown" (js_or (EXT_MAP !! ext) (Some "unknown"))
       end.

End Infer.

End NodeTypes.

(** ** Renderer: the camera *)

Module Renderer.

Record camera := mkCamera { cam_x : Q; cam_y : Q; cam_scale : Q }.

(** The fields of the renderer that the camera functions read and write;
    [canvas_width] and [canvas_height] are [canvas.width] and
    [canvas.height], and [_nodeMap] holds positions of [nodes]. *)
Record t := mkRenderer {
  canvas_width : Q;
  canvas_height : Q;
  _cam : camera;
  _targetCam : camera;
  nodes : list node;
  edges : list edge;
  _nodeMap : gmap string nat;
  _dirty : bool
}.

Definition with_target (c : camera) (r : t) : t :=
  mkRenderer (canvas_width r) (canvas_height r) (_cam r) c (nodes r) (edges r)
    (_nodeMap r) true.

Definition loadGraph (ns : list node) (es : list edge) (r : t) : t :=
  mkRenderer (canvas_width r) (canvas_height r) (_cam r) (_targetCam r) ns es
    (ForceLayout.index_map ns) true.

Section Page.

(** What the page gives [_resize]: [None] when the canvas has no parent
    element, else the width and height that the canvas holds after
    [canvas.width = container.clientWidth || window.innerWidth] and
    [canvas.height = container.clientHeight || (window.innerHeight - 52)]. *)
Variable page_size : option (Q * Q).

Definition _resize (r : t) : t :=
  match page_size with
  | None => r
  | Some (w, h) =>
      mkRenderer w h (_cam r) (_targetCam r) (nodes r) (edges r) (_nodeMap r) true
  end.

(** The loop of [fitView] over the nodes; [None] stands for the start
    values [Infinity] and [-Infinity], which the first node with a
    position replaces, and a [y] of [null] counts as 0 in [Math.min]. *)
Definition bounds_step (b : option (Q * Q * Q * Q)) (n : node)
    : option (Q * Q * Q * Q) :=
  match x n with
  | None => b
  | Some nx =>
      let ny := ForceLayout.num (y n) in
      match b with
      | None => Some (nx, nx, ny, ny)
      | Some (minX, maxX, minY, maxY) =>
          Some (Qmin minX nx, Qmax maxX nx, Qmin minY ny, Qmax maxY ny)
      end
  end.

Definition fitView (r : t) : t :=
  match nodes r with
  | [] => r
  | _ =>
      let r1 := if Qeq_bool (canvas_width r) 0 then _resize r else r in
      match foldl bounds_step None (nodes r1) with
      | None => r1
      | Some (minX, maxX, minY, maxY) =>
          let gW := ForceLayout.nz (maxX - minX) 100 in
          let gH := ForceLayout.nz (maxY - minY) 100 in
          let cx := minX + gW / 2 in
          let cy := minY + gH / 2 in
          let pad := 120 in
          let sc := ForceLayout.clamp
                      (Qmin ((canvas_width r1 - pad) / gW) ((canvas_height r1 - pad) / gH))
                      0.06 2.5 in
          with_target (mkCamera (- cx * sc) (- cy * sc) sc) r1
      end
  end%Q.

End Page.

(** [zoom(factor, cx, cy)]: the two coordinates are given a default and
    not used. *)
Definition zoom (factor : Q) (cx cy : option Q) (r : t) : t :=
  let newScale := ForceLayout.clamp (cam_scale (_targetCam r) * factor) 0.04 6 in
  with_target (mkCamera (cam_x (_targetCam r)) (cam_y (_targetCam r)) newScale) r.

(** [panTo(nodeId, scale)]; a [scale] that is missing or 0 is replaced. *)
Definition panTo (nodeId : string) (scale : option Q) (r : t) : t :=
  match _nodeMap r !! nodeId ≫= (λ i, nodes r !! i) with
  | None => r
  | Some n =>
      match x n with
      | None => r
      | Some nx =>
          let s := ForceLayout.nz (ForceLayout.num scale)
                     (Qmax (cam_scale (_targetCam r)) 1.2) in
          with_target (mkCamera (- nx * s) (- ForceLayout.num (y n) * s) s) r
      end
  end%Q.

(** [worldToScreen(wx, wy)] *)
Definition worldToScreen (r : t) (wx wy : Q) : Q * Q :=
  let cam := _cam r in
  ((wx * cam_scale cam) + cam_x cam + canvas_width r / 2,
   (wy * cam_scale cam) + cam_y cam + canvas_height r / 2)%Q.

End Renderer.

(** * Properties of the graph integrity store *)

Module GraphStoreFacts.
Import GraphStore.

(** ** Vocabulary of the statements *)

Definition endpoints (e : edge) : string * string := (source e, target e).

Definition incident (e : edge) (i : string) : Prop := source e = i ∨ target e = i.

Definition no_incoming (es : list edge) (i : string) : Prop :=
  ∀ e, e ∈ es → target e ≠ i.

(** [reachable es a b]: there is a path of edges from [a] to [b]. *)
Inductive reachable (es : list edge) (a : string) : string → Prop :=
  | reach_here : reachable es a a
  | reach_step e b : reachable es a b → e ∈ es → source e = b →
      reachable es a (target e).

(** The single root invariant of the design document. *)
Definition single_rooted (nodes : list node) (es : list edge) : Prop :=
  ∃ r, r ∈ nodes ∧ no_incoming es (id r) ∧
       (∀ n, n ∈ nodes → no_incoming es (id n) → id n = id r) ∧
       (∀ n, n ∈ nodes → reachable es (id r) (id n)).

(** An id that does not contain the separator of [edge_key]. *)
Fixpoint arrow_free (s : string) : bool :=
  match s with
  | EmptyString => true
  | String _ s' => negb (String.prefix "→" s) && arrow_free s'
  end.


(** ** The key of an edge *)

Lemma edge_key_inj_aux (s1 s2 t1 t2 : string) :
  arrow_free s1 = true → arrow_free s2 = true →
  s1 +:+ "→" +:+ t1 = s2 +:+ "→" +:+ t2 → s1 = s2 ∧ t1 = t2.
Proof.
  revert s2. induction s1 as [|c1 s1 IH]; intros s2 H1 H2 Heq.
  - destruct s2 as [|c2 s2]; simpl in Heq.
    + injection Heq as Heq. by subst.
    + exfalso. injection Heq as Hc Heq. subst c2.
      destruct s2 as [|c3 s2]; simpl in Heq; [discriminate|].
      injection Heq as Hc Heq. subst c3.
      destruct s2 as [|c4 s2]; simpl in Heq; [discriminate|].
      injection Heq as Hc Heq. subst c4.
      simpl in H2. destruct s2; discriminate.
  - destruct s2 as [|c2 s2]; simpl in Heq.
    + exfalso. injection Heq as Hc Heq. subst c1.
      destruct s1 as [|c3 s1]; simpl in Heq; [discriminate|].
      injection Heq as Hc Heq. subst c3.
      destruct s1 as [|c4 s1]; simpl in Heq; [discriminate|].
      injection Heq as Hc Heq. subst c4.
      simpl in H1. destruct s1; discriminate.
    + injection Heq as Hc Heq. subst c2.
      simpl in H1, H2.
      apply andb_prop in H1 as [_ H1]. apply andb_prop in H2 as [_ H2].
      destruct (IH s2 H1 H2 Heq) as [-> ->]. done.
Qed.

Lemma edge_key_inj (e1 e2 : edge) :
  arrow_free (source e1) = true → arrow_free (source e2) = true →
  edge_key e1 = edge_key e2 → endpoints e1 = endpoints e2.
Proof.
  intros H1 H2 Hk. unfold edge_key in Hk.
  destruct (edge_key_inj_aux _ _ _ _ H1 H2 Hk) as [Hs Ht].
  unfold endpoints. by rewrite Hs, Ht.
Qed.

Lemma endpoints_key (e1 e2 : edge) :
  endpoints e1 = endpoints e2 → edge_key e1 = edge_key e2.
Proof. unfold endpoints, edge_key. intros [= -> ->]. done. Qed.

(** ** Step 2: deduplication *)

Lemma dedupe_cons K e rest :
  dedupe K (e :: rest) =
    if bool_decide (edge_key e ∈ K)
    then ((dedupe K rest).1, S (dedupe K rest).2)
    else (e :: (dedupe ({[edge_key e]} ∪ K) rest).1,
          (dedupe ({[edge_key e]} ∪ K) rest).2).
Proof.
  simpl. case_bool_decide.
  - by destruct (dedupe K rest).
  - by destruct (dedupe _ rest).
Qed.

Lemma dedupe_elem K es e :
  e ∈ (dedupe K es).1 → e ∈ es ∧ edge_key e ∉ K.
Proof.
  revert K. induction es as [|a es IH]; intros K.
  - simpl. by intros ?%elem_of_nil.
  - rewrite dedupe_cons. case_bool_decide as HK; simpl.
    + intros [? ?]%IH. split; [by right | done].
    + intros [->|He]%elem_of_cons.
      * split; [by left | done].
      * apply IH in He as [? Hn]. split; [by right | set_solver].
Qed.

Lemma dedupe_keys_NoDup K es : NoDup (edge_key <$> (dedupe K es).1).
Proof.
  revert K. induction es as [|a es IH]; intros K.
  - simpl. constructor.
  - rewrite dedupe_cons. case_bool_decide; simpl; [apply IH|].
    constructor; [|apply IH].
    intros (e & Hk & He)%list_elem_of_fmap.
    apply dedupe_elem in He as [_ Hn]. set_solver.
Qed.

Lemma dedupe_count K es :
  (dedupe K es).2 + length (dedupe K es).1 = length es.
Proof.
  revert K. induction es as [|a es IH]; intros K; [done|].
  rewrite dedupe_cons.
  case_bool_decide; simpl; [specialize (IH K) | specialize (IH ({[edge_key a]} ∪ K))]; lia.
Qed.


(** An edge that is kept has no earlier edge with the same key. *)
Lemma dedupe_kept_is_first K es e :
  e ∈ (dedupe K es).1 →
  ∃ l1 l2, es = l1 ++ e :: l2 ∧ edge_key e ∉ edge_key <$> l1.
Proof.
  revert K. induction es as [|a es IH]; intros K.
  - simpl. by intros ?%elem_of_nil.
  - rewrite dedupe_cons. case_bool_decide as HK; simpl.
    + intros He. pose proof (dedupe_elem _ _ _ He) as [_ HnK].
      destruct (IH _ He) as (l1 & l2 & -> & Hl1).
      exists (a :: l1), l2. split; [done|].
      rewrite fmap_cons. apply not_elem_of_cons. split; [|done].
      intros Heq. by rewrite Heq in HnK.
    + intros [->|He]%elem_of_cons.
      * exists [], es. split; [done|]. simpl. apply not_elem_of_nil.
      * pose proof (dedupe_elem _ _ _ He) as [_ HnK].
        destruct (IH _ He) as (l1 & l2 & -> & Hl1).
        exists (a :: l1), l2. split; [done|].
        rewrite fmap_cons. apply not_elem_of_cons. split; [|done].
        set_solver.
Qed.

(** A list without repeated keys passes unchanged. *)
Lemma dedupe_id K es :
  NoDup (edge_key <$> es) → (∀ e, e ∈ es → edge_key e ∉ K) →
  dedupe K es = (es, 0).
Proof.
  revert K. induction es as [|a es IH]; intros K Hnd HK; [done|].
  rewrite dedupe_cons. rewrite fmap_cons in Hnd. apply NoDup_cons in Hnd as [Ha Hnd].
  rewrite bool_decide_eq_false_2 by (apply HK; by left).
  rewrite IH; [done | done |].
  intros e He. apply not_elem_of_union. split.
  - intros Heq%elem_of_singleton. apply Ha. rewrite <- Heq.
    apply list_elem_of_fmap. by exists e.
  - apply HK. by right.
Qed.

(** ** Step 3: the root *)

Lemma head_filter_mono {A} (P Q : A → Prop) `{∀ a, Decision (P a)} `{∀ a, Decision (Q a)}
  (l : list A) (a : A) :
  (∀ b, Q b → P b) → head (filter P l) = Some a → Q a → head (filter Q l) = Some a.
Proof.
  intros HQP. induction l as [|b l IH]; [done|].
  rewrite !filter_cons. destruct (decide (P b)) as [HP|HP].
  - simpl. intros [= ->] Ha. by rewrite decide_True.
  - intros Hh Ha. rewrite decide_False; [by apply IH|]. intros ?. by apply HP, HQP.
Qed.

Definition root_candidates (nodes : list node) (es : list edge) : list node :=
  filter (λ n, id n ∉ (list_to_set (target <$> es) : gset string)) nodes.

Lemma find_root_eq nodes es :
  find_root nodes es =
    match head (root_candidates nodes es) with
    | Some r => Some (id r)
    | None => match nodes with
              | n0 :: _ => if truthy (id n0) then Some (id n0) else None
              | [] => None
              end
    end.
Proof. unfold find_root, root_candidates. by destruct (filter _ nodes). Qed.

Lemma find_root_in nodes es r :
  find_root nodes es = Some r → r ∈ ids nodes.
Proof.
  rewrite find_root_eq. destruct (head _) as [n|] eqn:Hh.
  - intros [= <-]. apply head_Some_elem_of in Hh.
    apply list_elem_of_filter in Hh as [_ Hn]. apply list_elem_of_fmap. by exists n.
  - destruct nodes as [|n0 ?]; [done|]. destruct (truthy (id n0)); [|done].
    intros [= <-]. apply list_elem_of_fmap. exists n0. split; [done | by left].
Qed.

Lemma find_root_candidate nodes es n :
  n ∈ nodes → id n ∉ target <$> es →
  ∃ r, head (root_candidates nodes es) = Some r ∧ find_root nodes es = Some (id r) ∧
       r ∈ nodes ∧ id r ∉ target <$> es.
Proof.
  intros Hn Ht. rewrite find_root_eq.
  assert (n ∈ root_candidates nodes es) as Hc.
  { apply list_elem_of_filter. split; [|done]. by rewrite elem_of_list_to_set. }
  destruct (head _) as [r|] eqn:Hh.
  - exists r. split; [done|]. split; [done|].
    apply head_Some_elem_of, list_elem_of_filter in Hh as [Hr ?].
    rewrite elem_of_list_to_set in Hr. done.
  - apply head_None in Hh. rewrite Hh in Hc. by apply elem_of_nil in Hc.
Qed.

(** ** Step 4: reconnecting dangling nodes *)

Lemma connected_fold (c0 : gset string) es i :
  i ∈ foldl (λ c e, {[target e]} ∪ ({[source e]} ∪ c)) c0 es ↔
  i ∈ c0 ∨ ∃ e, e ∈ es ∧ incident e i.
Proof.
  revert c0. induction es as [|a es IH]; intros c0; simpl.
  - split; [by left|]. intros [?|(e & He & _)]; [done|]. by apply elem_of_nil in He.
  - rewrite IH. unfold incident. split.
    + intros [Hi|(e & He & Hinc)].
      * apply elem_of_union in Hi as [Hi|Hi].
        { apply elem_of_singleton in Hi. right. exists a. split; [by left | by right]. }
        apply elem_of_union in Hi as [Hi|Hi]; [|by left].
        apply elem_of_singleton in Hi. right. exists a. split; [by left | by left].
      * right. exists e. split; [by right | done].
    + intros [Hi|(e & He & Hinc)].
      * left. set_solver.
      * apply elem_of_cons in He as [->|He].
        { left. destruct Hinc as [<-|<-]; set_solver. }
        right. by exists e.
Qed.

Lemma connected_set_elem rootId es i :
  i ∈ connected_set rootId es ↔ rootId = Some i ∨ ∃ e, e ∈ es ∧ incident e i.
Proof.
  unfold connected_set. rewrite connected_fold.
  destruct rootId as [r|]; set_solver.
Qed.

(** The source that [reconnect] chooses when a root id [r] is available. *)
Definition new_source (nodeIds : gset string) (r : string) (n : node) : string :=
  match js_or (parentId n) (Some r) with
  | Some p => if bool_decide (p ∈ nodeIds) then p else r
  | None => r
  end.

Definition new_edge (nodeIds : gset string) (r : string) (n : node) : edge :=
  let p := new_source nodeIds r n in
  {| eid := p +:+ "->" +:+ id n; source := p; target := id n |}.

Lemma reconnect_root nodeIds r n :
  reconnect nodeIds (Some r) n = [new_edge nodeIds r n].
Proof.
  unfold reconnect, new_edge, new_source.
  destruct (js_or (parentId n) (Some r)) as [p|] eqn:Hp.
  - by case_bool_decide.
  - unfold js_or in Hp. destruct (parentId n) as [q|]; [|done].
    by destruct (truthy q).
Qed.

Lemma new_source_in nodeIds r n :
  r ∈ nodeIds → new_source nodeIds r n ∈ nodeIds.
Proof.
  intros Hr. unfold new_source.
  destruct (js_or _ _); [|done]. by case_bool_decide.
Qed.

Lemma reconnect_all_root nodeIds connected r nodes :
  reconnect_all nodeIds connected (Some r) nodes =
    (new_edge nodeIds r <$> filter (λ n, Is_true (is_dangling connected (Some r) n)) nodes,
     length (filter (λ n, Is_true (is_dangling connected (Some r) n)) nodes)).
Proof.
  induction nodes as [|n nodes IH]; [done|].
  simpl. rewrite IH, filter_cons.
  destruct (is_dangling connected (Some r) n) eqn:Hd.
  - rewrite decide_True by done. by rewrite reconnect_root.
  - rewrite decide_False; [done|]. by intros [].
Qed.

Lemma reconnect_all_none nodeIds connected rootId nodes :
  (∀ n, n ∈ nodes → is_dangling connected rootId n = false) →
  reconnect_all nodeIds connected rootId nodes = ([], 0).
Proof.
  induction nodes as [|n nodes IH]; intros Hn; [done|].
  simpl. rewrite IH by (intros; apply Hn; by right).
  rewrite Hn by (by left). done.
Qed.

Lemma is_dangling_true connected rootId n :
  is_dangling connected rootId n = true ↔ (id n ∉ connected) ∧ Some (id n) ≠ rootId.
Proof.
  unfold is_dangling. rewrite andb_true_iff, !bool_decide_eq_true. done.
Qed.

(** ** The repair pass as a whole *)

(** The edge array and the [fixed] count that the repair pass computes
    from a node array and an edge array. *)
Definition repaired (nodes : list node) (edges : list edge) : list edge * nat :=
  let r := _ensureGraphIntegrity
             {| _nodes := nodes; _edges := edges; _nodeMap := ∅; _emitted := 0 |} in
  (_edges r.1, r.2).

Definition node_ids (nodes : list node) : gset string := list_to_set (id <$> nodes).

Definition pushed (nodes : list node) (edges : list edge) : list edge * nat :=
  reconnect_all (node_ids nodes)
    (connected_set (chosen_root nodes edges) (surviving nodes edges))
    (chosen_root nodes edges) nodes.

Lemma ensure_eq s :
  _ensureGraphIntegrity s =
    ({| _nodes := _nodes s;
        _edges := surviving (_nodes s) (_edges s) ++ (pushed (_nodes s) (_edges s)).1;
        _nodeMap := list_to_map ((λ n, (id n, n)) <$> reverse (_nodes s));
        _emitted := _emitted s |},
     length (_edges s)
       - length (filter (λ e, Is_true (valid_edge (node_ids (_nodes s)) e)) (_edges s))
       + (dedupe ∅ (filter (λ e, Is_true (valid_edge (node_ids (_nodes s)) e)) (_edges s))).2
       + (pushed (_nodes s) (_edges s)).2).
Proof.
  unfold _ensureGraphIntegrity, pushed, chosen_root, surviving, node_ids.
  destruct (dedupe _ _) as [u k]. simpl.
  by destruct (reconnect_all _ _ _ _).
Qed.

Lemma repaired_eq nodes edges :
  repaired nodes edges =
    (surviving nodes edges ++ (pushed nodes edges).1,
     length edges
       - length (filter (λ e, Is_true (valid_edge (node_ids nodes) e)) edges)
       + (dedupe ∅ (filter (λ e, Is_true (valid_edge (node_ids nodes) e)) edges)).2
       + (pushed nodes edges).2).
Proof. unfold repaired. by rewrite ensure_eq. Qed.

Lemma loadGraph_repaired s nodes edges :
  _edges (loadGraph s (Some nodes) (Some edges)).1 = (repaired nodes edges).1 ∧
  _nodes (loadGraph s (Some nodes) (Some edges)).1 = nodes ∧
  (loadGraph s (Some nodes) (Some edges)).2 = (repaired nodes edges).2.
Proof. unfold loadGraph, repaired. rewrite !ensure_eq. done. Qed.

Lemma refreshGraph_repaired s nodes edges :
  _edges (refreshGraph s (Some nodes) (Some edges)).1 = (repaired nodes edges).1 ∧
  _nodes (refreshGraph s (Some nodes) (Some edges)).1 = nodes ∧
  (refreshGraph s (Some nodes) (Some edges)).2 = (repaired nodes edges).2.
Proof. unfold refreshGraph, repaired. rewrite !ensure_eq. done. Qed.

Lemma surviving_elem nodes edges e :
  e ∈ surviving nodes edges →
  e ∈ edges ∧ source e ∈ ids nodes ∧ target e ∈ ids nodes.
Proof.
  unfold surviving. intros [He _]%dedupe_elem.
  apply list_elem_of_filter in He as [Hv He]. split; [done|].
  unfold valid_edge in Hv. apply andb_prop_elim in Hv as [H1 H2].
  apply bool_decide_unpack in H1, H2.
  rewrite elem_of_list_to_set in H1, H2. done.
Qed.

(** A dangling node forces the existence of a root candidate, so a root id
    is available whenever an edge has to be pushed. *)
Lemma dangling_root nodes edges n :
  n ∈ nodes →
  is_dangling (connected_set (chosen_root nodes edges) (surviving nodes edges))
    (chosen_root nodes edges) n = true →
  ∃ r, chosen_root nodes edges = Some r ∧ r ∈ ids nodes ∧
       r ∉ target <$> surviving nodes edges.
Proof.
  intros Hn [Hc Hr]%is_dangling_true.
  rewrite connected_set_elem in Hc.
  assert (id n ∉ target <$> surviving nodes edges) as Ht.
  { intros (e & He1 & He2)%list_elem_of_fmap. apply Hc. right. exists e.
    split; [done | by right]. }
  destruct (find_root_candidate _ _ _ Hn Ht) as (r & _ & Hf & Hrn & Hrt).
  exists (id r). split; [done|]. split; [|done].
  apply list_elem_of_fmap. by exists r.
Qed.

Lemma pushed_eq nodes edges r :
  chosen_root nodes edges = Some r →
  pushed nodes edges =
    (new_edge (node_ids nodes) r <$>
       filter (λ n, Is_true (is_dangling
                 (connected_set (Some r) (surviving nodes edges)) (Some r) n)) nodes,
     length (filter (λ n, Is_true (is_dangling
                 (connected_set (Some r) (surviving nodes edges)) (Some r) n)) nodes)).
Proof. intros Hr. unfold pushed. rewrite Hr. apply reconnect_all_root. Qed.

Lemma pushed_none nodes edges :
  chosen_root nodes edges = None → pushed nodes edges = ([], 0).
Proof.
  intros Hr. unfold pushed. apply reconnect_all_none. intros n Hn.
  destruct (is_dangling _ _ n) eqn:Hd; [|done].
  destruct (dangling_root _ _ _ Hn Hd) as (r & Hr' & _). congruence.
Qed.

(** Every pushed edge points from an existing node to a dangling node. *)
Lemma pushed_elem nodes edges e :
  e ∈ (pushed nodes edges).1 →
  ∃ r n, chosen_root nodes edges = Some r ∧ n ∈ nodes ∧
         e = new_edge (node_ids nodes) r n ∧
         (id n ∉ connected_set (Some r) (surviving nodes edges)) ∧ id n ≠ r.
Proof.
  destruct (chosen_root nodes edges) as [r|] eqn:Hr.
  - rewrite (pushed_eq _ _ _ Hr). simpl.
    intros (n & -> & Hn)%list_elem_of_fmap.
    apply list_elem_of_filter in Hn as [Hd Hn].
    apply Is_true_true, is_dangling_true in Hd as [Hc Hne].
    exists r, n. repeat split; try done. congruence.
  - rewrite (pushed_none _ _ Hr). simpl. by intros ?%elem_of_nil.
Qed.

(** ** Generic facts on lists *)

Lemma NoDup_fmap_weaken {A B C} (f : A → B) (g : A → C) (l : list A) :
  (∀ a b, f a = f b → g a = g b) → NoDup (g <$> l) → NoDup (f <$> l).
Proof.
  intros Hfg. induction l as [|a l IH]; simpl; [constructor|].
  rewrite !NoDup_cons. intros [Ha Hl]. split; [|by apply IH].
  intros (b & Hb & Hbl)%list_elem_of_fmap. apply Ha.
  apply list_elem_of_fmap. exists b. split; [by apply Hfg | done].
Qed.

Lemma NoDup_fmap_eq {A B} (f : A → B) (l : list A) (a b : A) :
  NoDup (f <$> l) → a ∈ l → b ∈ l → f a = f b → a = b.
Proof.
  induction l as [|c l IH]; simpl; [by intros _ ?%elem_of_nil|].
  rewrite NoDup_cons. intros [Hc Hl] Ha Hb Hab.
  apply elem_of_cons in Ha as [->|Ha]; apply elem_of_cons in Hb as [->|Hb].
  - done.
  - exfalso. apply Hc. rewrite Hab. apply list_elem_of_fmap. by exists b.
  - exfalso. apply Hc. rewrite <- Hab. apply list_elem_of_fmap. by exists a.
  - by apply IH.
Qed.

Lemma filter_nil_iff {A} (P : A → Prop) `{∀ a, Decision (P a)} (l : list A) :
  (∀ a, a ∈ l → ¬ P a) → filter P l = [].
Proof.
  induction l as [|a l IH]; intros Hl; [done|].
  rewrite filter_cons, decide_False by (apply Hl; by left).
  apply IH. intros b Hb. apply Hl. by right.
Qed.


Lemma new_edge_targets_NoDup nodeIds r (l : list node) :
  NoDup (id <$> l) → NoDup (endpoints <$> (new_edge nodeIds r <$> l)).
Proof.
  intros Hl. rewrite <- list_fmap_compose.
  apply (NoDup_fmap_weaken _ id); [|done].
  intros a b. unfold endpoints. simpl. by intros [= _ ?].
Qed.

Lemma NoDup_ids_filter (P : node → Prop) `{∀ a, Decision (P a)} (l : list node) :
  NoDup (id <$> l) → NoDup (id <$> filter P l).
Proof.
  induction l as [|a l IH]; [done|].
  rewrite fmap_cons, NoDup_cons, filter_cons. intros [Ha Hl].
  destruct (decide (P a)); [|by apply IH].
  rewrite fmap_cons, NoDup_cons. split; [|by apply IH].
  intros (b & Hb & Hbl)%list_elem_of_fmap. apply Ha.
  apply list_elem_of_filter in Hbl as [_ Hbl].
  apply list_elem_of_fmap. by exists b.
Qed.

(** ** C1: what the repair pass establishes about roots and connectivity *)

Definition two_trees_nodes : list node :=
  [ mkNode "A" "A" None false None None None 0 0 None None 0 0 false 0 0;
    mkNode "B" "B" (Some "A") false None None None 0 0 None None 0 0 false 0 0;
    mkNode "C" "C" None false None None None 0 0 None None 0 0 false 0 0;
    mkNode "D" "D" (Some "C") false None None None 0 0 None None 0 0 false 0 0 ].

Definition two_trees_edges : list edge :=
  [ mkEdge "A-B" "A" "B"; mkEdge "C-D" "C" "D" ].

(** C1, counterexample: two trees side by side.  Both "A" and "C" keep
    their outgoing edge and neither gets an incoming one, so the graph
    returned by [loadGraph] has two nodes without incoming edge. *)
Lemma loadGraph_two_roots :
  ¬ single_rooted
      (_nodes (loadGraph new (Some two_trees_nodes) (Some two_trees_edges)).1)
      (_edges (loadGraph new (Some two_trees_nodes) (Some two_trees_edges)).1).
Proof.
  assert (_edges (loadGraph new (Some two_trees_nodes) (Some two_trees_edges)).1
          = two_trees_edges) as -> by (vm_compute; reflexivity).
  assert (_nodes (loadGraph new (Some two_trees_nodes) (Some two_trees_edges)).1
          = two_trees_nodes) as -> by reflexivity.
  intros (r & _ & _ & Huniq & _).
  assert (∀ i, i = "A" ∨ i = "C" → no_incoming two_trees_edges i) as Hno.
  { intros i Hi e He. unfold two_trees_edges in He.
    apply elem_of_cons in He as [->|He]; [simpl; destruct Hi as [-> | ->]; discriminate|].
    apply elem_of_cons in He as [->|He]; [simpl; destruct Hi as [-> | ->]; discriminate|].
    by apply elem_of_nil in He. }
  assert (id (mkNode "A" "A" None false None None None 0 0 None None 0 0 false 0 0) = id r) as HA.
  { apply Huniq; [unfold two_trees_nodes; set_solver | apply Hno; by left]. }
  assert (id (mkNode "C" "C" None false None None None 0 0 None None 0 0 false 0 0) = id r) as HC.
  { apply Huniq; [unfold two_trees_nodes; set_solver | apply Hno; by right]. }
  simpl in HA, HC. congruence.
Qed.

Lemma repaired_endpoints_in nodes edges e :
  e ∈ (repaired nodes edges).1 → source e ∈ ids nodes ∧ target e ∈ ids nodes.
Proof.
  rewrite repaired_eq. simpl. intros [He|He]%elem_of_app.
  - by apply surviving_elem in He as (_ & ? & ?).
  - apply pushed_elem in He as (r & n & Hr & Hn & -> & _). simpl. split.
    + apply find_root_in in Hr. unfold ids in Hr.
      pose proof (new_source_in (node_ids nodes) r n) as Hs.
      unfold node_ids in Hs. rewrite !elem_of_list_to_set in Hs. by apply Hs.
    + apply list_elem_of_fmap. by exists n.
Qed.

Lemma not_dangling_cases nodes edges n :
  is_dangling (connected_set (chosen_root nodes edges) (surviving nodes edges))
    (chosen_root nodes edges) n = false →
  chosen_root nodes edges = Some (id n) ∨
  ∃ e, e ∈ surviving nodes edges ∧ incident e (id n).
Proof.
  intros Hd. unfold is_dangling in Hd.
  apply andb_false_iff in Hd as [Hd|Hd]; apply bool_decide_eq_false in Hd.
  - apply dec_stable in Hd. apply connected_set_elem in Hd as [?|?]; [by left | by right].
  - apply dec_stable in Hd. by left.
Qed.

(** The nodes that are left without incoming edge: the root candidates
    that are the chosen root or the source of a surviving edge. *)
Lemma repaired_no_incoming nodes edges n :
  n ∈ nodes →
  no_incoming (repaired nodes edges).1 (id n) ↔
  no_incoming (surviving nodes edges) (id n) ∧
  (chosen_root nodes edges = Some (id n) ∨
   ∃ e, e ∈ surviving nodes edges ∧ source e = id n).
Proof.
  intros Hn. rewrite repaired_eq. simpl. split.
  - intros Hno.
    assert (no_incoming (surviving nodes edges) (id n)) as Hs.
    { intros e He. apply Hno. apply elem_of_app. by left. }
    split; [done|].
    destruct (is_dangling (connected_set (chosen_root nodes edges) (surviving nodes edges))
                (chosen_root nodes edges) n) eqn:Hd.
    + exfalso. destruct (dangling_root _ _ _ Hn Hd) as (r & Hr & _).
      apply (Hno (new_edge (node_ids nodes) r n)); [|done].
      apply elem_of_app. right. rewrite (pushed_eq _ _ _ Hr). simpl.
      apply list_elem_of_fmap. exists n. split; [done|].
      apply list_elem_of_filter. split; [|done]. rewrite <- Hr. by rewrite Hd.
    + apply not_dangling_cases in Hd as [?|(e & He & [Hsrc|Htgt])]; [by left | |].
      * right. by exists e.
      * by destruct (Hs e He).
  - intros [Hs Hcase] e [He|He]%elem_of_app; [by apply Hs|].
    apply pushed_elem in He as (r & m & Hr & Hm & -> & Hc & Hne). simpl.
    intros Heq. rewrite Heq in Hc, Hne. apply Hc. apply connected_set_elem.
    destruct Hcase as [Hroot|(e & He & Hsrc)].
    + congruence.
    + right. exists e. split; [done | by left].
Qed.

(** C1, as the code has it: after [loadGraph], every edge joins two nodes of
    the node array, every node other than the chosen root is an endpoint of
    at least one edge, the chosen root has no incoming edge whenever some
    node had none after steps 1 and 2, and the nodes without incoming edge
    are the root candidates that are the chosen root or keep an outgoing
    edge. *)
Theorem loadGraph_attaches_every_node (s : t) (nodes : list node) (edges : list edge) :
  let out := _edges (loadGraph s (Some nodes) (Some edges)).1 in
  (∀ e, e ∈ out → source e ∈ ids nodes ∧ target e ∈ ids nodes) ∧
  (∀ n, n ∈ nodes →
     chosen_root nodes edges = Some (id n) ∨ ∃ e, e ∈ out ∧ incident e (id n)) ∧
  (∀ n, n ∈ nodes → no_incoming (surviving nodes edges) (id n) →
     ∃ r, chosen_root nodes edges = Some r ∧ r ∈ ids nodes ∧ no_incoming out r) ∧
  (∀ n, n ∈ nodes →
     no_incoming out (id n) ↔
     no_incoming (surviving nodes edges) (id n) ∧
     (chosen_root nodes edges = Some (id n) ∨
      ∃ e, e ∈ surviving nodes edges ∧ source e = id n)).
Proof.
  intros out. unfold out.
  destruct (loadGraph_repaired s nodes edges) as (-> & _ & _).
  split; [apply repaired_endpoints_in|].
  split; [|split; [|intros n Hn; by apply repaired_no_incoming]].
  - intros n Hn. rewrite repaired_eq. simpl.
    destruct (is_dangling (connected_set (chosen_root nodes edges) (surviving nodes edges))
                (chosen_root nodes edges) n) eqn:Hd.
    + right. destruct (dangling_root _ _ _ Hn Hd) as (r & Hr & _).
      exists (new_edge (node_ids nodes) r n). split; [|by right].
      apply elem_of_app. right. rewrite (pushed_eq _ _ _ Hr). simpl.
      apply list_elem_of_fmap. exists n. split; [done|].
      apply list_elem_of_filter. split; [|done]. rewrite <- Hr. by rewrite Hd.
    + apply not_dangling_cases in Hd as [?|(e & He & Hinc)]; [by left|].
      right. exists e. split; [|done]. apply elem_of_app. by left.
  - intros n Hn Hno. rewrite repaired_eq. simpl.
    assert (id n ∉ target <$> surviving nodes edges) as Ht.
    { intros (e & He1 & He2)%list_elem_of_fmap. by apply (Hno e). }
    destruct (find_root_candidate _ _ _ Hn Ht) as (r & _ & Hf & Hrn & Hrt).
    exists (id r). split; [done|]. split; [apply list_elem_of_fmap; by exists r|].
    intros e He Heq. apply elem_of_app in He as [He|He].
    + apply Hrt. apply list_elem_of_fmap. by exists e.
    + apply pushed_elem in He as (r' & m & Hr' & Hm & -> & _ & Hne).
      simpl in Heq. unfold chosen_root in Hr'. congruence.
Qed.

(** ** C2: the edge synthesized for a dangling node *)




Definition scenario_nodes : list node :=
  [ mkNode "root" "root" None false None None None 0 0 None None 0 0 false 0 0;
    mkNode "A" "A" (Some "root") false None None None 0 0 None None 0 0 false 0 0;
    mkNode "D" "D" (Some "root") false None None None 0 0 None None 0 0 false 0 0 ].




(** ** C3: no two edges with the same endpoints *)



Lemma pushed_ids_NoDup nodes edges :
  NoDup (ids nodes) → NoDup (endpoints <$> (pushed nodes edges).1).
Proof.
  intros Hnd. destruct (chosen_root nodes edges) as [r|] eqn:Hr.
  - rewrite (pushed_eq _ _ _ Hr). simpl.
    apply new_edge_targets_NoDup. by apply NoDup_ids_filter.
  - rewrite (pushed_none _ _ Hr). simpl. constructor.
Qed.

Lemma repaired_endpoints_NoDup nodes edges :
  NoDup (ids nodes) → NoDup (endpoints <$> (repaired nodes edges).1).
Proof.
  intros Hnd. rewrite repaired_eq. simpl. rewrite fmap_app.
  apply NoDup_app. split; [|split].
  - apply (NoDup_fmap_weaken _ edge_key); [apply endpoints_key|].
    apply dedupe_keys_NoDup.
  - intros p (e & -> & He)%list_elem_of_fmap (e' & Heq & He')%list_elem_of_fmap.
    apply pushed_elem in He' as (r & n & Hr & Hn & -> & Hc & _).
    apply Hc. apply connected_set_elem. right. exists e. split; [done|].
    right. unfold endpoints in Heq. simpl in Heq. by injection Heq.
  - by apply pushed_ids_NoDup.
Qed.

Lemma valid_edge_true nodes e :
  valid_edge (node_ids nodes) e = true ↔ source e ∈ ids nodes ∧ target e ∈ ids nodes.
Proof.
  unfold valid_edge, node_ids, ids.
  rewrite andb_true_iff, !bool_decide_eq_true, !elem_of_list_to_set. done.
Qed.



Definition duplicate_edges : list edge :=
  [ mkEdge "e1" "root" "A"; mkEdge "e2" "root" "A" ].



(** ** C10: a second repair pass finds nothing to repair *)

Lemma repaired_valid nodes edges e :
  e ∈ (repaired nodes edges).1 → valid_edge (node_ids nodes) e = true.
Proof.
  intros He. apply valid_edge_true. by apply (repaired_endpoints_in nodes edges).
Qed.

Lemma filter_all {A} (P : A → Prop) `{∀ a, Decision (P a)} (l : list A) :
  (∀ a, a ∈ l → P a) → filter P l = l.
Proof.
  induction l as [|a l IH]; intros Hl; [done|].
  rewrite filter_cons, decide_True by (apply Hl; by left).
  f_equal. apply IH. intros b Hb. apply Hl. by right.
Qed.

Lemma repaired_keys_NoDup nodes edges :
  NoDup (ids nodes) → Forall (λ i, arrow_free i = true) (ids nodes) →
  NoDup (edge_key <$> (repaired nodes edges).1).
Proof.
  intros Hnd Hfree. pose proof (repaired_endpoints_NoDup nodes edges Hnd) as Hp.
  apply NoDup_fmap_2_strong; [|by apply NoDup_fmap_1 in Hp].
  intros e1 e2 H1 H2 Hk.
  apply (NoDup_fmap_eq endpoints (repaired nodes edges).1); try done.
  rewrite Forall_forall in Hfree.
  apply edge_key_inj; [| |done]; apply Hfree;
    by eapply repaired_endpoints_in.
Qed.

Lemma surviving_repaired nodes edges :
  NoDup (ids nodes) → Forall (λ i, arrow_free i = true) (ids nodes) →
  dedupe ∅ (filter (λ e, Is_true (valid_edge (node_ids nodes) e)) (repaired nodes edges).1)
  = ((repaired nodes edges).1, 0).
Proof.
  intros Hnd Hfree. rewrite filter_all.
  - apply dedupe_id; [by apply repaired_keys_NoDup | set_solver].
  - intros e He. apply Is_true_true. by apply (repaired_valid nodes edges).
Qed.

(** After one pass no node is dangling any more. *)
Lemma second_pass_no_dangling nodes edges n :
  n ∈ nodes →
  is_dangling
    (connected_set (find_root nodes (repaired nodes edges).1) (repaired nodes edges).1)
    (find_root nodes (repaired nodes edges).1) n = false.
Proof.
  intros Hn. destruct (is_dangling _ _ n) eqn:Hd2; [exfalso|done].
  apply is_dangling_true in Hd2 as [Hc2 Hr2].
  rewrite connected_set_elem in Hc2.
  assert (∀ e, e ∈ (repaired nodes edges).1 → ¬ incident e (id n)) as Hninc.
  { intros e He Hinc. apply Hc2. right. by exists e. }
  rewrite repaired_eq in Hninc, Hr2. simpl in Hninc, Hr2.
  destruct (is_dangling (connected_set (chosen_root nodes edges) (surviving nodes edges))
              (chosen_root nodes edges) n) eqn:Hd1.
  - destruct (dangling_root _ _ _ Hn Hd1) as (r & Hr & _).
    apply (Hninc (new_edge (node_ids nodes) r n)); [|by right].
    apply elem_of_app. right. rewrite (pushed_eq _ _ _ Hr). simpl.
    apply list_elem_of_fmap. exists n. split; [done|].
    apply list_elem_of_filter. split; [|done]. rewrite <- Hr. by rewrite Hd1.
  - apply not_dangling_cases in Hd1 as [Hroot|(e & He & Hinc)].
    2:{ apply (Hninc e); [|done]. apply elem_of_app. by left. }
    unfold chosen_root in Hroot. rewrite find_root_eq in Hroot.
    destruct (head (root_candidates nodes (surviving nodes edges))) as [r0|] eqn:Hh.
    + injection Hroot as Hroot.
      apply Hr2. rewrite find_root_eq. unfold root_candidates in Hh |- *.
      rewrite (head_filter_mono
                 (λ m, id m ∉ (list_to_set (target <$> surviving nodes edges) : gset string))
                 (λ m, id m ∉ (list_to_set
                    (target <$> (surviving nodes edges ++ (pushed nodes edges).1))
                    : gset string)) nodes r0).
      * by rewrite Hroot.
      * intros b Hb Hb'. apply Hb. rewrite elem_of_list_to_set in Hb'.
        rewrite elem_of_list_to_set, fmap_app, elem_of_app. by left.
      * exact Hh.
      * pose proof Hh as Hh0.
        apply head_Some_elem_of, list_elem_of_filter in Hh0 as [Hr0 _].
        rewrite elem_of_list_to_set in Hr0.
        rewrite elem_of_list_to_set, fmap_app, elem_of_app.
        intros [Ht|Ht]; [done|].
        apply list_elem_of_fmap in Ht as (e & Heq & He).
        apply pushed_elem in He as (r' & m & Hr' & Hm & -> & _ & Hne).
        simpl in Heq. unfold chosen_root in Hr'. rewrite find_root_eq in Hr'.
        unfold root_candidates in Hr'. rewrite Hh in Hr'. congruence.
    + apply head_None in Hh.
      assert (id n ∈ target <$> surviving nodes edges) as Ht.
      { destruct (decide (id n ∈ target <$> surviving nodes edges)) as [?|Hnt]; [done|].
        assert (n ∈ root_candidates nodes (surviving nodes edges)) as Hc.
        { apply list_elem_of_filter. split; [|done]. by rewrite elem_of_list_to_set. }
        rewrite Hh in Hc. by apply elem_of_nil in Hc. }
      apply list_elem_of_fmap in Ht as (e & Heq & He).
      apply (Hninc e); [apply elem_of_app; by left | by right].
Qed.

Lemma repaired_twice nodes edges :
  NoDup (ids nodes) → Forall (λ i, arrow_free i = true) (ids nodes) →
  repaired nodes (repaired nodes edges).1 = ((repaired nodes edges).1, 0).
Proof.
  intros Hnd Hfree.
  rewrite (repaired_eq nodes (repaired nodes edges).1).
  assert (surviving nodes (repaired nodes edges).1 = (repaired nodes edges).1) as Hs.
  { unfold surviving. fold (node_ids nodes). by rewrite surviving_repaired. }
  assert (pushed nodes (repaired nodes edges).1 = ([], 0)) as Hp.
  { unfold pushed, chosen_root. rewrite Hs. apply reconnect_all_none.
    intros n Hn. by apply second_pass_no_dangling. }
  rewrite Hs, Hp, surviving_repaired by done. simpl.
  rewrite filter_all.
  - rewrite app_nil_r. f_equal. lia.
  - intros e He. apply Is_true_true. by apply (repaired_valid nodes edges).
Qed.

(** C10, as the code has it: with pairwise distinct node ids that do not
    contain the key separator, running [refreshGraph] on the arrays left by
    [loadGraph] or by [refreshGraph] reports [fixed = 0] and leaves the
    edge array as it is. *)
Theorem refreshGraph_idempotent (s : t) (nodes : list node) (edges : list edge)
  (r1 : t * nat) :
  NoDup (ids nodes) →
  Forall (λ i, arrow_free i = true) (ids nodes) →
  r1 = loadGraph s (Some nodes) (Some edges) ∨
  r1 = refreshGraph s (Some nodes) (Some edges) →
  let r2 := refreshGraph r1.1 (Some (_nodes r1.1)) (Some (_edges r1.1)) in
  r2.2 = 0 ∧ _edges r2.1 = _edges r1.1.
Proof.
  intros Hnd Hfree Hr1 r2. unfold r2.
  destruct (refreshGraph_repaired r1.1 (_nodes r1.1) (_edges r1.1)) as (-> & _ & ->).
  assert (_edges r1.1 = (repaired nodes edges).1 ∧ _nodes r1.1 = nodes) as [-> ->].
  { destruct Hr1 as [-> | ->].
    - by destruct (loadGraph_repaired s nodes edges) as (-> & -> & _).
    - by destruct (refreshGraph_repaired s nodes edges) as (-> & -> & _). }
  by rewrite repaired_twice.
Qed.

Lemma refreshGraph_idempotent_witness :
  let r1 := loadGraph new (Some scenario_nodes) (Some duplicate_edges) in
  let r2 := refreshGraph r1.1 (Some (_nodes r1.1)) (Some (_edges r1.1)) in
  r2.2 = 0 ∧ _edges r2.1 = _edges r1.1.
Proof.
  apply (refreshGraph_idempotent new scenario_nodes duplicate_edges).
  - unfold ids, scenario_nodes. simpl. apply (bool_decide_unpack _). vm_compute. exact I.
  - unfold ids, scenario_nodes. simpl. repeat constructor.
  - by left.
Defined.

(** C10, counterexample: with the two node objects of the id "d" the first
    pass leaves two edges from "r" to "d"; the second pass takes the second
    one for a duplicate, removes it and reports [fixed = 1]. *)
Lemma refreshGraph_repairs_twin_ids_again :
  ¬ (∀ nodes edges,
       let r1 := loadGraph new (Some nodes) (Some edges) in
       let r2 := refreshGraph r1.1 (Some (_nodes r1.1)) (Some (_edges r1.1)) in
       r2.2 = 0 ∧ _edges r2.1 = _edges r1.1).
Proof.
  intros H.
  destruct (H [ mkNode "r" "r" None false None None None 0 0 None None 0 0 false 0 0;
                mkNode "d" "d" None false None None None 0 0 None None 0 0 false 0 0;
                mkNode "d" "d" None false None None None 0 0 None None 0 0 false 0 0 ] [])
    as [Hfixed _].
  vm_compute in Hfixed. discriminate Hfixed.
Qed.

(** ** Remarks on the assumptions *)

(** Two node objects with the same id, both dangling, get the same edge
    twice, and the second pass removes one of the two. *)
Example same_id_twice :
  let twin := mkNode "d" "d" None false None None None 0 0 None None 0 0 false 0 0 in
  let root := mkNode "r" "r" None false None None None 0 0 None None 0 0 false 0 0 in
  repaired [root; twin; twin] []
    = ([ mkEdge "r->d" "r" "d"; mkEdge "r->d" "r" "d" ], 2) ∧
  repaired [root; twin; twin] [ mkEdge "r->d" "r" "d"; mkEdge "r->d" "r" "d" ]
    = ([ mkEdge "r->d" "r" "d" ], 1).
Proof. split; vm_compute; reflexivity. Qed.

(** With the separator inside ids, the pairs ("a→b", "c") and ("a", "b→c")
    share the key "a→b→c": the second pass takes the pushed edge for a
    duplicate, drops it, and pushes it again. *)
Example separator_in_ids :
  let nodes :=
    [ mkNode "a→b" "1" None false None None None 0 0 None None 0 0 false 0 0;
      mkNode "c" "2" (Some "a→b") false None None None 0 0 None None 0 0 false 0 0;
      mkNode "a" "3" None false None None None 0 0 None None 0 0 false 0 0;
      mkNode "b→c" "4" (Some "a") false None None None 0 0 None None 0 0 false 0 0 ] in
  (repaired nodes (repaired nodes [ mkEdge "e" "a→b" "c" ]).1).2 = 2.
Proof. vm_compute. reflexivity. Qed.

(** ** Lookup by id *)

(** [new Map(pairs)] keeps, for every key, the value of the last pair. *)
Lemma list_to_map_first (l : list node) (i : string) :
  (list_to_map ((λ n, (id n, n)) <$> l) : gmap string node) !! i
    = head (filter (λ n, id n = i) l).
Proof.
  induction l as [|a l IH]; [done|].
  rewrite fmap_cons, list_to_map_cons, filter_cons.
  destruct (decide (id a = i)) as [<-|Hne].
  - by rewrite lookup_insert_eq.
  - by rewrite lookup_insert_ne.
Qed.

Lemma nodeMap_lookup (s : t) (i : string) :
  _nodeMap (_ensureGraphIntegrity s).1 !! i = last (filter (λ n, id n = i) (_nodes s)).
Proof.
  rewrite ensure_eq. cbn [fst _nodeMap].
  by rewrite list_to_map_first, filter_reverse, head_reverse.
Qed.

Lemma last_filter_NoDup (nodes : list node) (n : node) :
  NoDup (ids nodes) → n ∈ nodes → last (filter (λ m, id m = id n) nodes) = Some n.
Proof.
  intros Hnd Hn.
  assert (filter (λ m, id m = id n) nodes = [n]) as ->; [|done].
  induction nodes as [|a nodes IH]; [by apply elem_of_nil in Hn|].
  unfold ids in Hnd. rewrite fmap_cons, NoDup_cons in Hnd. destruct Hnd as [Ha Hnd].
  rewrite filter_cons. apply elem_of_cons in Hn as [->|Hn].
  - rewrite decide_True by done. f_equal.
    apply filter_nil_iff. intros b Hb Heq. apply Ha. rewrite <- Heq.
    apply list_elem_of_fmap. by exists b.
  - rewrite decide_False; [by apply IH|]. intros Heq. apply Ha. rewrite Heq.
    apply list_elem_of_fmap. by exists n.
Qed.

(** X1: [getNode] after [loadGraph] or [refreshGraph]: the node found under an
    id is the last node of the array that carries this id; an id that no
    node carries gives [null]; and when the ids are pairwise distinct every
    node of the array is found under its own id. *)
Theorem getNode_after_loadGraph (s : t) (nodes : list node) (edges : option (list edge)) :
  (∀ i, getNode (loadGraph s (Some nodes) edges).1 i
          = last (filter (λ n, id n = i) nodes) ∧
        getNode (refreshGraph s (Some nodes) edges).1 i
          = last (filter (λ n, id n = i) nodes)) ∧
  (∀ i, i ∉ ids nodes → getNode (loadGraph s (Some nodes) edges).1 i = None) ∧
  (NoDup (ids nodes) →
   ∀ n, n ∈ nodes → getNode (loadGraph s (Some nodes) edges).1 (id n) = Some n).
Proof.
  assert (∀ i, getNode (loadGraph s (Some nodes) edges).1 i
               = last (filter (λ n, id n = i) nodes)) as Hload.
  { intros i. unfold getNode, loadGraph.
    pose proof (nodeMap_lookup
                  {| _nodes := nodes; _edges := default [] edges;
                     _nodeMap := _nodeMap s; _emitted := _emitted s |} i) as H.
    cbn [default] in *. by destruct (_ensureGraphIntegrity _). }
  split; [|split].
  - intros i. split; [apply Hload|]. unfold getNode, refreshGraph.
    pose proof (nodeMap_lookup
                  {| _nodes := nodes; _edges := default (_edges s) edges;
                     _nodeMap := _nodeMap s; _emitted := _emitted s |} i) as H.
    cbn [default] in *. by destruct (_ensureGraphIntegrity _).
  - intros i Hi. rewrite Hload.
    rewrite filter_nil_iff; [done|]. intros n Hn Heq. apply Hi.
    apply list_elem_of_fmap. by exists n.
  - intros Hnd n Hn. rewrite Hload. by apply last_filter_NoDup.
Qed.

(** ** The count that the repair pass returns *)

Lemma dedupe_sublist K es : (dedupe K es).1 `sublist_of` es.
Proof.
  revert K. induction es as [|a es IH]; intros K; [done|].
  rewrite dedupe_cons. case_bool_decide; simpl.
  - by apply sublist_cons.
  - by apply sublist_skip.
Qed.

Lemma surviving_sublist nodes edges : surviving nodes edges `sublist_of` edges.
Proof.
  unfold surviving. etrans; [apply dedupe_sublist | apply sublist_filter].
Qed.

Lemma sublist_full {A} (l1 l2 : list A) :
  l1 `sublist_of` l2 → (length l2 ≤ length l1)%nat → l1 = l2.
Proof.
  induction 1 as [|a l1 l2 Hs IH|a l1 l2 Hs IH]; simpl; intros Hlen; [done| |].
  - f_equal. apply IH. lia.
  - apply sublist_length in Hs. lia.
Qed.

(** One edge is pushed for every dangling node. *)
Lemma pushed_count nodes edges : (pushed nodes edges).2 = length (pushed nodes edges).1.
Proof.
  destruct (chosen_root nodes edges) as [r|] eqn:Hr.
  - rewrite (pushed_eq _ _ _ Hr). simpl. by rewrite length_fmap.
  - by rewrite (pushed_none _ _ Hr).
Qed.

Lemma repaired_count nodes edges :
  (repaired nodes edges).2
    = (length edges - length (surviving nodes edges) + length (pushed nodes edges).1)%nat.
Proof.
  rewrite repaired_eq. cbn [snd]. rewrite pushed_count.
  pose proof (dedupe_count ∅
     (filter (λ e, Is_true (valid_edge (node_ids nodes) e)) edges)) as Hd.
  pose proof (length_filter (λ e, Is_true (valid_edge (node_ids nodes) e)) edges) as Hf.
  unfold surviving. fold (node_ids nodes). lia.
Qed.

(** X2: the count returned by [loadGraph] is the number of edges removed plus
    the number of edges added: the edges that survive steps 1 and 2 stay in
    input order at the front of the edge array, the synthesized edges follow
    them, and a count of [0] means that the edge array is the input array. *)
Theorem loadGraph_fixed_count (s : t) (nodes : list node) (edges : list edge) :
  let r := loadGraph s (Some nodes) (Some edges) in
  let kept := surviving nodes edges in
  kept `sublist_of` edges ∧
  kept `prefix_of` _edges r.1 ∧
  r.2 = ((length edges - length kept) + (length (_edges r.1) - length kept))%nat ∧
  (r.2 = 0%nat → _edges r.1 = edges).
Proof.
  intros r kept. unfold r.
  destruct (loadGraph_repaired s nodes edges) as (-> & _ & ->).
  pose proof (surviving_sublist nodes edges) as Hsub.
  pose proof (sublist_length _ _ Hsub) as Hlen.
  rewrite repaired_count. rewrite repaired_eq. cbn [fst].
  fold kept in Hsub, Hlen |- *.
  split; [done|]. split; [by apply prefix_app_r|].
  rewrite length_app. split; [lia|].
  intros H0.
  assert (kept = edges) as -> by (apply sublist_full; [done | lia]).
  destruct (pushed nodes edges).1; [by rewrite app_nil_r | simpl in H0; lia].
Qed.

(** ** Missing input *)

(** X3: [loadGraph] with something that is no array in place of the nodes:
    the store is emptied, every edge is counted as removed, and no id is
    found. *)
Theorem loadGraph_without_nodes (s : t) (edges : option (list edge)) :
  let r := loadGraph s None edges in
  _nodes r.1 = [] ∧ _edges r.1 = [] ∧ r.2 = length (default [] edges) ∧
  ∀ i, getNode r.1 i = None.
Proof.
  intros r. unfold r, loadGraph, getNode. rewrite ensure_eq. cbn.
  assert (filter (λ e, Is_true (valid_edge ∅ e)) (default [] edges) = []) as Hf.
  { apply filter_nil_iff. intros e _ He. unfold valid_edge in He.
    apply andb_prop_elim in He as [He _]. apply bool_decide_unpack in He.
    set_solver. }
  unfold surviving. cbn. rewrite !Hf. cbn.
  split; [done|]. split; [done|]. split; [lia|]. intros i. apply lookup_empty.
Qed.

(** X4: [loadGraph] with nodes and no edge at all builds the hierarchy from the
    [parentId] fields: the first node is the root, and every other node, in
    array order, gets one edge from its parent when a node carries that id,
    from the first node otherwise. *)
Theorem loadGraph_builds_tree (s : t) (n0 : node) (rest : list node) :
  NoDup (ids (n0 :: rest)) →
  let r := loadGraph s (Some (n0 :: rest)) (Some []) in
  _edges r.1 = new_edge (node_ids (n0 :: rest)) (id n0) <$> rest ∧
  r.2 = length rest.
Proof.
  intros Hnd r. unfold r.
  destruct (loadGraph_repaired s (n0 :: rest) []) as (-> & _ & ->).
  rewrite repaired_count. rewrite repaired_eq. cbn [fst].
  assert (surviving (n0 :: rest) [] = []) as Hs by done.
  assert (chosen_root (n0 :: rest) [] = Some (id n0)) as Hr.
  { unfold chosen_root. rewrite Hs. unfold find_root. cbn [fmap list_fmap].
    rewrite filter_cons, decide_True; [done|]. set_solver. }
  rewrite (pushed_eq _ _ _ Hr), Hs. cbn [fst app length].
  unfold ids in Hnd. rewrite fmap_cons, NoDup_cons in Hnd. destruct Hnd as [Hn0 Hnd].
  assert (filter (λ n, Is_true (is_dangling (connected_set (Some (id n0)) []) (Some (id n0)) n))
            (n0 :: rest) = rest) as ->.
  { rewrite filter_cons, decide_False.
    - apply filter_all. intros n Hn. apply Is_true_true, is_dangling_true.
      assert (id n ≠ id n0) as Hne.
      { intros Heq. apply Hn0. rewrite <- Heq. apply list_elem_of_fmap. by exists n. }
      split; [|congruence]. rewrite connected_set_elem.
      intros [[= ?]|(e & He & _)]; [done | by apply elem_of_nil in He].
    - intros Hd%Is_true_true%is_dangling_true. by destruct Hd as [_ Hd]. }
  rewrite length_fmap. split; [done | lia].
Qed.

Definition family_nodes : list node :=
  [ mkNode "root" "root" None false None None None 0 0 None None 0 0 false 0 0;
    mkNode "A" "A" (Some "root") false None None None 0 0 None None 0 0 false 0 0;
    mkNode "B" "B" (Some "A") false None None None 0 0 None None 0 0 false 0 0;
    mkNode "C" "C" (Some "gone") false None None None 0 0 None None 0 0 false 0 0 ].

Lemma loadGraph_builds_tree_witness :
  _edges (loadGraph new (Some family_nodes) (Some [])).1
    = [ mkEdge "root->A" "root" "A"; mkEdge "A->B" "A" "B"; mkEdge "root->C" "root" "C" ] ∧
  (loadGraph new (Some family_nodes) (Some [])).2 = 3.
Proof.
  apply (loadGraph_builds_tree new
           (mkNode "root" "root" None false None None None 0 0 None None 0 0 false 0 0)).
  unfold ids. simpl. apply (bool_decide_unpack _). vm_compute. exact I.
Defined.

End GraphStoreFacts.

(** * Properties of the layout engine *)

Module ForceLayoutFacts.
Import ForceLayout.

(** ** Generic facts on loops and on updates in place *)

(** Membership in a list that is written out. *)
Ltac pick_elem :=
  repeat (apply elem_of_cons; first [ left; reflexivity | right ]).

Lemma foldl_inv {A B} (P : A → Prop) (f : A → B → A) (l : list B) (a : A) :
  P a → (∀ a b, P a → P (f a b)) → P (foldl f a l).
Proof.
  revert a. induction l as [|b l IH]; intros a Ha Hf; simpl; [done|].
  apply IH; [by apply Hf | done].
Qed.

Lemma fmap_alter_same {A B} (g : A → B) (f : A → A) (i : nat) (l : list A) :
  (∀ a, g (f a) = g a) → g <$> alter f i l = g <$> l.
Proof.
  intros Hf. revert i. induction l as [|a l IH]; intros [|i]; simpl; try done.
  - by rewrite Hf.
  - f_equal. apply IH.
Qed.

Lemma fmap_fmap_same {A B} (g : A → B) (f : A → A) (l : list A) :
  (∀ a, g (f a) = g a) → g <$> (f <$> l) = g <$> l.
Proof.
  intros Hf. rewrite <- list_fmap_compose. apply list_fmap_ext.
  intros ? a _. simpl. apply Hf.
Qed.

(** ** The depth pass writes annotation fields only *)

Section DepthFrame.

Variable localeCompare : string → string → Z.

Lemma reset_set_depth d n : reset (set_depth d n) = reset n.
Proof. done. Qed.

Lemma reset_set_visit v n : reset (set_visit v n) = reset n.
Proof. done. Qed.

Lemma reset_set_counts a b n : reset (set_counts a b n) = reset n.
Proof. done. Qed.

Lemma reset_reset n : reset (reset n) = reset n.
Proof. done. Qed.

Lemma bfs_root_frame st r : reset <$> bnodes (bfs_root st r) = reset <$> bnodes st.
Proof.
  unfold bfs_root. destruct (bnodes st !! r); [|done]. simpl.
  by apply fmap_alter_same.
Qed.

Lemma bfs_child_frame nodeMap curr st c :
  reset <$> bnodes (bfs_child nodeMap curr st c) = reset <$> bnodes st.
Proof.
  unfold bfs_child. case_bool_decide; [done|].
  destruct (nodeMap !! c); [|done]. destruct (bnodes st !! curr); [|done]. simpl.
  by apply fmap_alter_same.
Qed.

Lemma bfs_step_frame nodeMap childrenMap curr rest st :
  reset <$> bnodes (bfs_step nodeMap childrenMap curr rest st) = reset <$> bnodes st.
Proof.
  unfold bfs_step. destruct (bnodes st !! curr); [|done].
  apply (foldl_inv (λ s, reset <$> bnodes s = reset <$> bnodes st)); [done|].
  intros s c Hs. by rewrite bfs_child_frame.
Qed.

Lemma bfs_loop_frame fuel nodeMap childrenMap st :
  reset <$> bnodes (bfs_loop fuel nodeMap childrenMap st) = reset <$> bnodes st.
Proof.
  revert st. induction fuel as [|f IH]; intros st; simpl; [done|].
  destruct (queue st); [done|]. by rewrite IH, bfs_step_frame.
Qed.

Lemma fallback_frame ns : reset <$> fallback ns = reset <$> ns.
Proof.
  unfold fallback. apply fmap_fmap_same. intros n. by destruct (_ =? _)%Z.
Qed.

Section AfterDepths.

Context {B : Type} (g : node → B).
Hypothesis g_visit : ∀ v n, g (set_visit v n) = g n.
Hypothesis g_counts : ∀ a b n, g (set_counts a b n) = g n.

Lemma visit_frame fuel nodeMap childrenMap nodeId st :
  g <$> (visit localeCompare fuel nodeMap childrenMap nodeId st).1 = g <$> st.1.
Proof.
  revert nodeId st. induction fuel as [|f IH]; intros nodeId st; simpl; [done|].
  destruct (nodeMap !! nodeId) as [i|]; [|done].
  destruct (st.1 !! i) as [node|]; [|done].
  destruct (_visited node); [done|].
  apply (foldl_inv (λ s, g <$> s.1 = g <$> st.1)).
  - simpl. by apply fmap_alter_same.
  - intros s c Hs. destruct (s.1 !! c); [|done]. by rewrite IH.
Qed.

Lemma visit_node_frame fuel nodeMap childrenMap s c :
  g <$> (visit_node localeCompare fuel nodeMap childrenMap s c).1 = g <$> s.1.
Proof. unfold visit_node. destruct (s.1 !! c); [|done]. apply visit_frame. Qed.

Lemma sweep_frame fuel nodeMap childrenMap s c :
  g <$> (sweep localeCompare fuel nodeMap childrenMap s c).1 = g <$> s.1.
Proof. unfold sweep. destruct (unvisited s.1 c); [|done]. apply visit_node_frame. Qed.

Lemma assign_counts_frame md ns : g <$> assign_counts md ns = g <$> ns.
Proof. unfold assign_counts. by apply fmap_fmap_same. Qed.

(** STEPS 5 and 6 leave alone whatever the two writes leave alone. *)
Lemma annotate_after_fallback ns es :
  g <$> annotate localeCompare ns es =
  g <$> fallback (bnodes (bfs_loop (S (length ns)) (index_map ns) (adjacency ns es).1
                   (foldl bfs_root {| bnodes := ns; bfsVisited := ∅; queue := [] |}
                      (find_roots (adjacency ns es).2 ns)))).
Proof.
  unfold annotate. destruct (adjacency ns es) as [childrenMap incomingCount].
  rewrite assign_counts_frame. cbn [fst snd].
  set (nodes4 := fallback _).
  set (P := λ s : list node * gmap Z Z, g <$> s.1 = g <$> nodes4).
  apply (foldl_inv P); [|intros s c Hs; unfold P; by rewrite sweep_frame].
  apply (foldl_inv P); [done|intros s c Hs; unfold P; by rewrite visit_node_frame].
Qed.

End AfterDepths.

Lemma annotate_frame ns es :
  reset <$> annotate localeCompare ns es = reset <$> ns.
Proof.
  rewrite (annotate_after_fallback reset) by done.
  rewrite fallback_frame, bfs_loop_frame.
  apply (foldl_inv (λ s, reset <$> bnodes s = reset <$> ns)); [done|].
  intros s r Hs. by rewrite bfs_root_frame.
Qed.

Lemma calc_frame ns es :
  reset <$> _calcTreeDepths localeCompare ns es = reset <$> ns.
Proof.
  unfold _calcTreeDepths. destruct ns as [|n ns]; [done|].
  rewrite annotate_frame. apply fmap_fmap_same. apply reset_reset.
Qed.

Lemma calc_length ns es : length (_calcTreeDepths localeCompare ns es) = length ns.
Proof.
  rewrite <- (length_fmap reset), calc_frame. apply length_fmap.
Qed.

Lemma calc_lookup ns es i n :
  ns !! i = Some n →
  ∃ m, _calcTreeDepths localeCompare ns es !! i = Some m ∧ reset m = reset n.
Proof.
  intros Hn. pose proof (calc_frame ns es) as Hf.
  apply (f_equal (λ l, l !! i)) in Hf. rewrite !list_lookup_fmap, Hn in Hf.
  destruct (_calcTreeDepths localeCompare ns es !! i) as [m|]; [|done].
  exists m. split; [done|]. simpl in Hf. congruence.
Qed.

(** The result depends on the input through the reset nodes only. *)
Lemma calc_reset ns es :
  _calcTreeDepths localeCompare (reset <$> ns) es = _calcTreeDepths localeCompare ns es.
Proof.
  unfold _calcTreeDepths. destruct ns as [|n ns]; [done|].
  rewrite fmap_cons. rewrite <- !fmap_cons.
  f_equal. apply fmap_fmap_same, reset_reset.
Qed.

(** C5: the depth pass is idempotent.  A second run on its own output
    gives the same node array, annotation by annotation, and a run never
    sees the annotations left by an earlier one: it starts from the reset
    nodes. *)
Theorem calcTreeDepths_idempotent (ns : list node) (es : list edge) :
  _calcTreeDepths localeCompare (_calcTreeDepths localeCompare ns es) es
    = _calcTreeDepths localeCompare ns es ∧
  _calcTreeDepths localeCompare ns es
    = _calcTreeDepths localeCompare (reset <$> ns) es.
Proof.
  split; [|by rewrite calc_reset].
  rewrite <- (calc_reset (_calcTreeDepths localeCompare ns es)).
  rewrite calc_frame. apply calc_reset.
Qed.

End DepthFrame.

(** ** The node index and the adjacency maps *)

Lemma index_map_keys (ns : list node) :
  (reverse (imap (λ i n, (id n, i)) ns)).*1 = reverse (ids ns).
Proof.
  rewrite fmap_reverse. f_equal. rewrite fmap_imap. unfold ids.
  rewrite <- imap_const. done.
Qed.

Lemma index_map_Some (ns : list node) (s : string) (i : nat) :
  index_map ns !! s = Some i → ∃ n, ns !! i = Some n ∧ id n = s.
Proof.
  unfold index_map. intros H%elem_of_list_to_map_2.
  rewrite elem_of_reverse in H. apply elem_of_lookup_imap in H as (j & m & Heq & Hm).
  injection Heq as -> ->. by exists m.
Qed.

Lemma index_map_None (ns : list node) (s : string) :
  index_map ns !! s = None ↔ s ∉ ids ns.
Proof.
  unfold index_map. rewrite <- not_elem_of_list_to_map, index_map_keys.
  by rewrite elem_of_reverse.
Qed.

Lemma index_map_is_Some (ns : list node) (s : string) :
  is_Some (index_map ns !! s) ↔ s ∈ ids ns.
Proof.
  destruct (index_map ns !! s) as [i|] eqn:H.
  - split; [|by eexists]. intros _.
    apply index_map_Some in H as (m & Hm & <-).
    apply list_elem_of_fmap. exists m. split; [done|]. by eapply list_elem_of_lookup_2.
  - apply index_map_None in H. split; [by intros [? ?] | done].
Qed.

Lemma index_map_NoDup (ns : list node) (i : nat) (n : node) :
  NoDup (ids ns) → ns !! i = Some n → index_map ns !! id n = Some i.
Proof.
  intros Hnd Hn. unfold index_map. apply elem_of_list_to_map_1.
  - rewrite index_map_keys. by rewrite reverse_Permutation.
  - apply elem_of_reverse. by apply (elem_of_lookup_imap_2 (λ i n, (id n, i))).
Qed.

Lemma NoDup_ids_lookup (ns : list node) (i j : nat) (n m : node) :
  NoDup (ids ns) → ns !! i = Some n → ns !! j = Some m → id n = id m → i = j.
Proof.
  intros Hnd Hn Hm Hid.
  pose proof (index_map_NoDup ns i n Hnd Hn) as H1.
  pose proof (index_map_NoDup ns j m Hnd Hm) as H2.
  rewrite Hid in H1. congruence.
Qed.

(** An edge that STEP 1 does not skip. *)
Definition edge_ok (nodeMap : gmap string nat) (e : edge) : bool :=
  bool_decide (is_Some (nodeMap !! source e)) &&
  bool_decide (is_Some (nodeMap !! target e)).

Definition children_of (nodeMap : gmap string nat) (s : string) (es : list edge)
  : list string :=
  target <$> filter (λ e, edge_ok nodeMap e = true ∧ source e = s) es.

Definition incoming (nodeMap : gmap string nat) (t : string) (es : list edge) : nat :=
  length (filter (λ e, edge_ok nodeMap e = true ∧ target e = t) es).

Lemma add_edge_children nodeMap acc es s :
  (foldl (add_edge nodeMap) acc es).1 !! s
    = (λ l, l ++ children_of nodeMap s es) <$> acc.1 !! s.
Proof.
  revert acc. induction es as [|e es IH]; intros acc.
  - simpl. unfold children_of. simpl. destruct (acc.1 !! s); simpl; [|done].
    by rewrite app_nil_r.
  - simpl foldl. rewrite IH. unfold add_edge at 1. fold (edge_ok nodeMap e).
    unfold children_of. rewrite filter_cons.
    destruct (edge_ok nodeMap e) eqn:Hok.
    + simpl. destruct (decide (source e = s)) as [<-|Hne].
      * rewrite decide_True by done. rewrite lookup_alter_eq.
        destruct (acc.1 !! source e); simpl; [|done].
        by rewrite <- app_assoc.
      * rewrite decide_False by (by intros [_ ?]).
        by rewrite lookup_alter_ne.
    + rewrite decide_False by (by intros [? _]). done.
Qed.

Lemma add_edge_incoming nodeMap acc es t :
  default 0%Z ((foldl (add_edge nodeMap) acc es).2 !! t)
    = (default 0%Z (acc.2 !! t) + Z.of_nat (incoming nodeMap t es))%Z.
Proof.
  revert acc. induction es as [|e es IH]; intros acc.
  - simpl. unfold incoming. simpl. lia.
  - simpl foldl. rewrite IH. unfold add_edge at 1. fold (edge_ok nodeMap e).
    unfold incoming. rewrite filter_cons.
    destruct (edge_ok nodeMap e) eqn:Hok.
    + simpl. destruct (decide (target e = t)) as [<-|Hne].
      * rewrite decide_True by done. rewrite lookup_insert_eq. simpl. lia.
      * rewrite decide_False by (by intros [_ ?]).
        by rewrite lookup_insert_ne.
    + rewrite decide_False by (by intros [? _]). done.
Qed.

Lemma adjacency_init (ns : list node)
  (acc : gmap string (list string) * gmap string Z) (s : string) :
  let r := foldl (λ (acc : gmap string (list string) * gmap string Z) n,
                    (<[id n := []]> acc.1, <[id n := 0%Z]> acc.2)) acc ns in
  r.1 !! s = (if decide (s ∈ ids ns) then Some [] else acc.1 !! s) ∧
  r.2 !! s = (if decide (s ∈ ids ns) then Some 0%Z else acc.2 !! s).
Proof.
  revert acc. induction ns as [|n ns IH]; intros acc.
  - cbn [foldl]. cbv zeta. rewrite decide_False by apply not_elem_of_nil. done.
  - cbn [foldl]. destruct (IH (<[id n := []]> acc.1, <[id n := 0%Z]> acc.2)) as [H1 H2].
    cbv zeta in H1, H2. cbn [fst snd] in H1, H2. cbv zeta. rewrite H1, H2.
    unfold ids. rewrite fmap_cons.
    destruct (decide (s ∈ id <$> ns)) as [Hin|Hnin].
    + destruct (decide (s ∈ id n :: (id <$> ns))) as [_|Hn]; [done|].
      exfalso. apply Hn. by right.
    + destruct (decide (s = id n)) as [->|Hne].
      * destruct (decide (id n ∈ id n :: (id <$> ns))) as [_|Hn].
        { by rewrite !lookup_insert_eq. }
        exfalso. apply Hn. by left.
      * destruct (decide (s ∈ id n :: (id <$> ns))) as [[?|?]%elem_of_cons|_]; try done.
        by rewrite !lookup_insert_ne.
Qed.

Lemma adjacency_children (ns : list node) (es : list edge) (s : string) :
  (adjacency ns es).1 !! s =
    if decide (s ∈ ids ns) then Some (children_of (index_map ns) s es) else None.
Proof.
  unfold adjacency. rewrite add_edge_children.
  destruct (adjacency_init ns (∅, ∅) s) as [-> _].
  destruct (decide (s ∈ ids ns)); [done|]. cbn [fst]. by rewrite lookup_empty.
Qed.

Lemma adjacency_incoming (ns : list node) (es : list edge) (t : string) :
  default 0%Z ((adjacency ns es).2 !! t) = Z.of_nat (incoming (index_map ns) t es).
Proof.
  unfold adjacency. rewrite add_edge_incoming.
  destruct (adjacency_init ns (∅, ∅) t) as [_ ->].
  destruct (decide (t ∈ ids ns)); [simpl; lia|]. cbn [snd]. rewrite lookup_empty.
  simpl. lia.
Qed.

Lemma children_of_elem nodeMap s es c :
  c ∈ children_of nodeMap s es ↔
  ∃ e, e ∈ es ∧ edge_ok nodeMap e = true ∧ source e = s ∧ target e = c.
Proof.
  unfold children_of. rewrite list_elem_of_fmap. split.
  - intros (e & -> & [[Hok Hs] He]%list_elem_of_filter). by exists e.
  - intros (e & He & Hok & Hs & Ht). exists e. split; [done|].
    by apply list_elem_of_filter.
Qed.

Lemma incoming_zero nodeMap t es :
  incoming nodeMap t es = 0%nat ↔
  ∀ e, e ∈ es → edge_ok nodeMap e = true → target e ≠ t.
Proof.
  unfold incoming. rewrite length_zero_iff_nil. split.
  - intros Hnil e He Hok Ht.
    assert (e ∈ filter (λ e, edge_ok nodeMap e = true ∧ target e = t) es) as Hin
      by (by apply list_elem_of_filter).
    rewrite Hnil in Hin. by apply elem_of_nil in Hin.
  - intros H. apply GraphStoreFacts.filter_nil_iff. intros e He [Hok Ht].
    by apply (H e).
Qed.

(** ** The breadth-first pass *)

(** The depth stored at a position; [-1] when there is none. *)
Definition dix (l : list node) (i : nat) : Z := from_option _depth (-1)%Z (l !! i).

Definition unseen_count (l : list node) : nat :=
  length (filter (λ n, _depth n = (-1)%Z) l).

Lemma dix_alter (d : Z) (c : nat) (l : list node) (j : nat) :
  dix (alter (set_depth d) c l) j
    = if decide (j = c ∧ (c < length l)%nat) then d else dix l j.
Proof.
  unfold dix. destruct (decide (j = c)) as [->|Hne].
  - rewrite list_lookup_alter_eq. destruct (l !! c) as [n|] eqn:Hc; simpl.
    + apply lookup_lt_Some in Hc. by rewrite decide_True.
    + apply lookup_ge_None in Hc. rewrite decide_False; [done|]. lia.
  - rewrite list_lookup_alter_ne by done. rewrite decide_False; [done|]. by intros [? _].
Qed.

Lemma dix_seen_lt (l : list node) (i : nat) : dix l i ≠ (-1)%Z → (i < length l)%nat.
Proof.
  unfold dix. destruct (l !! i) eqn:Hi; simpl; [|done].
  intros _. by apply lookup_lt_Some in Hi.
Qed.

Lemma dix_lookup (l : list node) (i : nat) (n : node) :
  l !! i = Some n → dix l i = _depth n.
Proof. unfold dix. by intros ->. Qed.

Lemma unseen_alter (l : list node) (j : nat) (n : node) (d : Z) :
  l !! j = Some n → _depth n = (-1)%Z → d ≠ (-1)%Z →
  S (unseen_count (alter (set_depth d) j l)) = unseen_count l.
Proof.
  unfold unseen_count. revert j. induction l as [|a l IH]; intros [|j]; simpl; try done.
  - intros [= ->] Hn Hd. rewrite !filter_cons. simpl.
    rewrite decide_False by done. by rewrite decide_True.
  - intros Hj Hn Hd. rewrite !filter_cons.
    destruct (decide (_depth a = (-1)%Z)); simpl; rewrite <- (IH j); try done.
Qed.

Lemma frame_length (l l' : list node) :
  reset <$> l = reset <$> l' → length l = length l'.
Proof. intros H. by rewrite <- (length_fmap reset l), H, length_fmap. Qed.

Lemma frame_lookup (l l' : list node) (i : nat) (n : node) :
  reset <$> l = reset <$> l' → l' !! i = Some n →
  ∃ m, l !! i = Some m ∧ id m = id n.
Proof.
  intros H Hn. apply (f_equal (λ l, l !! i)) in H.
  rewrite !list_lookup_fmap, Hn in H.
  destruct (l !! i) as [m|]; [|done]. exists m. split; [done|].
  simpl in H. assert (reset m = reset n) as Hr by congruence.
  exact (f_equal id Hr).
Qed.

Lemma size_difference_visit (X V : gset string) (c : string) :
  c ∈ X → c ∉ V → size (X ∖ V) = S (size (X ∖ ({[c]} ∪ V))).
Proof.
  intros Hc Hv.
  assert (X ∖ V = {[c]} ∪ X ∖ ({[c]} ∪ V)) as ->.
  { apply set_eq. intros s. destruct (decide (s = c)) as [->|]; set_solver. }
  rewrite size_union.
  - by rewrite size_singleton.
  - set_solver.
Qed.

Section BFS.

Variable ns0 : list node.
Variable es : list edge.
Hypothesis ids_NoDup : NoDup (ids ns0).
Hypothesis all_reset : ∀ i n, ns0 !! i = Some n → _depth n = (-1)%Z.

Definition roots : list nat := find_roots (adjacency ns0 es).2 ns0.

(** The invariant of the loop.  [cur] is the node taken from the queue
    whose children are being looked at, [D] its depth (or the depth of the
    last such node). *)
Record inv (cur : option nat) (D : Z) (st : bfs_state) : Prop := {
  inv_frame : reset <$> bnodes st = reset <$> ns0;
  inv_seen : ∀ i n, ns0 !! i = Some n →
    id n ∈ bfsVisited st ↔ dix (bnodes st) i ≠ (-1)%Z;
  inv_D : (0 ≤ D)%Z;
  inv_queue : ∃ qa qb, queue st = qa ++ qb ∧
    (∀ c, c ∈ qa → dix (bnodes st) c = D) ∧
    (∀ c, c ∈ qb → dix (bnodes st) c = (D + 1)%Z);
  inv_done : ∀ i, dix (bnodes st) i ≠ (-1)%Z → i ∉ queue st →
    (dix (bnodes st) i ≤ D)%Z;
  inv_edges : ∀ i n e j, ns0 !! i = Some n → dix (bnodes st) i ≠ (-1)%Z →
    i ∉ queue st → Some i ≠ cur →
    e ∈ es → edge_ok (index_map ns0) e = true → source e = id n →
    index_map ns0 !! target e = Some j →
    dix (bnodes st) j ≠ (-1)%Z ∧ (dix (bnodes st) j ≤ dix (bnodes st) i + 1)%Z;
  inv_parent : ∀ j, dix (bnodes st) j ≠ (-1)%Z →
    (j ∈ roots ∧ dix (bnodes st) j = 0%Z) ∨
    ∃ e i, e ∈ es ∧ edge_ok (index_map ns0) e = true ∧
           index_map ns0 !! target e = Some j ∧
           index_map ns0 !! source e = Some i ∧
           dix (bnodes st) i ≠ (-1)%Z ∧
           dix (bnodes st) j = (dix (bnodes st) i + 1)%Z;
  inv_roots : ∀ r, r ∈ roots → dix (bnodes st) r ≠ (-1)%Z;
  inv_cur : ∀ u, cur = Some u → dix (bnodes st) u = D
}.

Definition measure (st : bfs_state) : nat :=
  length (queue st) + unseen_count (bnodes st).

(** One child of the current node [u]. *)
Lemma bfs_child_inv (u : nat) (nu : node) (D : Z) (st : bfs_state)
  (childId : string) (e : edge) :
  inv (Some u) D st →
  ns0 !! u = Some nu →
  e ∈ es → edge_ok (index_map ns0) e = true → source e = id nu → target e = childId →
  let st' := bfs_child (index_map ns0) u st childId in
  inv (Some u) D st' ∧
  measure st' = measure st ∧
  (∀ i, dix (bnodes st) i ≠ (-1)%Z → dix (bnodes st') i = dix (bnodes st) i) ∧
  (∀ j, index_map ns0 !! childId = Some j →
        dix (bnodes st') j ≠ (-1)%Z ∧ (dix (bnodes st') j ≤ D + 1)%Z).
Proof.
  intros Hinv Hu He Hok Hsrc Htgt st'.
  assert (∃ j, index_map ns0 !! childId = Some j) as [j Hj].
  { unfold edge_ok in Hok. apply andb_prop in Hok as [_ Hok].
    apply bool_decide_eq_true in Hok as [j Hj]. exists j. by rewrite <- Htgt. }
  destruct (index_map_Some _ _ _ Hj) as (nj & Hnj & Hidj).
  pose proof (inv_D _ _ _ Hinv) as HD.
  pose proof (inv_cur _ _ _ Hinv u eq_refl) as HuD.
  assert (dix (bnodes st) u ≠ (-1)%Z) as Huseen by lia.
  unfold st', bfs_child. case_bool_decide as Hvis.
  - (* already visited *)
    split; [done|]. split; [done|]. split; [done|].
    intros j' Hj'. assert (j' = j) as -> by congruence.
    assert (dix (bnodes st) j ≠ (-1)%Z) as Hseen.
    { apply (inv_seen _ _ _ Hinv j nj Hnj). by rewrite Hidj. }
    split; [done|].
    destruct (decide (j ∈ queue st)) as [Hq|Hq].
    + destruct (inv_queue _ _ _ Hinv) as (qa & qb & Hqq & Ha & Hb).
      rewrite Hqq in Hq. apply elem_of_app in Hq as [Hq|Hq].
      * rewrite (Ha _ Hq). lia.
      * rewrite (Hb _ Hq). lia.
    + pose proof (inv_done _ _ _ Hinv j Hseen Hq). lia.
  - (* first visit *)
    rewrite Hj.
    destruct (bnodes st !! u) as [cn|] eqn:Hcn.
    2:{ exfalso. apply Huseen. unfold dix. by rewrite Hcn. }
    assert (_depth cn = D) as HcnD.
    { rewrite <- HuD. symmetry. by apply dix_lookup. }
    rewrite HcnD.
    assert (dix (bnodes st) j = (-1)%Z) as Hjun.
    { destruct (decide (dix (bnodes st) j = (-1)%Z)) as [|Hs]; [done|].
      exfalso. apply Hvis. rewrite <- Hidj.
      by apply (inv_seen _ _ _ Hinv j nj Hnj). }
    assert (j < length (bnodes st))%nat as Hjlt.
    { rewrite (frame_length _ _ (inv_frame _ _ _ Hinv)). by apply lookup_lt_Some in Hnj. }
    assert (∀ i, dix (alter (set_depth (D + 1)) j (bnodes st)) i
                 = if decide (i = j) then (D + 1)%Z else dix (bnodes st) i) as Hdix.
    { intros i. rewrite dix_alter. destruct (decide (i = j)) as [->|Hne].
      - by rewrite decide_True.
      - rewrite decide_False; [done|]. by intros [? _]. }
    assert (∀ i, dix (bnodes st) i ≠ (-1)%Z → i ≠ j) as Hne_j.
    { intros i Hi ->. done. }
    assert (∀ i, dix (bnodes st) i ≠ (-1)%Z →
                 dix (alter (set_depth (D + 1)) j (bnodes st)) i = dix (bnodes st) i)
      as Hstable.
    { intros i Hi. rewrite Hdix. rewrite decide_False; [done|]. by apply Hne_j. }
    split; [|split; [|split]].
    + constructor; cbn [bnodes bfsVisited queue].
      * rewrite fmap_alter_same; [apply (inv_frame _ _ _ Hinv) | done].
      * intros i n Hn. rewrite Hdix. destruct (decide (i = j)) as [->|Hne].
        -- assert (n = nj) as -> by congruence. split; [lia|]. intros _.
           rewrite Hidj. set_solver.
        -- rewrite <- (inv_seen _ _ _ Hinv i n Hn).
           assert (id n ≠ childId) as Hid.
           { intros Heq. apply Hne.
             apply (NoDup_ids_lookup ns0 i j n nj); try done. congruence. }
           set_solver.
      * done.
      * destruct (inv_queue _ _ _ Hinv) as (qa & qb & Hqq & Ha & Hb).
        exists qa, (qb ++ [j]). split; [by rewrite Hqq, app_assoc|]. split.
        -- intros c Hc. rewrite Hstable; [by apply Ha|]. rewrite (Ha _ Hc). lia.
        -- intros c [Hc|Hc]%elem_of_app.
           ++ rewrite Hstable; [by apply Hb|]. rewrite (Hb _ Hc). lia.
           ++ apply list_elem_of_singleton in Hc as ->. rewrite Hdix.
              by rewrite decide_True.
      * intros i Hi Hq. rewrite Hdix in Hi |- *.
        destruct (decide (i = j)) as [->|Hne].
        { exfalso. apply Hq. apply elem_of_app. right. by left. }
        apply (inv_done _ _ _ Hinv); [done|]. intros Hin. apply Hq.
        apply elem_of_app. by left.
      * intros i n e' j' Hn Hi Hq Hcur He' Hok' Hs' Hj'.
        rewrite Hdix in Hi. destruct (decide (i = j)) as [->|Hne].
        { exfalso. apply Hq. apply elem_of_app. right. by left. }
        assert (i ∉ queue st) as Hq' by (intros Hin; apply Hq, elem_of_app; by left).
        destruct (inv_edges _ _ _ Hinv i n e' j' Hn Hi Hq' Hcur He' Hok' Hs' Hj')
          as [Hseen Hle].
        rewrite (Hstable j' Hseen), (Hstable i Hi). done.
      * intros j' Hj'. rewrite Hdix in Hj'. destruct (decide (j' = j)) as [->|Hne].
        -- right. exists e, u. split; [done|]. split; [done|].
           split; [by rewrite Htgt|]. split.
           { rewrite Hsrc. by apply index_map_NoDup. }
           rewrite (Hstable u Huseen). split; [done|].
           rewrite Hdix, decide_True by done. lia.
        -- destruct (inv_parent _ _ _ Hinv j' Hj') as [[Hr H0]|(e' & i & He' & Hok' & Ht' & Hs' & Hi & Heq)].
           ++ left. split; [done|]. by rewrite (Hstable j' Hj').
           ++ right. exists e', i. repeat split; try done.
              ** by rewrite (Hstable i Hi).
              ** by rewrite (Hstable j' Hj'), (Hstable i Hi).
      * intros r Hr. rewrite Hstable; by apply (inv_roots _ _ _ Hinv).
      * intros u' [= <-]. by rewrite (Hstable u Huseen).
    + unfold measure. cbn [bnodes queue]. rewrite length_app. simpl.
      destruct (bnodes st !! j) as [mj|] eqn:Hmj.
      2:{ apply lookup_ge_None in Hmj. lia. }
      assert (_depth mj = (-1)%Z) as Hmj1.
      { rewrite <- Hjun. symmetry. by apply dix_lookup. }
      pose proof (unseen_alter (bnodes st) j mj (D + 1) Hmj Hmj1 ltac:(lia)). lia.
    + cbn [bnodes]. exact Hstable.
    + cbn [bnodes]. intros j' Hj'. assert (j' = j) as -> by congruence.
      rewrite Hdix, decide_True by done. lia.
Qed.

(** All the children of the current node. *)
Lemma bfs_children_inv (u : nat) (nu : node) (D : Z) (ch : list string)
  (st : bfs_state) :
  inv (Some u) D st →
  ns0 !! u = Some nu →
  (∀ c, c ∈ ch → ∃ e, e ∈ es ∧ edge_ok (index_map ns0) e = true ∧
                      source e = id nu ∧ target e = c) →
  let st' := foldl (bfs_child (index_map ns0) u) st ch in
  inv (Some u) D st' ∧
  measure st' = measure st ∧
  (∀ i, dix (bnodes st) i ≠ (-1)%Z → dix (bnodes st') i = dix (bnodes st) i) ∧
  (∀ c j, c ∈ ch → index_map ns0 !! c = Some j →
          dix (bnodes st') j ≠ (-1)%Z ∧ (dix (bnodes st') j ≤ D + 1)%Z).
Proof.
  intros Hinv Hu. revert st Hinv. induction ch as [|c ch IH]; intros st Hinv Hch.
  - simpl. split; [done|]. split; [done|]. split; [done|].
    by intros c j ?%elem_of_nil.
  - destruct (Hch c) as (e & He & Hok & Hs & Ht); [by left|].
    destruct (bfs_child_inv u nu D st c e Hinv Hu He Hok Hs Ht)
      as (Hinv1 & Hm1 & Hst1 & Hc1).
    destruct (IH _ Hinv1) as (Hinv2 & Hm2 & Hst2 & Hc2).
    { intros c' Hc'. apply Hch. by right. }
    cbn [foldl]. split; [done|]. split; [by rewrite Hm2|]. split.
    + intros i Hi. rewrite Hst2; [by apply Hst1|]. by rewrite Hst1.
    + intros c' j [->|Hc']%elem_of_cons Hj.
      * destruct (Hc1 j Hj) as [Hseen Hle]. rewrite (Hst2 j Hseen). done.
      * by apply (Hc2 c' j).
Qed.

(** One turn of the loop. *)
Lemma bfs_step_inv (D : Z) (st : bfs_state) (u : nat) (rest : list nat) :
  inv None D st → queue st = u :: rest →
  let st' := bfs_step (index_map ns0) (adjacency ns0 es).1 u rest st in
  (∃ D', inv None D' st') ∧ S (measure st') = measure st ∧
  (∀ i, dix (bnodes st) i ≠ (-1)%Z → dix (bnodes st') i = dix (bnodes st) i).
Proof.
  intros Hinv Hq st'.
  destruct (inv_queue _ _ _ Hinv) as (qa & qb & Hqq & Ha & Hb).
  pose proof (inv_D _ _ _ Hinv) as HD.
  set (D' := dix (bnodes st) u).
  assert (D' = D ∨ D' = (D + 1)%Z) as HD'.
  { rewrite Hq in Hqq. destruct qa as [|a qa]; simpl in Hqq.
    - right. apply Hb. rewrite <- Hqq. by left.
    - left. apply Ha. injection Hqq as -> _. by left. }
  assert (∀ c, c ∈ rest → (D' ≤ dix (bnodes st) c ≤ D' + 1)%Z ∧
               (D' = (D + 1)%Z → dix (bnodes st) c = (D + 1)%Z)) as Hrest.
  { intros c Hc. rewrite Hq in Hqq. destruct qa as [|a qa]; simpl in Hqq.
    - assert (D' = (D + 1)%Z) as HD1 by (apply Hb; rewrite <- Hqq; by left).
      assert (dix (bnodes st) c = (D + 1)%Z) as Hcd
        by (apply Hb; rewrite <- Hqq; by right).
      split; [lia | done].
    - injection Hqq as -> Hrest.
      assert (D' = D) as HD1 by (apply Ha; by left).
      split; [|lia]. rewrite Hrest in Hc. apply elem_of_app in Hc as [Hc|Hc].
      + rewrite (Ha c); [lia | by right].
      + rewrite (Hb c Hc). lia. }
  assert (dix (bnodes st) u ≠ (-1)%Z) as Huseen by (fold D'; lia).
  pose proof (dix_seen_lt _ _ Huseen) as Hult.
  rewrite (frame_length _ _ (inv_frame _ _ _ Hinv)) in Hult.
  destruct (lookup_lt_is_Some_2 ns0 u Hult) as [nu Hnu].
  destruct (frame_lookup _ _ u nu (inv_frame _ _ _ Hinv) Hnu) as (cn & Hcn & Hidcn).
  set (st1 := {| bnodes := bnodes st; bfsVisited := bfsVisited st; queue := rest |}).
  assert (inv (Some u) D' st1) as Hinv1.
  { constructor; unfold st1; cbn [bnodes bfsVisited queue].
    - apply (inv_frame _ _ _ Hinv).
    - apply (inv_seen _ _ _ Hinv).
    - lia.
    - destruct HD' as [HD1|HD1].
      + rewrite Hq in Hqq. destruct qa as [|a qa]; simpl in Hqq.
        * exfalso. assert (D' = (D + 1)%Z) by (apply Hb; rewrite <- Hqq; by left). lia.
        * injection Hqq as -> ->. exists qa, qb. split; [done|]. rewrite HD1. split.
          -- intros c Hc. apply Ha. by right.
          -- done.
      + exists rest, []. split; [by rewrite app_nil_r|]. split.
        * intros c Hc. destruct (Hrest c Hc) as [_ H1]. rewrite H1; [lia | done].
        * by intros c ?%elem_of_nil.
    - intros i Hi Hnq. destruct (decide (i = u)) as [->|Hne]; [fold D'; lia|].
      assert (i ∉ queue st) as Hnq'.
      { rewrite Hq. by intros [?|?]%elem_of_cons. }
      pose proof (inv_done _ _ _ Hinv i Hi Hnq'). lia.
    - intros i n e j Hn Hi Hnq Hcur He Hok Hs Hj.
      assert (i ≠ u) as Hne by congruence.
      assert (i ∉ queue st) as Hnq'.
      { rewrite Hq. by intros [?|?]%elem_of_cons. }
      by apply (inv_edges _ _ _ Hinv i n e j).
    - apply (inv_parent _ _ _ Hinv).
    - apply (inv_roots _ _ _ Hinv).
    - by intros u' [= <-]. }
  unfold st', bfs_step. rewrite Hcn. fold st1. rewrite Hidcn.
  rewrite adjacency_children.
  rewrite decide_True.
  2:{ apply list_elem_of_fmap. exists nu. split; [done|]. by eapply list_elem_of_lookup_2. }
  cbn [default from_option].
  destruct (bfs_children_inv u nu D' (children_of (index_map ns0) (id nu) es) st1 Hinv1 Hnu)
    as (Hinv2 & Hm2 & Hst2 & Hch2).
  { intros c Hc. by apply children_of_elem in Hc. }
  set (st2 := foldl (bfs_child (index_map ns0) u) st1 _) in *.
  split; [|split].
  - exists D'. constructor.
    + apply (inv_frame _ _ _ Hinv2).
    + apply (inv_seen _ _ _ Hinv2).
    + apply (inv_D _ _ _ Hinv2).
    + apply (inv_queue _ _ _ Hinv2).
    + apply (inv_done _ _ _ Hinv2).
    + intros i n e j Hn Hi Hnq _ He Hok Hs Hj.
      destruct (decide (i = u)) as [->|Hne].
      * assert (n = nu) as -> by congruence.
        destruct (Hch2 (target e) j) as [Hseen Hle]; [|done|].
        { apply children_of_elem. by exists e. }
        split; [done|]. rewrite (inv_cur _ _ _ Hinv2 u eq_refl). done.
      * apply (inv_edges _ _ _ Hinv2 i n e j); try done. congruence.
    + apply (inv_parent _ _ _ Hinv2).
    + apply (inv_roots _ _ _ Hinv2).
    + by intros u' ?.
  - rewrite Hm2. unfold measure. cbn [bnodes queue]. rewrite Hq. simpl. lia.
  - exact Hst2.
Qed.

(** The loop: with enough fuel it ends with an empty queue, and the
    invariant holds at the end. *)
Lemma bfs_loop_inv (fuel : nat) (D : Z) (st : bfs_state) :
  inv None D st → (measure st ≤ fuel)%nat →
  let st' := bfs_loop (S fuel) (index_map ns0) (adjacency ns0 es).1 st in
  (∃ D', inv None D' st') ∧ queue st' = [] ∧
  (∀ i, dix (bnodes st) i ≠ (-1)%Z → dix (bnodes st') i = dix (bnodes st) i).
Proof.
  revert D st. induction fuel as [|f IH]; intros D st Hinv Hm; cbn [bfs_loop].
  - destruct (queue st) as [|u rest] eqn:Hq.
    + split; [by exists D|]. done.
    + unfold measure in Hm. rewrite Hq in Hm. simpl in Hm. lia.
  - destruct (queue st) as [|u rest] eqn:Hq.
    + split; [by exists D|]. done.
    + destruct (bfs_step_inv D st u rest Hinv Hq) as ([D' Hinv'] & Hm' & Hst').
      destruct (IH D' _ Hinv') as (HD'' & Hq'' & Hst''); [lia|].
      cbn [bfs_loop] in HD'', Hq'', Hst''.
      split; [done|]. split; [done|].
      intros i Hi. rewrite Hst''; [by apply Hst'|]. by rewrite Hst'.
Qed.

(** The roots and the state in which the loop starts. *)

Lemma candidates_sorted {A} (P : A → bool) (l : list A) (k : nat) :
  let rs := omap (λ '(i, a), if P a then Some i else None)
                 (imap (λ i a, ((k + i)%nat, a)) l) in
  NoDup rs ∧ ∀ j, j ∈ rs → (k ≤ j)%nat.
Proof.
  revert k. induction l as [|a l IH]; intros k; cbn [imap omap].
  - cbv zeta. split; [constructor | by intros j ?%elem_of_nil].
  - destruct (IH (S k)) as [Hnd Hge]. cbv zeta in Hnd, Hge.
    assert (imap ((λ i a, ((k + i)%nat, a)) ∘ S) l
            = imap (λ i a, ((S k + i)%nat, a)) l) as Heq.
    { apply imap_ext. intros i x _. simpl. f_equal. lia. }
    cbv zeta. rewrite Heq. cbn [list_omap].
    destruct (P a); cbn [list_omap omap].
    + split.
      * constructor; [|done]. rewrite Nat.add_0_r. intros Hk.
        specialize (Hge k Hk). lia.
      * intros j [->|Hj]%elem_of_cons; [lia|]. specialize (Hge j Hj). lia.
    + split; [done|]. intros j Hj. specialize (Hge j Hj). lia.
Qed.

Definition is_candidate (n : node) : bool :=
  (default 0 ((adjacency ns0 es).2 !! id n) =? 0)%Z.

Definition candidates : list nat :=
  omap (λ '(i, n), if is_candidate n then Some i else None) (imap pair ns0).

Lemma roots_eq :
  roots = match candidates, ns0 with
          | [], _ :: _ => [0%nat]
          | _, _ => candidates
          end.
Proof. done. Qed.

Lemma candidates_elem (i : nat) :
  i ∈ candidates ↔
  ∃ n, ns0 !! i = Some n ∧ incoming (index_map ns0) (id n) es = 0%nat.
Proof.
  unfold candidates. rewrite list_elem_of_omap. split.
  - intros ([j n] & Hin & Hf). apply elem_of_lookup_imap in Hin as (j' & n' & Heq & Hn).
    injection Heq as -> ->. exists n'. unfold is_candidate in Hf.
    rewrite adjacency_incoming in Hf.
    destruct (Z.of_nat _ =? 0)%Z eqn:Hz; [|done]. injection Hf as ->.
    split; [done|]. apply Z.eqb_eq in Hz. lia.
  - intros (n & Hn & Hinc). exists (i, n). split.
    + by apply (elem_of_lookup_imap_2 pair).
    + unfold is_candidate. rewrite adjacency_incoming, Hinc. done.
Qed.

Lemma roots_NoDup : NoDup roots.
Proof.
  rewrite roots_eq.
  assert (NoDup candidates) as Hc.
  { pose proof (candidates_sorted is_candidate ns0 0) as [H _]. exact H. }
  destruct candidates; [|done]. destruct ns0; [done|].
  apply NoDup_singleton.
Qed.

Lemma roots_lt (r : nat) : r ∈ roots → (r < length ns0)%nat.
Proof.
  rewrite roots_eq. intros Hr.
  assert (r ∈ candidates → r < length ns0)%nat as Hc.
  { intros (n & Hn & _)%candidates_elem. by apply lookup_lt_Some in Hn. }
  destruct candidates eqn:Hcand; [|by apply Hc].
  destruct ns0; [by apply elem_of_nil in Hr|].
  apply list_elem_of_singleton in Hr as ->. simpl. lia.
Qed.

Lemma bfs_roots_fold (rs : list nat) (st : bfs_state) :
  NoDup rs →
  (∀ r, r ∈ rs → dix (bnodes st) r = (-1)%Z ∧ (r < length (bnodes st))%nat) →
  reset <$> bnodes st = reset <$> ns0 →
  let st' := foldl bfs_root st rs in
  reset <$> bnodes st' = reset <$> ns0 ∧
  queue st' = queue st ++ rs ∧
  (∀ i, dix (bnodes st') i = if decide (i ∈ rs) then 0%Z else dix (bnodes st) i) ∧
  (∀ s, s ∈ bfsVisited st' ↔
        s ∈ bfsVisited st ∨ ∃ r n, r ∈ rs ∧ ns0 !! r = Some n ∧ id n = s) ∧
  measure st' = measure st.
Proof.
  revert st. induction rs as [|r rs IH]; intros st Hnd Hrs Hframe; cbn [foldl].
  - cbv zeta. split; [done|]. split; [by rewrite app_nil_r|]. split; [|split; [|done]].
    + intros i. by rewrite decide_False by apply not_elem_of_nil.
    + intros s. split; [by left|]. intros [?|(r & n & Hr & _)]; [done|].
      by apply elem_of_nil in Hr.
  - apply NoDup_cons in Hnd as [Hr Hnd].
    destruct (Hrs r) as [Hr1 Hrlt]; [by left|].
    destruct (lookup_lt_is_Some_2 _ _ Hrlt) as [n Hn].
    assert (_depth n = (-1)%Z) as Hn1 by (rewrite <- Hr1; symmetry; by apply dix_lookup).
    assert (∃ n0, ns0 !! r = Some n0 ∧ id n0 = id n) as (n0 & Hn0 & Hid0).
    { assert (r < length ns0)%nat as Hlt by (by rewrite <- (frame_length _ _ Hframe)).
      destruct (lookup_lt_is_Some_2 _ _ Hlt) as [n0 Hn0]. exists n0. split; [done|].
      destruct (frame_lookup _ _ r n0 Hframe Hn0) as (m & Hm & Hidm). congruence. }
    set (st1 := bfs_root st r).
    assert (bnodes st1 = alter (set_depth 0) r (bnodes st) ∧
            bfsVisited st1 = {[id n]} ∪ bfsVisited st ∧
            queue st1 = queue st ++ [r]) as (Hb1 & Hv1 & Hq1).
    { unfold st1, bfs_root. by rewrite Hn. }
    destruct (IH st1) as (Hf2 & Hq2 & Hd2 & Hv2 & Hm2).
    + done.
    + intros r' Hr'. rewrite Hb1, dix_alter, length_alter.
      rewrite decide_False.
      * apply Hrs. by right.
      * intros [-> _]. done.
    + rewrite Hb1. by rewrite fmap_alter_same.
    + cbv zeta. cbv zeta in Hf2, Hq2, Hd2, Hv2, Hm2.
      split; [done|]. split; [by rewrite Hq2, Hq1, <- app_assoc|].
      split; [|split].
      * intros i. rewrite Hd2, Hb1, dix_alter.
        destruct (decide (i ∈ rs)) as [Hi|Hi].
        { rewrite decide_True; [done | by right]. }
        destruct (decide (i = r)) as [->|Hne].
        { rewrite decide_True by done. rewrite decide_True; [done | by left]. }
        rewrite decide_False by (by intros [? _]).
        rewrite decide_False; [done|]. by intros [?|?]%elem_of_cons.
      * intros s. rewrite Hv2, Hv1. split.
        -- intros [[Hs|Hs]%elem_of_union|(r' & n' & Hr' & Hn' & Hid')].
           ++ apply elem_of_singleton in Hs as ->. right. exists r, n0.
              split; [by left | done].
           ++ by left.
           ++ right. exists r', n'. split; [by right | done].
        -- intros [Hs|(r' & n' & [->|Hr']%elem_of_cons & Hn' & Hid')].
           ++ left. set_solver.
           ++ left. assert (n' = n0) as -> by congruence. set_solver.
           ++ right. by exists r', n'.
      * rewrite Hm2. unfold measure. rewrite Hq1, Hb1, length_app. simpl.
        pose proof (unseen_alter (bnodes st) r n 0 Hn Hn1 ltac:(lia)). lia.
Qed.

Definition bfs_init : bfs_state :=
  foldl bfs_root {| bnodes := ns0; bfsVisited := ∅; queue := [] |} roots.

Lemma ns0_dix (i : nat) : dix ns0 i = (-1)%Z.
Proof.
  unfold dix. destruct (ns0 !! i) as [n|] eqn:Hn; [|done]. simpl. by eapply all_reset.
Qed.

Lemma unseen_all : unseen_count ns0 = length ns0.
Proof.
  unfold unseen_count. rewrite GraphStoreFacts.filter_all; [done|].
  intros n (i & Hi)%list_elem_of_lookup. by eapply all_reset.
Qed.

Lemma bfs_init_inv : inv None 0 bfs_init ∧ measure bfs_init = length ns0.
Proof.
  destruct (bfs_roots_fold roots {| bnodes := ns0; bfsVisited := ∅; queue := [] |})
    as (Hf & Hq & Hd & Hv & Hm).
  - apply roots_NoDup.
  - intros r Hr. cbn [bnodes]. split; [apply ns0_dix | by apply roots_lt].
  - done.
  - fold bfs_init in Hf, Hq, Hd, Hv, Hm. cbn [bnodes bfsVisited queue] in *.
    assert (∀ i, dix (bnodes bfs_init) i ≠ (-1)%Z ↔ i ∈ roots) as Hseen.
    { intros i. rewrite Hd, ns0_dix. destruct (decide (i ∈ roots)); split; done. }
    split.
    + constructor.
      * done.
      * intros i n Hn. rewrite Hseen, Hv. split.
        -- intros [?%elem_of_empty|(r & n' & Hr & Hn' & Hid)]; [done|].
           by rewrite (NoDup_ids_lookup ns0 i r n n' ids_NoDup Hn Hn').
        -- intros Hi. right. by exists i, n.
      * done.
      * exists roots, []. rewrite Hq. split; [by rewrite app_nil_r|]. split.
        -- intros c Hc. rewrite Hd. by rewrite decide_True.
        -- by intros c ?%elem_of_nil.
      * intros i Hi Hnq. apply Hseen in Hi. rewrite Hq in Hnq. done.
      * intros i n e j Hn Hi Hnq. apply Hseen in Hi. rewrite Hq in Hnq. done.
      * intros j Hj. left. apply Hseen in Hj. split; [done|].
        rewrite Hd. by rewrite decide_True.
      * intros r Hr. by apply Hseen.
      * done.
    + rewrite Hm. unfold measure. cbn [bnodes queue]. simpl. apply unseen_all.
Qed.

(** The state in which the loop of [_calcTreeDepths] ends. *)
Definition bfs_end : bfs_state :=
  bfs_loop (S (length ns0)) (index_map ns0) (adjacency ns0 es).1 bfs_init.

(** Termination.  What is still to come: the queue, and the ids that have
    not been visited yet. *)
Definition pending (st : bfs_state) : nat :=
  length (queue st) + size (dom (index_map ns0) ∖ bfsVisited st).

Lemma bfs_child_pending (u : nat) (st : bfs_state) (c : string) :
  pending (bfs_child (index_map ns0) u st c) = pending st.
Proof.
  unfold bfs_child. case_bool_decide as Hc; [done|].
  destruct (index_map ns0 !! c) as [j|] eqn:Hj; [|done].
  destruct (bnodes st !! u); [|done].
  unfold pending. cbn [queue bfsVisited]. rewrite length_app. simpl.
  assert (c ∈ dom (index_map ns0)) as Hdom by (apply elem_of_dom; by eexists).
  rewrite (size_difference_visit _ _ c Hdom Hc). lia.
Qed.

Lemma bfs_step_pending (st : bfs_state) (u : nat) (rest : list nat) :
  queue st = u :: rest →
  S (pending (bfs_step (index_map ns0) (adjacency ns0 es).1 u rest st)) = pending st.
Proof.
  intros Hq. unfold bfs_step.
  set (st1 := {| bnodes := bnodes st; bfsVisited := bfsVisited st; queue := rest |}).
  assert (S (pending st1) = pending st) as <-.
  { unfold pending, st1. cbn [queue bfsVisited]. rewrite Hq. simpl. lia. }
  f_equal. destruct (bnodes st !! u); [|done].
  apply (foldl_inv (λ s, pending s = pending st1)); [done|].
  intros s c Hs. by rewrite bfs_child_pending.
Qed.

Lemma bfs_loop_pending (fuel : nat) (st : bfs_state) :
  (pending st ≤ fuel)%nat →
  queue (bfs_loop (S fuel) (index_map ns0) (adjacency ns0 es).1 st) = [].
Proof.
  revert st. induction fuel as [|f IH]; intros st Hp; cbn [bfs_loop].
  - destruct (queue st) as [|u rest] eqn:Hq; [done|].
    unfold pending in Hp. rewrite Hq in Hp. simpl in Hp. lia.
  - destruct (queue st) as [|u rest] eqn:Hq; [done|].
    pose proof (bfs_step_pending st u rest Hq).
    specialize (IH (bfs_step (index_map ns0) (adjacency ns0 es).1 u rest st)).
    cbn [bfs_loop] in IH. apply IH. lia.
Qed.

Lemma size_list_to_set_le (l : list string) :
  (size (list_to_set l : gset string) ≤ length l)%nat.
Proof.
  induction l as [|a l IH]; [done|]. cbn [list_to_set length].
  rewrite size_union_alt, size_singleton.
  pose proof (subseteq_size (list_to_set l ∖ {[a]}) (list_to_set l : gset string)
                ltac:(set_solver)). lia.
Qed.

Lemma bfs_init_pending : (pending bfs_init ≤ length ns0)%nat.
Proof.
  destruct (bfs_roots_fold roots {| bnodes := ns0; bfsVisited := ∅; queue := [] |})
    as (Hf & Hq & Hd & Hv & Hm).
  - apply roots_NoDup.
  - intros r Hr. cbn [bnodes]. split; [apply ns0_dix | by apply roots_lt].
  - done.
  - fold bfs_init in Hf, Hq, Hd, Hv, Hm. cbn [bnodes bfsVisited queue] in *.
    assert (measure bfs_init = length ns0) as Hn.
    { rewrite Hm. unfold measure. cbn [bnodes queue]. simpl. apply unseen_all. }
    unfold measure in Hn. unfold pending. rewrite <- Hn.
    apply Nat.add_le_mono_l. unfold unseen_count.
    rewrite <- (length_fmap id).
    etrans; [|apply size_list_to_set_le]. apply subseteq_size.
    intros s [Hs Hnv]%elem_of_difference.
    apply elem_of_dom in Hs as [i Hi].
    destruct (index_map_Some _ _ _ Hi) as (n0 & Hn0 & Hid).
    destruct (frame_lookup _ _ i n0 Hf Hn0) as (m & Hm' & Hidm).
    apply elem_of_list_to_set, list_elem_of_fmap. exists m. split; [congruence|].
    apply list_elem_of_filter. split; [|by eapply list_elem_of_lookup_2].
    rewrite <- (dix_lookup _ _ _ Hm'), Hd, ns0_dix.
    destruct (decide (i ∈ roots)) as [Hr|]; [|done].
    exfalso. apply Hnv, Hv. right. by exists i, n0.
Qed.

(** The loop of STEP 3 runs to an empty queue within its fuel. *)
Lemma bfs_loop_terminates : queue bfs_end = [].
Proof. apply bfs_loop_pending, bfs_init_pending. Qed.

Lemma bfs_end_inv : ∃ D, inv None D bfs_end.
Proof.
  destruct bfs_init_inv as [Hinv Hm].
  destruct (bfs_loop_inv (length ns0) 0 bfs_init Hinv) as (HD & _); [lia|].
  exact HD.
Qed.

(** STEP 4 *)

Lemma max_depth_from (m0 : Z) (l : list node) :
  let m := foldl (λ m n, if (m <? _depth n)%Z then _depth n else m) m0 l in
  (m0 ≤ m)%Z ∧ ∀ n, n ∈ l → (_depth n ≤ m)%Z.
Proof.
  revert m0. induction l as [|a l IH]; intros m0; cbn [foldl]; cbv zeta.
  - split; [lia | by intros n ?%elem_of_nil].
  - destruct (IH (if (m0 <? _depth a)%Z then _depth a else m0)) as [H1 H2].
    cbv zeta in H1, H2. destruct (Z.ltb_spec m0 (_depth a)).
    + split; [lia|]. intros n [->|Hn]%elem_of_cons; [lia | by apply H2].
    + split; [lia|]. intros n [->|Hn]%elem_of_cons; [lia | by apply H2].
Qed.

Lemma max_depth_ge (l : list node) (i : nat) : (dix l i ≤ max_depth l)%Z.
Proof.
  destruct (max_depth_from 0 l) as [H0 Hl]. fold (max_depth l) in H0, Hl.
  unfold dix. destruct (l !! i) as [n|] eqn:Hn; simpl; [|lia].
  apply Hl. by eapply list_elem_of_lookup_2.
Qed.

Lemma dix_fallback (l : list node) (i : nat) :
  dix (fallback l) i =
    if decide (dix l i = (-1)%Z ∧ (i < length l)%nat)
    then (max_depth l + 1)%Z else dix l i.
Proof.
  unfold fallback, dix. rewrite list_lookup_fmap.
  destruct (l !! i) as [n|] eqn:Hn; simpl.
  - apply lookup_lt_Some in Hn. destruct (Z.eqb_spec (_depth n) (-1)).
    + by rewrite decide_True.
    + rewrite decide_False; [done|]. by intros [? _].
  - rewrite decide_False; [done|]. apply lookup_ge_None in Hn. intros [_ ?]. lia.
Qed.

(** The depths once STEP 4 is over. *)
Definition final_depth (i : nat) : Z := dix (fallback (bnodes bfs_end)) i.

(** Along every edge the depth grows by one at most. *)
Lemma final_depth_edge (e : edge) (i j : nat) :
  e ∈ es → edge_ok (index_map ns0) e = true →
  index_map ns0 !! source e = Some i → index_map ns0 !! target e = Some j →
  (final_depth j ≤ final_depth i + 1)%Z.
Proof.
  intros He Hok Hi Hj. destruct bfs_end_inv as [D Hinv].
  pose proof bfs_loop_terminates as Hq.
  destruct (index_map_Some _ _ _ Hi) as (n & Hn & Hid).
  unfold final_depth. rewrite !dix_fallback.
  pose proof (max_depth_ge (bnodes bfs_end) j) as Hmj.
  pose proof (max_depth_ge (bnodes bfs_end) i) as Hmi.
  destruct (decide (dix (bnodes bfs_end) i = (-1)%Z)) as [Hiun|Hiseen].
  - rewrite (decide_True (P := _ ∧ (i < _)%nat)).
    2:{ split; [done|]. rewrite (frame_length _ _ (inv_frame _ _ _ Hinv)).
        by apply lookup_lt_Some in Hn. }
    destruct (decide _); lia.
  - rewrite (decide_False (P := dix _ i = _ ∧ _)) by (by intros [? _]).
    destruct (inv_edges _ _ _ Hinv i n e j Hn Hiseen) as [Hjseen Hle]; try done.
    + rewrite Hq. apply not_elem_of_nil.
    + rewrite decide_False by (by intros [? _]). done.
Qed.

(** Every node that can be reached from a node without incoming edge is
    reached by the loop. *)
Lemma reachable_seen (r : nat) (nr : node) (t : string) :
  ns0 !! r = Some nr → incoming (index_map ns0) (id nr) es = 0%nat →
  (∀ e, e ∈ es → edge_ok (index_map ns0) e = true) →
  GraphStoreFacts.reachable es (id nr) t →
  ∃ j, index_map ns0 !! t = Some j ∧ dix (bnodes bfs_end) j ≠ (-1)%Z.
Proof.
  intros Hr Hinc Hoks Hreach. destruct bfs_end_inv as [D Hinv].
  pose proof bfs_loop_terminates as Hq.
  assert (r ∈ candidates) as Hcand by (apply candidates_elem; by exists nr).
  assert (r ∈ roots) as Hroot.
  { rewrite roots_eq. destruct candidates; [by apply elem_of_nil in Hcand | done]. }
  induction Hreach as [|e b Hreach IH He Hs].
  - exists r. split; [by apply index_map_NoDup|]. by apply (inv_roots _ _ _ Hinv).
  - destruct IH as (i & Hi & Hiseen).
    destruct (index_map_Some _ _ _ Hi) as (n & Hn & Hid).
    pose proof (Hoks e He) as Hok.
    assert (∃ j, index_map ns0 !! target e = Some j) as [j Hj].
    { unfold edge_ok in Hok. apply andb_prop in Hok as [_ Hok].
      by apply bool_decide_eq_true in Hok as [j Hj]; exists j. }
    exists j. split; [done|].
    destruct (inv_edges _ _ _ Hinv i n e j Hn Hiseen) as [Hjseen _]; try done.
    + rewrite Hq. apply not_elem_of_nil.
    + congruence.
Qed.

(** On an edge that is the only way into its target, below a node without
    incoming edge, the depth grows by exactly one. *)
Lemma final_depth_tree_edge (e : edge) (i j : nat) (nr : node) :
  e ∈ es →
  index_map ns0 !! source e = Some i → index_map ns0 !! target e = Some j →
  (∀ e', e' ∈ es → edge_ok (index_map ns0) e' = true) →
  (∀ e', e' ∈ es → target e' = target e → source e' = source e) →
  nr ∈ ns0 → incoming (index_map ns0) (id nr) es = 0%nat →
  GraphStoreFacts.reachable es (id nr) (target e) →
  final_depth j = (final_depth i + 1)%Z.
Proof.
  intros He Hi Hj Hoks Huniq Hnr Hinc Hreach. destruct bfs_end_inv as [D Hinv].
  apply list_elem_of_lookup in Hnr as [r Hr].
  destruct (reachable_seen r nr (target e) Hr Hinc Hoks Hreach) as (j' & Hj' & Hjseen).
  assert (j' = j) as -> by congruence.
  destruct (index_map_Some _ _ _ Hj) as (nj & Hnj & Hidj).
  assert (r ∈ candidates) as Hcand by (apply candidates_elem; by exists nr).
  destruct (inv_parent _ _ _ Hinv j Hjseen)
    as [[Hroot _]|(e' & i' & He' & Hok' & Ht' & Hs' & Hi'seen & Heq)].
  - exfalso. rewrite roots_eq in Hroot.
    destruct candidates eqn:Hc; [by apply elem_of_nil in Hcand|]. rewrite <- Hc in Hroot.
    apply candidates_elem in Hroot as (nj' & Hnj' & Hinc').
    assert (nj' = nj) as -> by congruence.
    rewrite incoming_zero in Hinc'. by apply (Hinc' e He (Hoks e He)).
  - destruct (index_map_Some _ _ _ Ht') as (nj' & Hnj' & Hidj').
    assert (target e' = target e) as Htt by congruence.
    rewrite (Huniq e' He' Htt) in Hs'. assert (i' = i) as -> by congruence.
    unfold final_depth. rewrite !dix_fallback.
    rewrite !decide_False by (by intros [? _]). done.
Qed.

End BFS.

(** ** Depths along the edges *)

Section EdgeDepths.

Variable localeCompare : string → string → Z.

Lemma ids_reset (ns : list node) : ids (reset <$> ns) = ids ns.
Proof. unfold ids. rewrite <- list_fmap_compose. done. Qed.

Lemma reset_all (ns : list node) (i : nat) (n : node) :
  (reset <$> ns) !! i = Some n → _depth n = (-1)%Z.
Proof.
  rewrite list_lookup_fmap. destruct (ns !! i); simpl; [|done]. by intros [= <-].
Qed.

Lemma calc_dix (ns : list node) (es : list edge) (i : nat) :
  ns ≠ [] →
  dix (_calcTreeDepths localeCompare ns es) i = final_depth (reset <$> ns) es i.
Proof.
  intros Hne. unfold _calcTreeDepths. destruct ns as [|n0 ns']; [done|].
  set (ns := n0 :: ns').
  pose proof (annotate_after_fallback localeCompare _depth
                (λ _ _, eq_refl) (λ _ _ _, eq_refl) (reset <$> ns) es) as H.
  apply (f_equal (λ l, l !! i)) in H. rewrite !list_lookup_fmap in H.
  unfold final_depth, bfs_end, bfs_init, roots, dix.
  destruct (annotate _ _ _ !! i), (fallback _ !! i); simpl in *; congruence.
Qed.

Lemma calc_node_index (ns : list node) (es : list edge) (a : node) :
  NoDup (ids ns) → a ∈ _calcTreeDepths localeCompare ns es →
  ∃ i, index_map (reset <$> ns) !! id a = Some i ∧
       _depth a = dix (_calcTreeDepths localeCompare ns es) i ∧ ns ≠ [].
Proof.
  intros Hnd [i Hi]%list_elem_of_lookup. exists i.
  assert (ns ≠ []) as Hne.
  { intros ->. unfold _calcTreeDepths in Hi. by rewrite lookup_nil in Hi. }
  split; [|split; [|done]].
  - pose proof (calc_frame localeCompare ns es) as Hf.
    apply (f_equal (λ l, l !! i)) in Hf. rewrite !list_lookup_fmap, Hi in Hf.
    destruct (ns !! i) as [n|] eqn:Hn; [|done]. simpl in Hf.
    assert (reset a = reset n) as Hr by congruence.
    assert (id a = id (reset n)) as -> by exact (f_equal id Hr).
    apply index_map_NoDup; [by rewrite ids_reset|].
    by rewrite list_lookup_fmap, Hn.
  - symmetry. by apply dix_lookup.
Qed.

Lemma edge_ok_lookup (ns : list node) (e : edge) (i j : nat) :
  index_map ns !! source e = Some i → index_map ns !! target e = Some j →
  edge_ok (index_map ns) e = true.
Proof.
  intros Hi Hj. unfold edge_ok. rewrite Hi, Hj.
  rewrite !bool_decide_eq_true_2; [done | by eexists | by eexists].
Qed.

Lemma edge_ok_ids (ns : list node) (e : edge) :
  source e ∈ ids ns → target e ∈ ids ns → edge_ok (index_map ns) e = true.
Proof.
  intros [i Hi]%index_map_is_Some [j Hj]%index_map_is_Some.
  by apply (edge_ok_lookup ns e i j).
Qed.

Lemma calc_edge_depths (ns : list node) (es : list edge) (e : edge) (a b : node) :
  NoDup (ids ns) → e ∈ es →
  a ∈ _calcTreeDepths localeCompare ns es → b ∈ _calcTreeDepths localeCompare ns es →
  id a = source e → id b = target e →
  (_depth b ≤ _depth a + 1)%Z.
Proof.
  intros Hnd He Ha Hb Hs Ht.
  destruct (calc_node_index ns es a Hnd Ha) as (i & Hi & -> & Hne).
  destruct (calc_node_index ns es b Hnd Hb) as (j & Hj & -> & _).
  rewrite !calc_dix by done. rewrite Hs in Hi. rewrite Ht in Hj.
  apply (final_depth_edge (reset <$> ns) es) with (e := e); try done.
  - by rewrite ids_reset.
  - apply reset_all.
  - by apply (edge_ok_lookup _ e i j).
Qed.

Lemma calc_tree_edge_depths (ns : list node) (es : list edge) (e : edge)
  (a b r : node) :
  NoDup (ids ns) → e ∈ es →
  a ∈ _calcTreeDepths localeCompare ns es → b ∈ _calcTreeDepths localeCompare ns es →
  id a = source e → id b = target e →
  (∀ e', e' ∈ es → source e' ∈ ids ns ∧ target e' ∈ ids ns) →
  (∀ e', e' ∈ es → target e' = target e → source e' = source e) →
  r ∈ ns → GraphStoreFacts.no_incoming es (id r) →
  GraphStoreFacts.reachable es (id r) (id b) →
  _depth b = (_depth a + 1)%Z.
Proof.
  intros Hnd He Ha Hb Hs Ht Hvalid Huniq Hr Hno Hreach.
  destruct (calc_node_index ns es a Hnd Ha) as (i & Hi & -> & Hne).
  destruct (calc_node_index ns es b Hnd Hb) as (j & Hj & -> & _).
  rewrite !calc_dix by done. rewrite Hs in Hi. rewrite Ht in Hj, Hreach.
  apply (final_depth_tree_edge (reset <$> ns) es) with (e := e) (nr := reset r);
    try done.
  - by rewrite ids_reset.
  - apply reset_all.
  - intros e' He'. destruct (Hvalid e' He').
    apply edge_ok_ids; by rewrite ids_reset.
  - apply list_elem_of_fmap. by exists r.
  - apply incoming_zero. intros e' He' _. by apply Hno.
Qed.

(** C4, as the code has it: in a graph that went through the repair pass
    (node ids pairwise distinct) and then through the depth pass, the depth
    of the target of an edge is at most the depth of its source plus one;
    it is exactly that when the edge is the only edge into its target and
    the target can be reached from a node without incoming edge.  An edge
    that closes a cycle or gives a node a second parent keeps the depth
    that the breadth-first pass assigned first. *)
Theorem depth_along_repaired_edges (s : GraphStore.t) (ns : list node)
  (es0 : list edge) (e : edge) (a b : node) :
  NoDup (ids ns) →
  let es := GraphStore._edges (GraphStore.loadGraph s (Some ns) (Some es0)).1 in
  let out := _calcTreeDepths localeCompare ns es in
  e ∈ es → a ∈ out → b ∈ out → id a = source e → id b = target e →
  (_depth b ≤ _depth a + 1)%Z ∧
  ((∀ e', e' ∈ es → target e' = target e → source e' = source e) →
   (∃ r, r ∈ ns ∧ GraphStoreFacts.no_incoming es (id r) ∧
         GraphStoreFacts.reachable es (id r) (id b)) →
   _depth b = (_depth a + 1)%Z).
Proof.
  intros Hnd es out He Ha Hb Hs Ht. split.
  - by apply (calc_edge_depths ns es e a b).
  - intros Huniq (r & Hr & Hno & Hreach).
    apply (calc_tree_edge_depths ns es e a b r); try done.
    intros e' He'. unfold es in He'.
    destruct (GraphStoreFacts.loadGraph_repaired s ns es0) as (Heq & _).
    rewrite Heq in He'. by apply GraphStoreFacts.repaired_endpoints_in in He'.
Qed.

End EdgeDepths.

(** ** The strict layout and the empty graph *)

Section Layout.

Variable localeCompare : string → string → Z.
Variable sqrt : Q → Q.
Variable atan2 : Q → Q → Q.
Variables cos sin : Q → Q.
Variable PI : Q.

Lemma reset_x n m : reset n = reset m → x n = x m ∧ y n = y m.
Proof. intros H. split; [exact (f_equal x H) | exact (f_equal y H)]. Qed.

Lemma hasPos_reset n m : reset n = reset m → hasPos n = hasPos m.
Proof.
  intros [Hx Hy]%reset_x. unfold hasPos. by rewrite Hx, Hy.
Qed.

(** C9, the part that holds: with an empty node array the force step, the
    depth pass and the strict layout change nothing; [start()] has no
    guard for it and does enter the running state. *)
Theorem empty_graph_operations (st : engine) (o : opts) :
  nodes st = [] →
  _applyForces sqrt atan2 cos sin PI st = Some st ∧
  _calcTreeDepths localeCompare (nodes st) (edges st) = nodes st ∧
  applyStrictLayout localeCompare o st = st ∧
  (running st = false → (cfg_alphaMin <= alpha st)%Q →
   ∃ st', start sqrt atan2 cos sin PI st = Some st' ∧
          running st' = true ∧ _raf st' = true ∧ nodes st' = []).
Proof.
  intros Hns. destruct st as [ns es al run raf md cb log]. simpl in Hns. subst ns.
  repeat split.
  intros Hrun Hal. simpl in Hrun, Hal. subst run.
  unfold start, _tick. simpl.
  destruct (Qlt_le_dec al cfg_alphaMin) as [Hlt|_].
  { exfalso. by apply (Qlt_not_le _ _ Hlt). }
  simpl. unfold _applyForces. simpl. unfold call_onTick. simpl.
  destruct cb; eexists; repeat split.
Qed.

End Layout.

(** ** The depth-first pass has fuel to spare *)

Section DfsFuel.

Variable localeCompare : string → string → Z.

Definition unvisited_count (l : list node) : nat :=
  length (filter (λ n, _visited n = false) l).

Lemma unvisited_count_le (l : list node) : (unvisited_count l ≤ length l)%nat.
Proof. apply length_filter. Qed.

Lemma unvisited_mark (l : list node) (i : nat) (n : node) (v : Z) :
  l !! i = Some n → _visited n = false →
  S (unvisited_count (alter (set_visit v) i l)) = unvisited_count l.
Proof.
  unfold unvisited_count. revert i. induction l as [|a l IH]; intros [|i]; simpl; try done.
  - intros [= ->] Hn. rewrite !filter_cons. simpl. by rewrite decide_True.
  - intros Hi Hn. rewrite !filter_cons.
    destruct (decide (_visited a = false)); simpl; rewrite <- (IH i); try done.
Qed.

(** A call of [visit] only marks nodes. *)
Lemma visit_count (fuel : nat) nodeMap childrenMap (nodeId : string)
  (st : list node * gmap Z Z) :
  (unvisited_count (visit localeCompare fuel nodeMap childrenMap nodeId st).1
   ≤ unvisited_count st.1)%nat.
Proof.
  revert nodeId st. induction fuel as [|f IH]; intros nodeId st; simpl; [done|].
  destruct (nodeMap !! nodeId) as [i|]; [|done].
  destruct (st.1 !! i) as [node|] eqn:Hi; [|done].
  destruct (_visited node) eqn:Hv; [done|].
  apply (foldl_inv (λ s, unvisited_count s.1 ≤ unvisited_count st.1)%nat).
  - simpl. pose proof (unvisited_mark st.1 i node (default 0%Z (st.2 !! _depth node)) Hi Hv).
    lia.
  - intros s c Hs. destruct (s.1 !! c); [|done]. etrans; [apply IH | done].
Qed.

(** The recursion of [visit] is never cut short: every fuel above the
    number of unvisited nodes gives the same result. *)
Lemma visit_fuel_enough (f f' : nat) nodeMap childrenMap (nodeId : string)
  (st : list node * gmap Z Z) :
  (unvisited_count st.1 < f)%nat → (unvisited_count st.1 < f')%nat →
  visit localeCompare f nodeMap childrenMap nodeId st
    = visit localeCompare f' nodeMap childrenMap nodeId st.
Proof.
  revert f' nodeId st. induction f as [|f IH]; intros f' nodeId st Hf Hf'; [lia|].
  destruct f' as [|f']; [lia|]. simpl.
  destruct (nodeMap !! nodeId) as [i|]; [|done].
  destruct (st.1 !! i) as [nd|] eqn:Hi; [|done].
  destruct (_visited nd) eqn:Hv; [done|].
  pose proof (unvisited_mark st.1 i nd (default 0%Z (st.2 !! _depth nd)) Hi Hv) as Hm.
  assert (∀ (l : list nat) (s : list node * gmap Z Z),
            (unvisited_count s.1 < f)%nat → (unvisited_count s.1 < f')%nat →
            foldl (λ s c, match s.1 !! c with
                          | Some cn => visit localeCompare f nodeMap childrenMap (id cn) s
                          | None => s
                          end) s l
            = foldl (λ s c, match s.1 !! c with
                            | Some cn => visit localeCompare f' nodeMap childrenMap (id cn) s
                            | None => s
                            end) s l) as Hfold.
  { clear -IH. induction l as [|c l IHl]; intros s Hs Hs'; [done|]. cbn [foldl].
    destruct (s.1 !! c) as [cn|]; [|by apply IHl].
    rewrite (IH f' (id cn) s Hs Hs').
    pose proof (visit_count f' nodeMap childrenMap (id cn) s).
    apply IHl; lia. }
  apply Hfold; simpl; lia.
Qed.

Lemma visit_fuel_length (f : nat) nodeMap childrenMap (nodeId : string)
  (st : list node * gmap Z Z) :
  (length st.1 < f)%nat →
  visit localeCompare f nodeMap childrenMap nodeId st
    = visit localeCompare (S (length st.1)) nodeMap childrenMap nodeId st.
Proof.
  intros Hf. pose proof (unvisited_count_le st.1).
  apply visit_fuel_enough; lia.
Qed.

End DfsFuel.

(** ** The walk up the parent chain *)

Section ParentWalk.

Variable ns : list node.
Variable nodeMap : gmap string nat.

(** The position of the parent that the loop of [isHidden] moves to. *)
Definition parent_of (c : node) : option (nat * node) :=
  p ← js_or (parentId c) None;
  i ← nodeMap !! p;
  pn ← ns !! i;
  Some (i, pn).

Lemma isHidden_unfold (fuel : nat) (c : node) :
  isHidden fuel ns nodeMap c =
    match parent_of c with
    | None => Some false
    | Some (_, parent) =>
        if collapsed parent then Some true
        else match fuel with
             | O => None
             | S f => isHidden f ns nodeMap parent
             end
    end.
Proof.
  unfold parent_of. destruct fuel; simpl;
    destruct (js_or (parentId c) None) as [p|]; simpl; try done;
    destruct (nodeMap !! p) as [i|]; simpl; try done;
    destruct (ns !! i); simpl; done.
Qed.

(** [ends c k]: the loop started at [c] moves [k] times and then returns. *)
Inductive ends : node → nat → Prop :=
  | ends_top c : parent_of c = None → ends c 0
  | ends_collapsed c i p : parent_of c = Some (i, p) → collapsed p = true → ends c 0
  | ends_up c i p k : parent_of c = Some (i, p) → collapsed p = false →
      ends p k → ends c (S k).

Lemma ends_fun (c : node) (k k' : nat) : ends c k → ends c k' → k = k'.
Proof.
  intros H. revert k'. induction H as [c Hc|c i p Hc Hp|c i p k Hc Hp Hk IH];
    intros k' H'; inversion H' as [c' Hc'|c' i' p' Hc' Hp'|c' i' p' k'' Hc' Hp' Hk'];
    subst; try congruence.
  assert (p' = p) as -> by congruence. f_equal. by apply IH.
Qed.

Lemma isHidden_ends (fuel : nat) (c : node) (b : bool) :
  isHidden fuel ns nodeMap c = Some b → ∃ k, (k ≤ fuel)%nat ∧ ends c k.
Proof.
  revert c. induction fuel as [|f IH]; intros c; rewrite isHidden_unfold;
    destruct (parent_of c) as [[i p]|] eqn:Hc.
  - destruct (collapsed p) eqn:Hp; [|done]. intros _. exists 0%nat.
    split; [lia | by eapply ends_collapsed].
  - intros _. exists 0%nat. split; [lia | by apply ends_top].
  - destruct (collapsed p) eqn:Hp.
    + intros _. exists 0%nat. split; [lia | by eapply ends_collapsed].
    + intros (k & Hk & He)%IH. exists (S k). split; [lia | by eapply ends_up].
  - intros _. exists 0%nat. split; [lia | by apply ends_top].
Qed.

Lemma ends_isHidden (c : node) (k : nat) :
  ends c k → ∀ fuel, (k ≤ fuel)%nat → is_Some (isHidden fuel ns nodeMap c).
Proof.
  induction 1 as [c Hc|c i p Hc Hp|c i p k Hc Hp Hk IH]; intros fuel Hf;
    rewrite isHidden_unfold, Hc; try rewrite Hp; try by eexists.
  destruct fuel as [|f]; [lia|]. apply IH. lia.
Qed.

(** The walk never comes back to a position, so it is no longer than the
    node array. *)
Lemma ends_positions (c : node) (k : nat) :
  ends c k →
  ∃ l : list nat, length l = k ∧ NoDup l ∧
    ∀ i, i ∈ l → ∃ n k', ns !! i = Some n ∧ (k' < k)%nat ∧ ends n k'.
Proof.
  induction 1 as [c Hc|c i p Hc Hp|c i p k Hc Hp Hk IH].
  - exists []. split; [done|]. split; [apply NoDup_nil_2 | by intros j ?%elem_of_nil].
  - exists []. split; [done|]. split; [apply NoDup_nil_2 | by intros j ?%elem_of_nil].
  - destruct IH as (l & Hlen & Hnd & Hl).
    assert (ns !! i = Some p) as Hi.
    { unfold parent_of in Hc.
      destruct (js_or (parentId c) None) as [q|]; simpl in Hc; [|done].
      destruct (nodeMap !! q) as [j|]; simpl in Hc; [|done].
      destruct (ns !! j) eqn:Hj; simpl in Hc; [|done]. congruence. }
    exists (i :: l). split; [simpl; lia|]. split.
    + constructor; [|done]. intros (n & k' & Hn & Hlt & Hn')%Hl.
      assert (n = p) as -> by congruence.
      pose proof (ends_fun p k k' Hk Hn'). lia.
    + intros j [->|Hj]%elem_of_cons.
      * exists p, k. split; [done|]. split; [lia | done].
      * destruct (Hl j Hj) as (n & k' & Hn & Hlt & Hn').
        exists n, k'. split; [done|]. split; [lia | done].
Qed.

Lemma ends_bound (c : node) (k : nat) : ends c k → (k ≤ length ns)%nat.
Proof.
  intros (l & <- & Hnd & Hl)%ends_positions.
  rewrite <- (length_seq (length ns) 0).
  apply submseteq_length, NoDup_submseteq; [done|].
  intros i (n & _ & Hn & _)%Hl. apply elem_of_seq.
  apply lookup_lt_Some in Hn. lia.
Qed.

(** [length ns] steps are enough for every walk that ends: when [isHidden]
    has no answer with that fuel, it has none with any fuel. *)
Lemma isHidden_fuel_enough (fuel : nat) (c : node) :
  is_Some (isHidden fuel ns nodeMap c) → is_Some (isHidden (length ns) ns nodeMap c).
Proof.
  intros [b (k & _ & Hk)%isHidden_ends].
  apply (ends_isHidden c k Hk). by apply (ends_bound c).
Qed.

End ParentWalk.

(** Two folders that name each other as parent, neither collapsed: the
    walk has no end, whatever the fuel. *)
Example parent_cycle_never_ends :
  let a := mkNode "A" "A" (Some "B") false None None None 0 0 None None 0 0 false 0 0 in
  let b := mkNode "B" "B" (Some "A") false None None None 0 0 None None 0 0 false 0 0 in
  ∀ fuel, isHidden fuel [a; b] (index_map [a; b]) a = None.
Proof.
  intros a b fuel.
  assert (parent_of [a; b] (index_map [a; b]) a = Some (1%nat, b)) as Ha
    by (vm_compute; reflexivity).
  assert (parent_of [a; b] (index_map [a; b]) b = Some (0%nat, a)) as Hb
    by (vm_compute; reflexivity).
  assert (isHidden fuel [a; b] (index_map [a; b]) a = None ∧
          isHidden fuel [a; b] (index_map [a; b]) b = None) as [H _]; [|exact H].
  induction fuel as [|f [IHa IHb]]; rewrite !isHidden_unfold, Ha, Hb; simpl; done.
Qed.

(** ** The force step *)

Section Forces.

Variable sqrt : Q → Q.
Variable atan2 : Q → Q → Q.
Variables cos sin : Q → Q.
Variable PI : Q.

(** *** What the force step leaves alone *)

Section Frame.

Context {B : Type} (g : node → B).
Hypothesis g_vel : ∀ a b n, g (set_vel a b n) = g n.

Lemma g_add_vel a b n : g (add_vel a b n) = g n.
Proof. apply g_vel. Qed.

Lemma for_active_frame (f : node → node) active ns :
  (∀ n, g (f n) = g n) → g <$> for_active f active ns = g <$> ns.
Proof.
  intros Hf. unfold for_active.
  apply (foldl_inv (λ l, g <$> l = g <$> ns)); [done|].
  intros l i Hl. by rewrite fmap_alter_same.
Qed.

Lemma repel_frame al ns p : g <$> repel sqrt al ns p = g <$> ns.
Proof.
  unfold repel. destruct (ns !! p.1); [|done]. destruct (ns !! p.2); [|done].
  rewrite !fmap_alter_same; [done | apply g_add_vel | apply g_add_vel].
Qed.

Lemma grid_push_frame al i ns m : g <$> grid_push sqrt al i ns m = g <$> ns.
Proof.
  unfold grid_push. case_bool_decide; [done|].
  destruct (ns !! i); [|done]. destruct (ns !! m); [|done].
  apply fmap_alter_same, g_add_vel.
Qed.

Lemma grid_node_frame al grid ns i : g <$> grid_node sqrt al grid ns i = g <$> ns.
Proof.
  unfold grid_node. destruct (ns !! i) as [n|]; [|done]. destruct (cell n) as [gx gy].
  apply (foldl_inv (λ l, g <$> l = g <$> ns)); [done|].
  intros l o Hl.
  apply (foldl_inv (λ l, g <$> l = g <$> ns)); [done|].
  intros l' m Hl'. by rewrite grid_push_frame.
Qed.

Lemma repulsion_frame al active ns : g <$> repulsion sqrt al active ns = g <$> ns.
Proof.
  unfold repulsion. case_bool_decide.
  - apply (foldl_inv (λ l, g <$> l = g <$> ns)); [done|].
    intros l p Hl. by rewrite repel_frame.
  - unfold _gridRepulsion.
    apply (foldl_inv (λ l, g <$> l = g <$> ns)); [done|].
    intros l i Hl. by rewrite grid_node_frame.
Qed.

Lemma spring_frame al nodeMap ns e : g <$> spring sqrt al nodeMap ns e = g <$> ns.
Proof.
  unfold spring. destruct (nodeMap !! source e) as [s|]; [|done].
  destruct (nodeMap !! target e) as [t|]; [|done].
  destruct (ns !! s); [|done]. destruct (ns !! t); [|done].
  rewrite !fmap_alter_same; [done | apply g_add_vel | apply g_add_vel].
Qed.

Lemma springs_frame al es active ns : g <$> springs sqrt al es active ns = g <$> ns.
Proof.
  unfold springs.
  apply (foldl_inv (λ l, g <$> l = g <$> ns)); [done|].
  intros l e Hl. by rewrite spring_frame.
Qed.

Lemma centering_frame md al active ns : g <$> centering md al active ns = g <$> ns.
Proof.
  unfold centering. destruct (String.eqb md "free"); [|done].
  apply for_active_frame. intros n. apply g_add_vel.
Qed.

Lemma radial_frame al active ns :
  g <$> _applyRadialGraph sqrt atan2 cos sin PI al active ns = g <$> ns.
Proof.
  unfold _applyRadialGraph. apply for_active_frame. intros n. unfold radial.
  destruct (_depth n =? 0)%Z; [apply g_add_vel|]. by rewrite !g_add_vel.
Qed.

Lemma collide_frame ns p : g <$> collide sqrt ns p = g <$> ns.
Proof.
  unfold collide. destruct (ns !! p.1); [|done]. destruct (ns !! p.2); [|done].
  destruct (Qlt_le_dec _ _); [|done].
  rewrite !fmap_alter_same; [done | apply g_add_vel | apply g_add_vel].
Qed.

Lemma collisions_frame active ns : g <$> collisions sqrt active ns = g <$> ns.
Proof.
  unfold collisions.
  apply (foldl_inv (λ l, g <$> l = g <$> ns)); [done|].
  intros l p Hl. by rewrite collide_frame.
Qed.

(** Steps 1 to 5, before pins are applied and velocities integrated. *)
Definition before_integration (md : string) (al : Q) (es : list edge)
  (active : list nat) (ns : list node) : list node :=
  let ns3 := centering md al active
               (springs sqrt al es active (repulsion sqrt al active ns)) in
  if String.eqb md "strict" then ns3
  else collisions sqrt active
         (if String.eqb md "radial"
          then _applyRadialGraph sqrt atan2 cos sin PI al active ns3 else ns3).

Lemma before_integration_frame md al es active ns :
  g <$> before_integration md al es active ns = g <$> ns.
Proof.
  unfold before_integration. destruct (String.eqb md "strict").
  - by rewrite centering_frame, springs_frame, repulsion_frame.
  - rewrite collisions_frame. destruct (String.eqb md "radial").
    + by rewrite radial_frame, centering_frame, springs_frame, repulsion_frame.
    + by rewrite centering_frame, springs_frame, repulsion_frame.
Qed.

End Frame.

Lemma forces_eq md al es a active ns :
  forces sqrt atan2 cos sin PI md al es (a :: active) ns =
    for_active (if String.eqb md "strict" then strict_snap else integrate) (a :: active)
      (before_integration md al es (a :: active) ns).
Proof.
  unfold forces, before_integration. by destruct (String.eqb md "strict").
Qed.

(** The fields that decide which nodes are active. *)
Definition skel (n : node) : string * option string * bool :=
  (id n, parentId n, collapsed n).

(** Everything but the velocity. *)
Definition still (n : node) : node := set_vel 0 0 n.

Lemma forces_skel md al es active ns :
  skel <$> forces sqrt atan2 cos sin PI md al es active ns = skel <$> ns.
Proof.
  destruct active as [|a active]; [done|]. rewrite forces_eq.
  rewrite (for_active_frame skel).
  - by apply before_integration_frame.
  - intros n. destruct (String.eqb md "strict").
    + unfold strict_snap. by destruct (fx n).
    + unfold integrate. by destruct (fx n).
Qed.

(** *** Active nodes *)

Lemma index_map_skel (ns ns' : list node) : skel <$> ns = skel <$> ns' → index_map ns = index_map ns'.
Proof.
  intros H. unfold index_map. f_equal. f_equal.
  transitivity (imap (λ i (p : string * option string * bool), (p.1.1, i)) (skel <$> ns)).
  - by rewrite imap_fmap.
  - rewrite H. by rewrite imap_fmap.
Qed.

Lemma lookup_skel (ns ns' : list node) (i : nat) :
  skel <$> ns = skel <$> ns' →
  match ns !! i, ns' !! i with
  | Some n, Some n' => skel n = skel n'
  | None, None => True
  | _, _ => False
  end.
Proof.
  intros H. apply (f_equal (λ l, l !! i)) in H. rewrite !list_lookup_fmap in H.
  destruct (ns !! i), (ns' !! i); simpl in H; try done. congruence.
Qed.

Lemma isHidden_skel fuel (ns ns' : list node) nodeMap c c' :
  skel <$> ns = skel <$> ns' → skel c = skel c' →
  isHidden fuel ns nodeMap c = isHidden fuel ns' nodeMap c'.
Proof.
  intros Hns. revert c c'. induction fuel as [|f IH]; intros c c' Hc;
    assert (parentId c = parentId c') as Hp by (by injection Hc);
    simpl; rewrite Hp; destruct (js_or (parentId c') None) as [p|]; try done;
    destruct (nodeMap !! p) as [i|]; simpl; try done;
    pose proof (lookup_skel ns ns' i Hns) as Hi;
    destruct (ns !! i) as [n|], (ns' !! i) as [n'|]; try done;
    assert (collapsed n = collapsed n') as Hcol by (by injection Hi);
    rewrite Hcol; destruct (collapsed n'); try done.
  by apply IH.
Qed.

Lemma active_from_skel ns ns' nodeMap i l l' :
  skel <$> ns = skel <$> ns' → skel <$> l = skel <$> l' →
  active_from ns nodeMap i l = active_from ns' nodeMap i l'.
Proof.
  intros Hns. revert i l'. induction l as [|n l IH]; intros i [|n' l'] Hl; try done.
  simpl. rewrite !fmap_cons in Hl.
  assert (skel n = skel n' ∧ skel <$> l = skel <$> l') as [Hn Hl']
    by (split; congruence).
  clear Hl. rename Hl' into Hl.
  assert (length ns = length ns') as ->.
  { rewrite <- (length_fmap skel ns), Hns. apply length_fmap. }
  rewrite (isHidden_skel _ ns ns' nodeMap n n' Hns Hn).
  by rewrite (IH (S i) l' Hl).
Qed.

Lemma getActiveNodes_skel ns ns' :
  skel <$> ns = skel <$> ns' → _getActiveNodes ns = _getActiveNodes ns'.
Proof.
  intros H. unfold _getActiveNodes. rewrite (index_map_skel _ _ H).
  by apply active_from_skel.
Qed.

Lemma active_from_sorted ns nodeMap i l act :
  active_from ns nodeMap i l = Some act →
  NoDup act ∧ ∀ j, j ∈ act → (i ≤ j)%nat.
Proof.
  revert i act. induction l as [|n l IH]; intros i act; simpl.
  - intros [= <-]. split; [constructor | by intros j ?%elem_of_nil].
  - destruct (isHidden _ _ _ n) as [h|]; [|done]. simpl.
    destruct (active_from ns nodeMap (S i) l) as [act'|] eqn:Hact; [|done]. simpl.
    destruct (IH _ _ Hact) as [Hnd Hge]. intros [= <-]. destruct h.
    + split; [done|]. intros j Hj. specialize (Hge j Hj). lia.
    + split.
      * constructor; [|done]. intros Hi. specialize (Hge i Hi). lia.
      * intros j [->|Hj]%elem_of_cons; [lia|]. specialize (Hge j Hj). lia.
Qed.

Lemma for_active_lookup (f : node → node) active ns i :
  NoDup active →
  for_active f active ns !! i = if decide (i ∈ active) then f <$> ns !! i else ns !! i.
Proof.
  unfold for_active. revert ns. induction active as [|a active IH]; intros ns Hnd.
  - cbn [foldl]. rewrite decide_False; [done | apply not_elem_of_nil].
  - apply NoDup_cons in Hnd as [Ha Hnd]. cbn [foldl]. rewrite IH by done.
    destruct (decide (i = a)) as [->|Hne].
    + rewrite decide_False by done. rewrite decide_True by (by left).
      apply list_lookup_alter_eq.
    + destruct (decide (i ∈ active)) as [Hi|Hi].
      * rewrite decide_True by (by right). by rewrite list_lookup_alter_ne.
      * rewrite decide_False by (by intros [?|?]%elem_of_cons).
        by rewrite list_lookup_alter_ne.
Qed.

(** *** Pins *)

Lemma snap_pinned (md : string) n a b :
  fx n = Some a → fy n = Some b →
  let n' := (if String.eqb md "strict" then strict_snap else integrate) n in
  x n' = Some a ∧ y n' = Some b ∧ vx n' = 0%Q ∧ vy n' = 0%Q.
Proof.
  intros Hx Hy. destruct (String.eqb md "strict"); simpl.
  - unfold strict_snap. rewrite Hx. simpl. by rewrite Hx, Hy.
  - unfold integrate. rewrite Hx. simpl. by rewrite Hx, Hy.
Qed.

(** The force step snaps every active pinned node to its pin. *)
Lemma applyForces_pins (st : engine) (active : list nat) (i : nat) (n : node) (a b : Q) :
  _getActiveNodes (nodes st) = Some active → i ∈ active →
  nodes st !! i = Some n → fx n = Some a → fy n = Some b →
  ∃ st' n', _applyForces sqrt atan2 cos sin PI st = Some st' ∧
            nodes st' !! i = Some n' ∧
            x n' = Some a ∧ y n' = Some b ∧ vx n' = 0%Q ∧ vy n' = 0%Q.
Proof.
  intros Hact Hi Hn Hfx Hfy. unfold _applyForces. rewrite Hact. simpl.
  eexists. unfold with_nodes.
  destruct active as [|a0 active]; [by apply elem_of_nil in Hi|].
  rewrite forces_eq.
  pose proof (before_integration_frame still (λ _ _ _, eq_refl)
                (mode st) (alpha st) (edges st) (a0 :: active) (nodes st)) as Hb.
  apply (f_equal (λ l, l !! i)) in Hb. rewrite !list_lookup_fmap, Hn in Hb.
  destruct (before_integration _ _ _ _ _ !! i) as [m|] eqn:Hm; [|done].
  assert (still m = still n) as Hs by (simpl in Hb; congruence).
  assert (fx m = Some a ∧ fy m = Some b) as [Hmx Hmy].
  { split; [rewrite <- Hfx; exact (f_equal fx Hs) | rewrite <- Hfy; exact (f_equal fy Hs)]. }
  eexists. split; [reflexivity|]. cbn [nodes].
  apply active_from_sorted in Hact as [Hnd _].
  rewrite for_active_lookup, decide_True, Hm by done. simpl.
  split; [reflexivity|]. by apply snap_pinned.
Qed.

(** C7, as the code has it: in a tick that applies forces (the engine is
    running and the energy has not fallen below the minimum), every active
    node with a pin ends the tick on its pin with zero velocity, in every
    mode.  Nodes hidden below a collapsed ancestor are not touched, and the
    final tick applies no forces. *)
Theorem tick_snaps_active_pins (st : engine) (active : list nat) (i : nat)
  (n : node) (a b : Q) :
  running st = true →
  (cfg_alphaMin <= alpha st)%Q →
  _getActiveNodes (nodes st) = Some active →
  i ∈ active →
  nodes st !! i = Some n →
  fx n = Some a → fy n = Some b →
  ∃ st' n', _tick sqrt atan2 cos sin PI st = Some st' ∧
            nodes st' !! i = Some n' ∧
            x n' = Some a ∧ y n' = Some b ∧ vx n' = 0%Q ∧ vy n' = 0%Q.
Proof.
  intros Hrun Hal Hact Hi Hn Hfx Hfy.
  destruct (applyForces_pins st active i n a b Hact Hi Hn Hfx Hfy)
    as (st1 & n' & Hst1 & Hn' & Hres).
  unfold _tick. rewrite Hrun. simpl.
  destruct (Qlt_le_dec (alpha st) cfg_alphaMin) as [Hlt|_].
  { exfalso. by apply (Qlt_not_le _ _ Hlt). }
  rewrite Hst1. simpl. eexists. exists n'. split; [reflexivity|].
  split; [|exact Hres]. unfold call_onTick. simpl. by destruct (onTick st1).
Qed.

(** *** Energy *)

Definition tick_inv (st : engine) : Prop :=
  (0 < alpha st)%Q ∧ (running st = true → _raf st = true) ∧
  is_Some (_getActiveNodes (nodes st)).

Lemma applyForces_total (st : engine) :
  is_Some (_getActiveNodes (nodes st)) →
  ∃ st1, _applyForces sqrt atan2 cos sin PI st = Some st1 ∧
         edges st1 = edges st ∧ alpha st1 = alpha st ∧ running st1 = running st ∧
         _raf st1 = _raf st ∧ mode st1 = mode st ∧ onTick st1 = onTick st ∧
         ticklog st1 = ticklog st ∧
         _getActiveNodes (nodes st1) = _getActiveNodes (nodes st).
Proof.
  intros [active Hact]. unfold _applyForces. rewrite Hact. simpl.
  eexists. split; [reflexivity|]. unfold with_nodes. simpl. repeat split.
  rewrite <- Hact. apply getActiveNodes_skel, forces_skel.
Qed.

(** A frame in which forces are applied. *)
Lemma frame_decays (st : engine) :
  running st = true → _raf st = true → (cfg_alphaMin <= alpha st)%Q →
  is_Some (_getActiveNodes (nodes st)) →
  ∃ st', frame sqrt atan2 cos sin PI st = Some st' ∧
         running st' = true ∧ _raf st' = true ∧
         alpha st' = (alpha st * (1 - cfg_alphaDecay))%Q ∧
         onTick st' = onTick st ∧
         _getActiveNodes (nodes st') = _getActiveNodes (nodes st).
Proof.
  intros Hrun Hraf Hal Hact. unfold frame, _tick. rewrite Hraf. cbn [running alpha].
  rewrite Hrun. simpl.
  destruct (Qlt_le_dec (alpha st) cfg_alphaMin) as [Hlt|_].
  { exfalso. by apply (Qlt_not_le _ _ Hlt). }
  destruct (applyForces_total
              (mkEngine (nodes st) (edges st) (alpha st) true false (mode st)
                 (onTick st) (ticklog st)) Hact)
    as (st1 & -> & He & Ha & Hr & Hf & Hm & Ho & Hl & Hg).
  simpl in *. eexists. split; [reflexivity|].
  unfold call_onTick. simpl. rewrite Ho, Ha, Hr.
  destruct (onTick st); simpl; repeat split; done.
Qed.

(** The frame in which the engine comes to rest. *)
Lemma frame_rests (st : engine) :
  running st = true → _raf st = true → (alpha st < cfg_alphaMin)%Q →
  ∃ st', frame sqrt atan2 cos sin PI st = Some st' ∧
         running st' = false ∧ _raf st' = false ∧ alpha st' = alpha st ∧
         nodes st' = nodes st ∧
         (onTick st = true → ticklog st' = true :: ticklog st).
Proof.
  intros Hrun Hraf Hal. unfold frame, _tick. rewrite Hraf. cbn [running alpha].
  rewrite Hrun. simpl.
  destruct (Qlt_le_dec (alpha st) cfg_alphaMin) as [_|Hle].
  2:{ exfalso. by apply (Qlt_not_le _ _ Hal). }
  eexists. split; [reflexivity|]. unfold call_onTick. simpl.
  destruct (onTick st); simpl; repeat split; done.
Qed.

Lemma frame_idle (st : engine) :
  _raf st = false → frame sqrt atan2 cos sin PI st = Some st.
Proof. intros Hraf. unfold frame. by rewrite Hraf. Qed.

Lemma decay_smaller (al : Q) :
  (0 < al)%Q → (0 < al * (1 - cfg_alphaDecay) ∧ al * (1 - cfg_alphaDecay) < al)%Q.
Proof. unfold cfg_alphaDecay. intros H. split; lra. Qed.

(** Every frame keeps the invariant, never raises the energy, and lowers
    it by the decay factor when forces are applied. *)
Lemma frame_step (st st' : engine) :
  tick_inv st → frame sqrt atan2 cos sin PI st = Some st' →
  tick_inv st' ∧ (alpha st' <= alpha st)%Q ∧
  (running st = true → (cfg_alphaMin <= alpha st)%Q →
   alpha st' = (alpha st * (1 - cfg_alphaDecay))%Q ∧ (alpha st' < alpha st)%Q ∧
   running st' = true).
Proof.
  intros (Hpos & Hraf & Hact) Hframe.
  destruct (running st) eqn:Hrun.
  - specialize (Hraf eq_refl).
    destruct (Qlt_le_dec (alpha st) cfg_alphaMin) as [Hlt|Hle].
    + destruct (frame_rests st Hrun Hraf Hlt) as (st1 & Hst1 & Hr & Hf & Ha & Hn & _).
      rewrite Hst1 in Hframe. injection Hframe as <-.
      split; [|split].
      * split; [by rewrite Ha|]. split; [by rewrite Hr | by rewrite Hn].
      * rewrite Ha. apply Qle_refl.
      * intros _ Hle. exfalso. by apply (Qlt_not_le _ _ Hlt).
    + destruct (frame_decays st Hrun Hraf Hle Hact) as (st1 & Hst1 & Hr & Hf & Ha & _ & Hg).
      rewrite Hst1 in Hframe. injection Hframe as <-.
      destruct (decay_smaller (alpha st) Hpos) as [Hpos' Hlt].
      split; [|split].
      * split; [by rewrite Ha|]. split; [done | by rewrite Hg].
      * rewrite Ha. by apply Qlt_le_weak.
      * intros _ _. rewrite Ha. done.
  - unfold frame in Hframe. destruct (_raf st) eqn:Hf.
    + unfold _tick in Hframe. simpl in Hframe. rewrite Hrun in Hframe. simpl in Hframe.
      injection Hframe as <-. unfold call_onTick. simpl.
      split; [|split; [|done]].
      * destruct (onTick st); simpl; repeat split; done.
      * destruct (onTick st); simpl; apply Qle_refl.
    + injection Hframe as <-. split; [|split; [apply Qle_refl | done]].
      repeat split; try done. by rewrite Hrun.
Qed.

Lemma frames_inv (k : nat) (st st' : engine) :
  tick_inv st → frames sqrt atan2 cos sin PI k st = Some st' → tick_inv st'.
Proof.
  revert st. induction k as [|k IH]; intros st Hinv; simpl.
  - by intros [= <-].
  - destruct (frame sqrt atan2 cos sin PI st) as [st1|] eqn:Hst1; [|done]. simpl.
    apply IH. by destruct (frame_step st st1 Hinv Hst1).
Qed.

Fixpoint decay_pow (k : nat) : Q :=
  match k with
  | O => 1
  | S k' => (1 - cfg_alphaDecay) * decay_pow k'
  end.

(** Once [alpha * (1 - alphaDecay)^k] is below the minimum, at most [k + 1]
    frames bring the engine to rest. *)
Lemma rest_within (k : nat) (st : engine) :
  running st = true → _raf st = true →
  is_Some (_getActiveNodes (nodes st)) →
  (alpha st * decay_pow k < cfg_alphaMin)%Q →
  ∃ j st', (j ≤ S k)%nat ∧ frames sqrt atan2 cos sin PI j st = Some st' ∧
           running st' = false ∧ _raf st' = false ∧
           (alpha st' < cfg_alphaMin)%Q ∧
           (onTick st = true → ∃ log, ticklog st' = true :: log).
Proof.
  revert st. induction k as [|k IH]; intros st Hrun Hraf Hact Hpow.
  - assert (alpha st < cfg_alphaMin)%Q as Hlt.
    { simpl in Hpow. by rewrite Qmult_1_r in Hpow. }
    destruct (frame_rests st Hrun Hraf Hlt) as (st1 & Hst1 & Hr & Hf & Ha & _ & Hlog).
    exists 1%nat, st1. split; [lia|]. simpl. rewrite Hst1. simpl.
    repeat split; try done; [by rewrite Ha|].
    intros Ho. eexists. by apply Hlog.
  - destruct (Qlt_le_dec (alpha st) cfg_alphaMin) as [Hlt|Hle].
    + destruct (frame_rests st Hrun Hraf Hlt) as (st1 & Hst1 & Hr & Hf & Ha & _ & Hlog).
      exists 1%nat, st1. split; [lia|]. simpl. rewrite Hst1. simpl.
      repeat split; try done; [by rewrite Ha|].
      intros Ho. eexists. by apply Hlog.
    + destruct (frame_decays st Hrun Hraf Hle Hact)
        as (st1 & Hst1 & Hr & Hf & Ha & Ho & Hg).
      destruct (IH st1 Hr Hf) as (j & st' & Hj & Hfr & Hres).
      * by rewrite Hg.
      * rewrite Ha. simpl in Hpow. by rewrite <- Qmult_assoc.
      * exists (S j), st'. split; [lia|]. simpl. rewrite Hst1. simpl.
        split; [done|]. by rewrite <- Ho.
Qed.

Lemma decay_pow_292 : (decay_pow 292 < cfg_alphaMin)%Q.
Proof. unfold Qlt. vm_compute. reflexivity. Qed.

Lemma decay_pow_pos (k : nat) : (0 < decay_pow k)%Q.
Proof.
  induction k as [|k IH]; simpl; [reflexivity|].
  apply Qmult_lt_0_compat; [|done]. unfold cfg_alphaDecay. reflexivity.
Qed.

(** C6, as the code has it (numbers as exact rationals): when the walk up
    the parent chain of every node ends, then from a running engine with a
    pending frame and an energy in (0, 1], every frame that applies forces
    multiplies the energy by [1 - 0.018], which lowers it strictly, no frame
    raises it, and after at most 293 frames, whatever the energy and the
    graph, the energy is below 0.005, the engine is idle with no frame
    pending, and the installed callback has received its final call. *)
Theorem reheat_arrives_at_rest (st : engine) :
  running st = true → _raf st = true →
  (0 < alpha st)%Q → (alpha st <= 1)%Q →
  is_Some (_getActiveNodes (nodes st)) →
  (∀ k st_k st', frames sqrt atan2 cos sin PI k st = Some st_k →
     frame sqrt atan2 cos sin PI st_k = Some st' →
     (alpha st' <= alpha st_k)%Q ∧
     (running st_k = true → (cfg_alphaMin <= alpha st_k)%Q →
      alpha st' = (alpha st_k * (1 - cfg_alphaDecay))%Q ∧
      (alpha st' < alpha st_k)%Q ∧ running st' = true)) ∧
  ∃ j st_end, (j ≤ 293)%nat ∧
     frames sqrt atan2 cos sin PI j st = Some st_end ∧
     running st_end = false ∧ _raf st_end = false ∧
     (alpha st_end < cfg_alphaMin)%Q ∧
     (onTick st = true → ∃ log, ticklog st_end = true :: log).
Proof.
  intros Hrun Hraf Hpos Hle Hact. split.
  - intros k st_k st' Hk Hframe.
    assert (tick_inv st_k) as Hinv.
    { apply (frames_inv k st); [|done]. repeat split; done. }
    by destruct (frame_step st_k st' Hinv Hframe) as (_ & ? & ?).
  - apply (rest_within 292 st Hrun Hraf Hact).
    apply Qle_lt_trans with (1 * decay_pow 292)%Q.
    + apply Qmult_le_compat_r; [done|]. apply Qlt_le_weak, decay_pow_pos.
    + rewrite Qmult_1_l. apply decay_pow_292.
Qed.

End Forces.

Definition some_order (a b : string) : Z :=
  match String.compare a b with Lt => -1 | Eq => 0 | Gt => 1 end%Z.

Definition placed_node : node :=
  mkNode "root" "root" None false None (Some 40%Q) (Some (-25)%Q) 0 0 None None 0 0 false 0 0.

Definition new_node : node :=
  mkNode "A" "A" (Some "root") false None None None 0 0 None None 0 0 false 0 0.

Definition settled_engine : engine :=
  mkEngine [placed_node; new_node] [mkEdge "root-A" "root" "A"] 0 false false "strict"
    false [].

Definition no_math (q : Q) : Q := q.

Definition pinned_node : node :=
  mkNode "A" "A" (Some "root") false None (Some 0%Q) (Some 0%Q) 3 4
    (Some 5%Q) (Some 7%Q) 1 0 false 1 1.

Definition open_folder : node :=
  mkNode "root" "root" None false None (Some 10%Q) (Some 10%Q) 0 0 None None 0 0 false 1 1.

Definition closed_folder : node :=
  mkNode "root" "root" None true None (Some 10%Q) (Some 10%Q) 0 0 None None 0 0 false 1 1.

Definition running_engine (folder : node) (md : string) : engine :=
  mkEngine [folder; pinned_node] [mkEdge "root-A" "root" "A"] 0.6 true true md true [].

Lemma tick_snaps_active_pins_witness :
  ∃ st' n', _tick no_math (λ a _, a) no_math no_math 3
              (running_engine open_folder "radial") = Some st' ∧
            nodes st' !! 1%nat = Some n' ∧
            x n' = Some 5%Q ∧ y n' = Some 7%Q ∧ vx n' = 0%Q ∧ vy n' = 0%Q.
Proof.
  apply (tick_snaps_active_pins no_math (λ a _, a) no_math no_math 3
           (running_engine open_folder "radial") [0; 1]%nat 1%nat pinned_node 5 7).
  - reflexivity.
  - vm_compute. discriminate.
  - vm_compute. reflexivity.
  - set_solver.
  - reflexivity.
  - reflexivity.
  - reflexivity.
Defined.

(** C7, counterexample: a pinned node below a collapsed folder.  The tick
    runs (the engine is running with energy 0.6) and leaves the node at
    (0, 0) with its velocity, although its pin is (5, 7). *)
Lemma tick_ignores_hidden_pin :
  ¬ (∀ st' i n a b,
       _tick no_math (λ a _, a) no_math no_math 3
         (running_engine closed_folder "free") = Some st' →
       nodes (running_engine closed_folder "free") !! i = Some n →
       fx n = Some a → fy n = Some b →
       ∃ n', nodes st' !! i = Some n' ∧
             x n' = Some a ∧ y n' = Some b ∧ vx n' = 0%Q ∧ vy n' = 0%Q).
Proof.
  intros H.
  destruct (_tick no_math (λ a _, a) no_math no_math 3
              (running_engine closed_folder "free")) as [st'|] eqn:Ht;
    [|vm_compute in Ht; discriminate].
  destruct (H st' 1%nat pinned_node 5%Q 7%Q eq_refl eq_refl eq_refl eq_refl)
    as (n' & Hn' & Hx & _).
  vm_compute in Ht. injection Ht as <-.
  simpl in Hn'. injection Hn' as <-. discriminate Hx.
Qed.

Lemma reheat_arrives_at_rest_witness :
  let st := running_engine open_folder "free" in
  (∀ k st_k st', frames no_math (λ a _, a) no_math no_math 3 k st = Some st_k →
     frame no_math (λ a _, a) no_math no_math 3 st_k = Some st' →
     (alpha st' <= alpha st_k)%Q ∧
     (running st_k = true → (cfg_alphaMin <= alpha st_k)%Q →
      alpha st' = (alpha st_k * (1 - cfg_alphaDecay))%Q ∧
      (alpha st' < alpha st_k)%Q ∧ running st' = true)) ∧
  ∃ j st_end, (j ≤ 293)%nat ∧
     frames no_math (λ a _, a) no_math no_math 3 j st = Some st_end ∧
     running st_end = false ∧ _raf st_end = false ∧
     (alpha st_end < cfg_alphaMin)%Q ∧
     (onTick st = true → ∃ log, ticklog st_end = true :: log).
Proof.
  apply (reheat_arrives_at_rest no_math (λ a _, a) no_math no_math 3
           (running_engine open_folder "free")).
  - reflexivity.
  - reflexivity.
  - vm_compute. reflexivity.
  - vm_compute. discriminate.
  - exists [0; 1]%nat. vm_compute. reflexivity.
Defined.

(** C6, counterexample: two open folders that name each other as parent, in
    a running engine with energy 0.6.  The walk of [_getActiveNodes] up the
    parent chain has no end, so the first tick never returns and the engine
    never comes to rest. *)
Definition cycle_engine : engine :=
  mkEngine
    [ mkNode "A" "A" (Some "B") false None (Some 0%Q) (Some 0%Q) 0 0 None None 0 0 false 1 0;
      mkNode "B" "B" (Some "A") false None (Some 80%Q) (Some 0%Q) 0 0 None None 0 0 false 1 0 ]
    [] 0.6 true true "free" true [].

Lemma tick_hangs_on_parent_cycle :
  ¬ (∀ st, running st = true → _raf st = true →
       (0 < alpha st)%Q → (alpha st <= 1)%Q →
       ∃ j st_end, frames no_math (λ a _, a) no_math no_math 3 j st = Some st_end ∧
                   running st_end = false).
Proof.
  intros H.
  destruct (H cycle_engine) as (j & st_end & Hj & Hidle); try reflexivity.
  { unfold cycle_engine. simpl. lra. }
  assert (frame no_math (λ a _, a) no_math no_math 3 cycle_engine = None) as Hframe
    by (vm_compute; reflexivity).
  destruct j as [|j]; simpl in Hj.
  - injection Hj as <-. discriminate Hidle.
  - rewrite Hframe in Hj. discriminate Hj.
Qed.

Definition cycle_nodes : list node :=
  [ mkNode "R" "R" None false None None None 0 0 None None 0 0 false 0 0;
    mkNode "A" "A" (Some "R") false None None None 0 0 None None 0 0 false 0 0;
    mkNode "B" "B" (Some "A") false None None None 0 0 None None 0 0 false 0 0 ].

Definition cycle_edges : list edge :=
  [ mkEdge "R-A" "R" "A"; mkEdge "A-B" "A" "B"; mkEdge "B-A" "B" "A" ].

Definition cycle_repaired : list edge :=
  GraphStore._edges
    (GraphStore.loadGraph GraphStore.new (Some cycle_nodes) (Some cycle_edges)).1.

(** C4, counterexample: a root "R" with an edge into the cycle A -> B -> A.
    The repair pass keeps the three edges; the depth pass gives R, A, B the
    depths 0, 1, 2, and the edge B -> A goes from depth 2 to depth 1. *)
Lemma depth_not_monotone_on_cycle :
  ¬ (∀ e a b,
       e ∈ cycle_repaired →
       a ∈ _calcTreeDepths some_order cycle_nodes cycle_repaired →
       b ∈ _calcTreeDepths some_order cycle_nodes cycle_repaired →
       id a = source e → id b = target e →
       _depth b = (_depth a + 1)%Z).
Proof.
  intros H.
  assert (cycle_repaired = cycle_edges) as Hes by (vm_compute; reflexivity).
  assert (_calcTreeDepths some_order cycle_nodes cycle_repaired =
          [ mkNode "R" "R" None false None None None 0 0 None None 0 0 true 1 2;
            mkNode "A" "A" (Some "R") false None None None 0 0 None None 1 0 true 1 2;
            mkNode "B" "B" (Some "A") false None None None 0 0 None None 2 0 true 1 2 ])
    as Hout by (vm_compute; reflexivity).
  rewrite Hout, Hes in H.
  specialize (H (mkEdge "B-A" "B" "A")
                (mkNode "B" "B" (Some "A") false None None None 0 0 None None 2 0 true 1 2)
                (mkNode "A" "A" (Some "R") false None None None 0 0 None None 1 0 true 1 2)).
  assert (1 = 2 + 1)%Z as Hbad; [|discriminate Hbad].
  apply H; [unfold cycle_edges; pick_elem | pick_elem | pick_elem | done | done].
Qed.

Lemma depth_along_repaired_edges_witness :
  let es := cycle_repaired in
  let out := _calcTreeDepths some_order cycle_nodes es in
  let e := mkEdge "R-A" "R" "A" in
  let a := mkNode "R" "R" None false None None None 0 0 None None 0 0 true 1 2 in
  let b := mkNode "A" "A" (Some "R") false None None None 0 0 None None 1 0 true 1 2 in
  (_depth b ≤ _depth a + 1)%Z ∧
  ((∀ e', e' ∈ es → target e' = target e → source e' = source e) →
   (∃ r, r ∈ cycle_nodes ∧ GraphStoreFacts.no_incoming es (id r) ∧
         GraphStoreFacts.reachable es (id r) (id b)) →
   _depth b = (_depth a + 1)%Z).
Proof.
  intros es out e a b.
  assert (es = cycle_edges) as Hes by (vm_compute; reflexivity).
  assert (out = [ a; b;
            mkNode "B" "B" (Some "A") false None None None 0 0 None None 2 0 true 1 2 ])
    as Hout by (vm_compute; reflexivity).
  apply (depth_along_repaired_edges some_order GraphStore.new cycle_nodes cycle_edges
           e a b).
  - unfold ids, cycle_nodes. simpl. apply (bool_decide_unpack _). vm_compute. exact I.
  - fold cycle_repaired. fold es. rewrite Hes. unfold cycle_edges, e. pick_elem.
  - fold cycle_repaired. fold es. fold out. rewrite Hout. pick_elem.
  - fold cycle_repaired. fold es. fold out. rewrite Hout. pick_elem.
  - reflexivity.
  - reflexivity.
Defined.

Definition empty_engine : engine := mkEngine [] [] 1 false false "free" false [].

(** C9, counterexample: [start()] on an engine without nodes returns with
    [running] set. *)
Lemma start_runs_on_empty_graph :
  ¬ (∀ st', start no_math (λ a _, a) no_math no_math 3 empty_engine = Some st' →
            running st' = false).
Proof.
  intros H.
  specialize (H (mkEngine [] [] (1 * (1 - cfg_alphaDecay)) true true "free" false [])).
  discriminate H. reflexivity.
Qed.

Lemma empty_graph_operations_witness :
  _applyForces no_math (λ a _, a) no_math no_math 3 empty_engine = Some empty_engine ∧
  _calcTreeDepths some_order (nodes empty_engine) (edges empty_engine)
    = nodes empty_engine ∧
  applyStrictLayout some_order no_opts empty_engine = empty_engine ∧
  (running empty_engine = false → (cfg_alphaMin <= alpha empty_engine)%Q →
   ∃ st', start no_math (λ a _, a) no_math no_math 3 empty_engine = Some st' ∧
          running st' = true ∧ _raf st' = true ∧ nodes st' = []).
Proof.
  apply (empty_graph_operations some_order no_math (λ a _, a) no_math no_math 3
           empty_engine no_opts).
  reflexivity.
Defined.

(** * Further properties of the layout engine *)

(** ** What the depth pass writes *)

Section Annotations.

Variable localeCompare : string → string → Z.

(** X5: the depth pass writes the five annotation fields and nothing else: the
    node array keeps its length and its order, and every node keeps its
    identity, its place in the hierarchy, its position, its velocity and its
    pin. *)
Theorem calcTreeDepths_keeps_nodes (ns : list node) (es : list edge) :
  length (_calcTreeDepths localeCompare ns es) = length ns ∧
  ∀ i n, ns !! i = Some n →
    ∃ m, _calcTreeDepths localeCompare ns es !! i = Some m ∧
         id m = id n ∧ name m = name n ∧ parentId m = parentId n ∧
         collapsed m = collapsed n ∧ _radius m = _radius n ∧
         x m = x n ∧ y m = y n ∧ vx m = vx n ∧ vy m = vy n ∧
         fx m = fx n ∧ fy m = fy n.
Proof.
  split; [apply calc_length|]. intros i n Hn.
  destruct (calc_lookup localeCompare ns es i n Hn) as (m & Hm & Hr).
  exists m. split; [done|].
  repeat split;
    [ exact (f_equal id Hr) | exact (f_equal name Hr) | exact (f_equal parentId Hr)
    | exact (f_equal collapsed Hr) | exact (f_equal _radius Hr)
    | exact (f_equal x Hr) | exact (f_equal y Hr) | exact (f_equal vx Hr)
    | exact (f_equal vy Hr) | exact (f_equal fx Hr) | exact (f_equal fy Hr) ].
Qed.

(** *** The pass, phase by phase *)

(** The node array when STEP 4 is over. *)
Definition after_bfs (ns : list node) (es : list edge) : list node :=
  fallback (bnodes (bfs_loop (S (length ns)) (index_map ns) (adjacency ns es).1
     (foldl bfs_root {| bnodes := ns; bfsVisited := ∅; queue := [] |}
        (find_roots (adjacency ns es).2 ns)))).

(** The node array and the map [levels] when STEP 5 is over. *)
Definition after_dfs (ns : list node) (es : list edge) : list node * gmap Z Z :=
  foldl (sweep localeCompare (S (length ns)) (index_map ns) (adjacency ns es).1)
    (foldl (visit_node localeCompare (S (length ns)) (index_map ns) (adjacency ns es).1)
       (after_bfs ns es, ∅)
       (sort_by_name localeCompare (after_bfs ns es) (find_roots (adjacency ns es).2 ns)))
    (seq 0 (length ns)).

Lemma annotate_eq (ns : list node) (es : list edge) :
  annotate localeCompare ns es
    = assign_counts (max_depth (after_bfs ns es)) (after_dfs ns es).1.
Proof. unfold annotate, after_dfs, after_bfs. by destruct (adjacency ns es). Qed.

(** *** Depths are never below [-1], and not below [0] after the fallback *)

Definition lower (l : list node) : Prop := Forall (λ n, (-1 ≤ _depth n)%Z) l.

Lemma lower_alter (d : Z) (c : nat) (l : list node) :
  (-1 ≤ d)%Z → lower l → lower (alter (set_depth d) c l).
Proof.
  intros Hd Hl. unfold lower. apply Forall_alter; [done|]. by intros n _.
Qed.

Lemma bfs_root_lower st r : lower (bnodes st) → lower (bnodes (bfs_root st r)).
Proof.
  intros Hl. unfold bfs_root. destruct (bnodes st !! r); [|done]. simpl.
  by apply lower_alter.
Qed.

Lemma bfs_child_lower nodeMap curr st c :
  lower (bnodes st) → lower (bnodes (bfs_child nodeMap curr st c)).
Proof.
  intros Hl. unfold bfs_child. case_bool_decide; [done|].
  destruct (nodeMap !! c); [|done]. destruct (bnodes st !! curr) as [cn|] eqn:Hc; [|done].
  simpl. apply lower_alter; [|done].
  unfold lower in Hl. rewrite Forall_forall in Hl.
  specialize (Hl cn (list_elem_of_lookup_2 _ _ _ Hc)). lia.
Qed.

Lemma bfs_step_lower nodeMap childrenMap curr rest st :
  lower (bnodes st) → lower (bnodes (bfs_step nodeMap childrenMap curr rest st)).
Proof.
  intros Hl. unfold bfs_step. destruct (bnodes st !! curr); [|done].
  apply (foldl_inv (λ s, lower (bnodes s))); [done|].
  intros s c Hs. by apply bfs_child_lower.
Qed.

Lemma bfs_loop_lower fuel nodeMap childrenMap st :
  lower (bnodes st) → lower (bnodes (bfs_loop fuel nodeMap childrenMap st)).
Proof.
  revert st. induction fuel as [|f IH]; intros st Hl; simpl; [done|].
  destruct (queue st); [done|]. by apply IH, bfs_step_lower.
Qed.

Lemma max_depth_nonneg (l : list node) : (0 ≤ max_depth l)%Z.
Proof. by destruct (max_depth_from 0 l) as [H _]. Qed.

Lemma fallback_nonneg (l : list node) :
  lower l → Forall (λ n, (0 ≤ _depth n)%Z) (fallback l).
Proof.
  intros Hl. unfold fallback. apply Forall_fmap. unfold lower in Hl.
  eapply Forall_impl; [exact Hl|]. intros n Hn. simpl.
  pose proof (max_depth_nonneg l). simpl in Hn.
  destruct (Z.eqb_spec (_depth n) (-1)); simpl; lia.
Qed.

Lemma after_bfs_nonneg (ns : list node) (es : list edge) :
  lower ns → Forall (λ n, (0 ≤ _depth n)%Z) (after_bfs ns es).
Proof.
  intros Hl. apply fallback_nonneg, bfs_loop_lower.
  apply (foldl_inv (λ s, lower (bnodes s))); [done|].
  intros s r Hs. by apply bfs_root_lower.
Qed.

Lemma max_depth_attained_from (m0 : Z) (l : list node) :
  let m := foldl (λ m n, if (m <? _depth n)%Z then _depth n else m) m0 l in
  m = m0 ∨ ∃ n, n ∈ l ∧ _depth n = m.
Proof.
  revert m0. induction l as [|a l IH]; intros m0; cbn [foldl]; cbv zeta; [by left|].
  destruct (IH (if (m0 <? _depth a)%Z then _depth a else m0)) as [H|(n & Hn & H)].
  - cbv zeta in H. rewrite H. destruct (Z.ltb_spec m0 (_depth a)); [|by left].
    right. exists a. split; [by left | done].
  - right. exists n. split; [by right | done].
Qed.

Lemma max_depth_attained (l : list node) :
  l ≠ [] → Forall (λ n, (0 ≤ _depth n)%Z) l → ∃ n, n ∈ l ∧ _depth n = max_depth l.
Proof.
  intros Hne Hl. destruct (max_depth_attained_from 0 l) as [H|H]; [|done].
  fold (max_depth l) in H. destruct l as [|a l]; [done|]. exists a.
  split; [by left|]. rewrite H.
  destruct (max_depth_from 0 (a :: l)) as [_ Hle]. fold (max_depth (a :: l)) in Hle.
  specialize (Hle a (list_elem_of_here _ _)). apply Forall_inv in Hl. lia.
Qed.

(** *** The depth-first pass, one marked node at a time *)

(** The writes of a call of [visit] that goes on: the node at position [i]
    takes the next index of its level. *)
Definition mark (i : nat) (nd : node) (s : list node * gmap Z Z) : list node * gmap Z Z :=
  (alter (set_visit (default 0%Z (s.2 !! _depth nd))) i s.1,
   <[_depth nd := (default 0%Z (s.2 !! _depth nd) + 1)%Z]> s.2).

(** Whatever every marking keeps, the depth-first pass keeps. *)
Lemma visit_inv (P : list node * gmap Z Z → Prop) :
  (∀ s i nd, P s → s.1 !! i = Some nd → _visited nd = false → P (mark i nd s)) →
  ∀ fuel nodeMap childrenMap nodeId s,
    P s → P (visit localeCompare fuel nodeMap childrenMap nodeId s).
Proof.
  intros Hmark fuel nodeMap childrenMap.
  induction fuel as [|f IH]; intros nodeId s Hs; simpl; [done|].
  destruct (nodeMap !! nodeId) as [i|]; [|done].
  destruct (s.1 !! i) as [nd|] eqn:Hi; [|done].
  destruct (_visited nd) eqn:Hv; [done|].
  apply foldl_inv.
  - by apply (Hmark s i nd).
  - intros s' c Hs'. destruct (s'.1 !! c); [|done]. by apply IH.
Qed.

Lemma after_dfs_inv (P : list node * gmap Z Z → Prop) (ns : list node) (es : list edge) :
  (∀ s i nd, P s → s.1 !! i = Some nd → _visited nd = false → P (mark i nd s)) →
  P (after_bfs ns es, ∅) → P (after_dfs ns es).
Proof.
  intros Hmark H0. unfold after_dfs.
  apply foldl_inv.
  - apply foldl_inv; [done|]. intros s c Hs. unfold visit_node.
    destruct (s.1 !! c); [|done]. by apply visit_inv.
  - intros s c Hs. unfold sweep. destruct (unvisited s.1 c); [|done].
    unfold visit_node. destruct (s.1 !! c); [|done]. by apply visit_inv.
Qed.

(** The level counters. *)
Definition level (s : list node * gmap Z Z) (d : Z) : Z := default 0%Z (s.2 !! d).

Definition marked_at (l : list node) (d : Z) : list node :=
  filter (λ n, _visited n = true ∧ _depth n = d) l.

(** The counter of a level is the number of marked nodes of that level;
    their indices are pairwise distinct, they lie below the counter, and the
    last one given out is held by a node. *)
Record slots (s : list node * gmap Z Z) : Prop := {
  slots_count : ∀ d, level s d = Z.of_nat (length (marked_at s.1 d));
  slots_range : ∀ i n, s.1 !! i = Some n → _visited n = true →
    (0 ≤ _vIndex n < level s (_depth n))%Z;
  slots_inj : ∀ i j a b, s.1 !! i = Some a → s.1 !! j = Some b →
    _visited a = true → _visited b = true →
    _depth a = _depth b → _vIndex a = _vIndex b → i = j;
  slots_top : ∀ d, (0 < level s d)%Z →
    ∃ i n, s.1 !! i = Some n ∧ _visited n = true ∧ _depth n = d ∧
           _vIndex n = (level s d - 1)%Z
}.

Lemma marked_at_mark (l : list node) (i : nat) (nd : node) (k d : Z) :
  l !! i = Some nd → _visited nd = false →
  length (marked_at (alter (set_visit k) i l) d)
    = (length (marked_at l d) + if decide (_depth nd = d) then 1 else 0)%nat.
Proof.
  unfold marked_at. revert i. induction l as [|a l IH]; intros [|i]; simpl; try done.
  - intros [= ->] Hv. rewrite !filter_cons. simpl.
    rewrite (decide_False (P := _visited nd = true ∧ _)) by (intros [? _]; congruence).
    destruct (decide (_depth nd = d)) as [Hd|Hd].
    + rewrite decide_True by done. simpl. lia.
    + rewrite decide_False by (by intros [_ ?]). lia.
  - intros Hi Hv. rewrite !filter_cons. specialize (IH i Hi Hv).
    change (list_alter (set_visit k) i l) with (alter (set_visit k) i l).
    destruct (decide (_visited a = true ∧ _depth a = d)); simpl; lia.
Qed.

Lemma level_mark (s : list node * gmap Z Z) (i : nat) (nd : node) (d : Z) :
  level (mark i nd s) d
    = if decide (d = _depth nd) then (level s (_depth nd) + 1)%Z else level s d.
Proof.
  unfold level, mark. cbn [snd]. destruct (decide (d = _depth nd)) as [->|Hne].
  - by rewrite lookup_insert_eq.
  - by rewrite lookup_insert_ne.
Qed.

Lemma lookup_mark (s : list node * gmap Z Z) (i : nat) (nd : node) (j : nat) :
  s.1 !! i = Some nd →
  (mark i nd s).1 !! j
    = if decide (j = i) then Some (set_visit (level s (_depth nd)) nd) else s.1 !! j.
Proof.
  intros Hi. unfold mark. cbn [fst]. destruct (decide (j = i)) as [->|Hne].
  - rewrite list_lookup_alter_eq, Hi. done.
  - by rewrite list_lookup_alter_ne.
Qed.

Lemma slots_mark (s : list node * gmap Z Z) (i : nat) (nd : node) :
  slots s → s.1 !! i = Some nd → _visited nd = false → slots (mark i nd s).
Proof.
  intros [Hcount Hrange Hinj Htop] Hi Hv.
  assert (0 ≤ level s (_depth nd))%Z as Hk by (rewrite Hcount; lia).
  split.
  - intros d. rewrite level_mark. unfold mark at 1. cbn [fst].
    rewrite (marked_at_mark _ _ nd) by done.
    destruct (decide (d = _depth nd)) as [->|Hne].
    + rewrite decide_True by done. rewrite Hcount. lia.
    + rewrite decide_False by done. rewrite Hcount. lia.
  - intros j n. rewrite (lookup_mark _ _ _ _ Hi), level_mark.
    destruct (decide (j = i)) as [->|Hne].
    + intros [= <-] _. simpl. rewrite decide_True by done. lia.
    + intros Hj Hn. specialize (Hrange j n Hj Hn).
      destruct (decide (_depth n = _depth nd)) as [Heq|_]; [rewrite Heq in Hrange|]; lia.
  - intros j1 j2 a b. rewrite !(lookup_mark _ _ _ _ Hi).
    destruct (decide (j1 = i)) as [->|Hne1]; destruct (decide (j2 = i)) as [->|Hne2];
      try done.
    + intros [= <-] Hb _ Hvb Hd Hix. simpl in Hd, Hix.
      specialize (Hrange j2 b Hb Hvb). rewrite <- Hd in Hrange. lia.
    + intros Ha [= <-] Hva _ Hd Hix. simpl in Hd, Hix.
      specialize (Hrange j1 a Ha Hva). rewrite Hd in Hrange. lia.
    + by apply Hinj.
  - intros d. rewrite level_mark. destruct (decide (d = _depth nd)) as [->|Hne].
    + intros _. exists i, (set_visit (level s (_depth nd)) nd).
      rewrite (lookup_mark _ _ _ _ Hi), decide_True by done.
      repeat split; simpl; lia.
    + intros Hd. destruct (Htop d Hd) as (j & n & Hj & Hn & Hdn & Hix).
      exists j, n. rewrite (lookup_mark _ _ _ _ Hi).
      rewrite decide_False by (intros ->; congruence). done.
Qed.

(** *** Marks are never taken back, and the final sweep marks every node *)

Definition marked (l : list node) (j : nat) : Prop :=
  ∃ n, l !! j = Some n ∧ _visited n = true.

Lemma marked_mark (s : list node * gmap Z Z) (i : nat) (nd : node) (j : nat) :
  s.1 !! i = Some nd → marked s.1 j → marked (mark i nd s).1 j.
Proof.
  intros Hi (n & Hj & Hn). unfold marked. rewrite (lookup_mark _ _ _ _ Hi).
  destruct (decide (j = i)); [by eexists | by exists n].
Qed.

Lemma visit_keeps_marks fuel nodeMap childrenMap nodeId s j :
  marked s.1 j → marked (visit localeCompare fuel nodeMap childrenMap nodeId s).1 j.
Proof.
  apply (visit_inv (λ s, marked s.1 j)). intros s' i nd Hs Hi _. by apply marked_mark.
Qed.

Lemma visit_marks_self fuel nodeMap childrenMap nodeId s c cn :
  nodeMap !! nodeId = Some c → s.1 !! c = Some cn →
  marked (visit localeCompare (S fuel) nodeMap childrenMap nodeId s).1 c.
Proof.
  intros Hc Hcn. simpl. rewrite Hc, Hcn.
  destruct (_visited cn) eqn:Hv; [by exists cn|].
  apply (foldl_inv (λ s, marked s.1 c)).
  - cbn [fst]. unfold marked. rewrite list_lookup_alter_eq, Hcn. by eexists.
  - intros s' c' Hs'. destruct (s'.1 !! c'); [|done]. by apply visit_keeps_marks.
Qed.

Lemma sweep_keeps_marks fuel nodeMap childrenMap s c j :
  marked s.1 j → marked (sweep localeCompare fuel nodeMap childrenMap s c).1 j.
Proof.
  intros Hj. unfold sweep. destruct (unvisited s.1 c); [|done].
  unfold visit_node. destruct (s.1 !! c); [|done]. by apply visit_keeps_marks.
Qed.

Lemma sweep_marks (ns : list node) fuel childrenMap s c :
  NoDup (ids ns) → id <$> s.1 = ids ns → (c < length ns)%nat →
  marked (sweep localeCompare (S fuel) (index_map ns) childrenMap s c).1 c.
Proof.
  intros Hnd Hids Hc. unfold sweep, unvisited.
  destruct (lookup_lt_is_Some_2 ns c Hc) as [n0 Hn0].
  assert (∃ cn, s.1 !! c = Some cn ∧ id cn = id n0) as (cn & Hcn & Hid).
  { apply (f_equal (λ l, l !! c)) in Hids. unfold ids in Hids.
    rewrite !list_lookup_fmap, Hn0 in Hids.
    destruct (s.1 !! c) as [cn|]; [|done]. exists cn. split; [done|].
    simpl in Hids. congruence. }
  rewrite Hcn. destruct (_visited cn) eqn:Hv; simpl; [by exists cn|].
  unfold visit_node. rewrite Hcn. apply (visit_marks_self _ _ _ _ _ c cn); [|done].
  rewrite Hid. by apply index_map_NoDup.
Qed.

Lemma sweeps_mark_all (ns : list node) fuel childrenMap (l : list nat) s :
  NoDup (ids ns) → id <$> s.1 = ids ns → (∀ c, c ∈ l → (c < length ns)%nat) →
  ∀ c, c ∈ l →
    marked (foldl (sweep localeCompare (S fuel) (index_map ns) childrenMap) s l).1 c.
Proof.
  intros Hnd. revert s. induction l as [|a l IH]; intros s Hids Hl c Hc.
  - by apply elem_of_nil in Hc.
  - cbn [foldl].
    assert (id <$> (sweep localeCompare (S fuel) (index_map ns) childrenMap s a).1 = ids ns)
      as Hids'.
    { rewrite <- Hids. apply (sweep_frame localeCompare id); done. }
    destruct (decide (c ∈ l)) as [Hcl|Hcl].
    + apply IH; [done | intros; apply Hl; by right | done].
    + apply elem_of_cons in Hc as [->|?]; [|done].
      apply (foldl_inv (λ s, marked s.1 a)).
      * apply sweep_marks; [done | done | apply Hl; by left].
      * intros s' c' Hs'. by apply sweep_keeps_marks.
Qed.

(** *** STEP 6 *)

Lemma depth_counts_from (m0 : gmap Z Z) (l : list node) (d : Z) :
  let m := foldl (λ m n, <[_depth n := Z.max (default 0%Z (m !! _depth n)) (_vIndex n + 1)]> m)
                 m0 l in
  (default 0 (m0 !! d) ≤ default 0 (m !! d))%Z ∧
  (∀ n, n ∈ l → _depth n = d → (_vIndex n + 1 ≤ default 0 (m !! d))%Z) ∧
  (∀ B, (default 0 (m0 !! d) ≤ B)%Z →
        (∀ n, n ∈ l → _depth n = d → (_vIndex n + 1 ≤ B)%Z) →
        (default 0 (m !! d) ≤ B)%Z).
Proof.
  revert m0. induction l as [|a l IH]; intros m0; cbn [foldl]; cbv zeta.
  - split; [lia|]. split; [by intros n ?%elem_of_nil | by intros B ? _].
  - destruct (IH (<[_depth a := Z.max (default 0%Z (m0 !! _depth a)) (_vIndex a + 1)]> m0))
      as (H1 & H2 & H3). cbv zeta in H1, H2, H3.
    set (m1 := <[_depth a := _]> m0) in *.
    assert (default 0%Z (m1 !! d)
            = if decide (d = _depth a)
              then Z.max (default 0%Z (m0 !! d)) (_vIndex a + 1)
              else default 0%Z (m0 !! d)) as Hm1.
    { unfold m1. destruct (decide (d = _depth a)) as [->|Hne].
      - by rewrite lookup_insert_eq.
      - by rewrite lookup_insert_ne. }
    split; [|split].
    + destruct (decide (d = _depth a)); lia.
    + intros n [->|Hn]%elem_of_cons Hd; [|by apply H2].
      rewrite decide_True in Hm1 by done. lia.
    + intros B HB Hl. apply H3.
      * destruct (decide (d = _depth a)) as [Hd|]; [|lia].
        specialize (Hl a (list_elem_of_here _ _) (eq_sym Hd)). lia.
      * intros n Hn. apply Hl. by right.
Qed.

Lemma js_or_Z_pos (a : Z) : (1 ≤ a)%Z → js_or_Z a 1 = a.
Proof. intros Ha. unfold js_or_Z. destruct (Z.eqb_spec a 0); [lia | done]. Qed.

(** *** What the breadth-first pass and the fallback leave alone *)

Section BfsKeeps.

Context {B : Type} (g : node → B).
Hypothesis g_depth : ∀ d n, g (set_depth d n) = g n.

Lemma bfs_root_keeps st r : g <$> bnodes (bfs_root st r) = g <$> bnodes st.
Proof.
  unfold bfs_root. destruct (bnodes st !! r); [|done]. simpl.
  by apply fmap_alter_same.
Qed.

Lemma bfs_child_keeps nodeMap curr st c :
  g <$> bnodes (bfs_child nodeMap curr st c) = g <$> bnodes st.
Proof.
  unfold bfs_child. case_bool_decide; [done|].
  destruct (nodeMap !! c); [|done]. destruct (bnodes st !! curr); [|done]. simpl.
  by apply fmap_alter_same.
Qed.

Lemma bfs_step_keeps nodeMap childrenMap curr rest st :
  g <$> bnodes (bfs_step nodeMap childrenMap curr rest st) = g <$> bnodes st.
Proof.
  unfold bfs_step. destruct (bnodes st !! curr); [|done].
  apply (foldl_inv (λ s, g <$> bnodes s = g <$> bnodes st)); [done|].
  intros s c Hs. by rewrite bfs_child_keeps.
Qed.

Lemma bfs_loop_keeps fuel nodeMap childrenMap st :
  g <$> bnodes (bfs_loop fuel nodeMap childrenMap st) = g <$> bnodes st.
Proof.
  revert st. induction fuel as [|f IH]; intros st; simpl; [done|].
  destruct (queue st); [done|]. by rewrite IH, bfs_step_keeps.
Qed.

Lemma after_bfs_keeps (ns : list node) (es : list edge) :
  g <$> after_bfs ns es = g <$> ns.
Proof.
  unfold after_bfs, fallback. rewrite fmap_fmap_same.
  - rewrite bfs_loop_keeps.
    apply (foldl_inv (λ s, g <$> bnodes s = g <$> ns)); [done|].
    intros s r Hs. by rewrite bfs_root_keeps.
  - intros n. by destruct (_ =? _)%Z.
Qed.

End BfsKeeps.

Lemma fmap_eq_elem {B} (g : node → B) (l l' : list node) (n : node) :
  g <$> l = g <$> l' → n ∈ l → ∃ n', n' ∈ l' ∧ g n' = g n.
Proof.
  intros H [i Hi]%list_elem_of_lookup.
  apply (f_equal (λ l, l !! i)) in H. rewrite !list_lookup_fmap, Hi in H.
  destruct (l' !! i) as [n'|] eqn:Hn'; [|done]. exists n'.
  split; [by eapply list_elem_of_lookup_2 | simpl in H; congruence].
Qed.

Lemma fmap_eq_lookup {B} (g : node → B) (l l' : list node) (i : nat) (n : node) :
  g <$> l = g <$> l' → l !! i = Some n → ∃ n', l' !! i = Some n' ∧ g n' = g n.
Proof.
  intros H Hi.
  apply (f_equal (λ l, l !! i)) in H. rewrite !list_lookup_fmap, Hi in H.
  destruct (l' !! i) as [n'|] eqn:Hn'; [|done]. exists n'.
  split; [done | simpl in H; congruence].
Qed.

(** *** The state of the depth-first pass at its end *)

Lemma after_dfs_keeps {B} (g : node → B) (ns : list node) (es : list edge) :
  (∀ v n, g (set_visit v n) = g n) →
  g <$> (after_dfs ns es).1 = g <$> after_bfs ns es.
Proof.
  intros Hg. apply (after_dfs_inv (λ s, g <$> s.1 = g <$> after_bfs ns es)); [|done].
  intros s i nd Hs _ _. unfold mark. cbn [fst]. by rewrite fmap_alter_same.
Qed.

Lemma after_bfs_fresh (ns : list node) (es : list edge) (n : node) :
  n ∈ after_bfs (reset <$> ns) es → _visited n = false ∧ _vIndex n = 0%Z.
Proof.
  intros Hn.
  destruct (fmap_eq_elem (λ n, (_visited n, _vIndex n)) _ _ n
              (after_bfs_keeps (λ n, (_visited n, _vIndex n)) (λ _ _, eq_refl)
                 (reset <$> ns) es) Hn)
    as (n' & Hn' & Heq).
  apply list_elem_of_fmap in Hn' as (n0 & -> & _). simpl in Heq.
  split; congruence.
Qed.

Lemma after_dfs_slots (ns : list node) (es : list edge) :
  slots (after_dfs (reset <$> ns) es).
Proof.
  apply after_dfs_inv; [intros s i nd; apply slots_mark|].
  assert (∀ d, marked_at (after_bfs (reset <$> ns) es) d = []) as Hnone.
  { intros d. apply GraphStoreFacts.filter_nil_iff. intros n Hn [Hv _].
    apply after_bfs_fresh in Hn as [? _]. congruence. }
  split.
  - intros d. cbn [fst]. by rewrite Hnone.
  - intros i n Hi Hv. cbn [fst] in Hi.
    apply list_elem_of_lookup_2, after_bfs_fresh in Hi as [? _]. congruence.
  - intros i j a b Hi _ Hv. cbn [fst] in Hi.
    apply list_elem_of_lookup_2, after_bfs_fresh in Hi as [? _]. congruence.
  - intros d. unfold level. cbn [snd]. rewrite lookup_empty. simpl. lia.
Qed.

(** A node that the pass has not marked still has the index of the reset. *)
Lemma after_dfs_fresh (ns : list node) (es : list edge) (n : node) :
  n ∈ (after_dfs (reset <$> ns) es).1 → _visited n = false → _vIndex n = 0%Z.
Proof.
  revert n.
  apply (after_dfs_inv (λ s, ∀ n, n ∈ s.1 → _visited n = false → _vIndex n = 0%Z)).
  - intros s i nd Hs Hi _ n [j Hj]%list_elem_of_lookup.
    rewrite (lookup_mark _ _ _ _ Hi) in Hj. destruct (decide (j = i)).
    + by injection Hj as <-.
    + apply Hs. by eapply list_elem_of_lookup_2.
  - intros n Hn _. by apply after_bfs_fresh in Hn as [_ ?].
Qed.

Lemma after_dfs_all_marked (ns : list node) (es : list edge) (c : nat) :
  NoDup (ids ns) → (c < length ns)%nat → marked (after_dfs (reset <$> ns) es).1 c.
Proof.
  intros Hnd Hc. unfold after_dfs.
  apply sweeps_mark_all.
  - by rewrite ids_reset.
  - apply (foldl_inv (λ s, id <$> s.1 = ids (reset <$> ns))).
    + cbn [fst]. by apply (after_bfs_keeps id).
    + intros s r Hs. rewrite <- Hs. by apply (visit_node_frame localeCompare id).
  - intros j Hj%elem_of_seq. lia.
  - apply elem_of_seq. rewrite length_fmap. lia.
Qed.

(** The count of a level, as STEP 6 computes it, is the counter that the
    depth-first pass left for that level. *)
Lemma depth_counts_level (ns : list node) (es : list edge) (a : node) :
  let s := after_dfs (reset <$> ns) es in
  a ∈ s.1 → _visited a = true →
  default 0%Z (depth_counts s.1 !! _depth a) = level s (_depth a).
Proof.
  intros s [i Hi]%list_elem_of_lookup Hv.
  pose proof (after_dfs_slots ns es) as [Hcount Hrange Hinj Htop]. fold s in Hcount, Hrange, Hinj, Htop.
  destruct (depth_counts_from ∅ s.1 (_depth a)) as (_ & Hge & Hle).
  cbv zeta in Hge, Hle. fold (depth_counts s.1) in Hge, Hle.
  pose proof (Hrange i a Hi Hv) as Ha.
  apply Z.le_antisymm.
  - apply Hle; [rewrite lookup_empty; simpl; lia|].
    intros n Hn Hd.
    destruct (_visited n) eqn:Hvn.
    + apply list_elem_of_lookup in Hn as [j Hj].
      specialize (Hrange j n Hj Hvn). rewrite Hd in Hrange. lia.
    + rewrite (after_dfs_fresh ns es n Hn Hvn). lia.
  - destruct (Htop (_depth a)) as (j & n & Hj & Hvn & Hd & Hix); [lia|].
    specialize (Hge n (list_elem_of_lookup_2 _ _ _ Hj) Hd). lia.
Qed.

Lemma filter_ext_elem {A} (P Q : A → Prop) `{∀ a, Decision (P a)} `{∀ a, Decision (Q a)}
  (l : list A) :
  (∀ a, a ∈ l → P a ↔ Q a) → filter P l = filter Q l.
Proof.
  induction l as [|a l IH]; intros Hl; [done|].
  rewrite !filter_cons. rewrite IH by (intros b Hb; apply Hl; by right).
  destruct (decide (P a)) as [HP|HP].
  - rewrite decide_True; [done|]. by apply (Hl a (list_elem_of_here _ _)).
  - rewrite decide_False; [done|]. intros HQ. by apply HP, (Hl a (list_elem_of_here _ _)).
Qed.

Lemma length_filter_fmap_depth (f : node → node) (l : list node) (d : Z) :
  (∀ n, _depth (f n) = _depth n) →
  length (filter (λ b, _depth b = d) (f <$> l)) = length (filter (λ b, _depth b = d) l).
Proof.
  intros Hf. induction l as [|a l IH]; [done|].
  rewrite fmap_cons, !filter_cons, Hf.
  destruct (decide (_depth a = d)); simpl; by rewrite IH.
Qed.

Lemma calc_nonempty (ns : list node) (es : list edge) (a : node) :
  a ∈ _calcTreeDepths localeCompare ns es →
  _calcTreeDepths localeCompare ns es
    = assign_counts (max_depth (after_bfs (reset <$> ns) es))
        (after_dfs (reset <$> ns) es).1.
Proof.
  unfold _calcTreeDepths. destruct ns as [|n ns]; [by intros ?%elem_of_nil|].
  intros _. apply annotate_eq.
Qed.

Lemma reset_lower (ns : list node) : lower (reset <$> ns).
Proof. unfold lower. apply Forall_fmap, Forall_true. intros n. simpl. lia. Qed.

Lemma calc_in_range (ns : list node) (es : list edge) (a : node) :
  a ∈ _calcTreeDepths localeCompare ns es →
  (0 ≤ _depth a ≤ _maxDepth a)%Z ∧ (0 ≤ _vIndex a < _vCount a)%Z ∧
  (∀ b, b ∈ _calcTreeDepths localeCompare ns es → _maxDepth b = _maxDepth a) ∧
  (∃ b, b ∈ _calcTreeDepths localeCompare ns es ∧ _depth b = _maxDepth a).
Proof.
  intros Ha. pose proof (calc_nonempty ns es a Ha) as Hout.
  rewrite Hout in Ha |- *. clear Hout.
  set (s := after_dfs (reset <$> ns) es) in *.
  set (M := max_depth (after_bfs (reset <$> ns) es)) in *.
  unfold assign_counts in *.
  apply list_elem_of_fmap in Ha as (a5 & -> & Ha5). simpl.
  pose proof (after_dfs_keeps _depth (reset <$> ns) es (λ _ _, eq_refl)) as Hdepths.
  fold s in Hdepths.
  pose proof (after_bfs_nonneg (reset <$> ns) es (reset_lower ns)) as Hnonneg.
  destruct (fmap_eq_elem _depth _ _ a5 Hdepths Ha5) as (a4 & Ha4 & Hd4).
  assert (0 ≤ _vIndex a5)%Z as Hix.
  { destruct (_visited a5) eqn:Hv.
    - apply list_elem_of_lookup in Ha5 as [i Hi].
      by destruct (slots_range _ (after_dfs_slots ns es) i a5 Hi Hv).
    - rewrite (after_dfs_fresh ns es a5 Ha5 Hv). lia. }
  split; [|split; [|split]].
  - rewrite <- Hd4. split.
    + rewrite Forall_forall in Hnonneg. by apply Hnonneg.
    + destruct (max_depth_from 0 (after_bfs (reset <$> ns) es)) as [_ Hle].
      by apply Hle.
  - destruct (depth_counts_from ∅ s.1 (_depth a5)) as (_ & Hge & _).
    cbv zeta in Hge. fold (depth_counts s.1) in Hge.
    specialize (Hge a5 Ha5 eq_refl). rewrite js_or_Z_pos; lia.
  - by intros b (b5 & -> & _)%list_elem_of_fmap.
  - destruct (max_depth_attained (after_bfs (reset <$> ns) es)) as (n & Hn & HnM).
    { intros Hnil. rewrite Hnil in Ha4. by apply elem_of_nil in Ha4. }
    { done. }
    symmetry in Hdepths.
    destruct (fmap_eq_elem _depth _ _ n Hdepths Hn) as (b5 & Hb5 & Hdb).
    eexists. split; [apply list_elem_of_fmap; by exists b5|]. simpl.
    unfold M. congruence.
Qed.

(** X6: after the depth pass every node has a usable annotation: a depth
    between [0] and [_maxDepth], an index of at least [0] and below
    [_vCount]; all nodes carry the same [_maxDepth], and it is the depth of
    one of them. *)
Theorem calcTreeDepths_annotations_in_range (ns : list node) (es : list edge) (a : node) :
  a ∈ _calcTreeDepths localeCompare ns es →
  (0 ≤ _depth a ≤ _maxDepth a)%Z ∧ (0 ≤ _vIndex a < _vCount a)%Z ∧
  (∀ b, b ∈ _calcTreeDepths localeCompare ns es → _maxDepth b = _maxDepth a) ∧
  (∃ b, b ∈ _calcTreeDepths localeCompare ns es ∧ _depth b = _maxDepth a).
Proof. apply calc_in_range. Qed.

Lemma calc_slots (ns : list node) (es : list edge) :
  NoDup (ids ns) →
  let out := _calcTreeDepths localeCompare ns es in
  (∀ a, a ∈ out →
     _visited a = true ∧
     _vCount a = Z.of_nat (length (filter (λ b, _depth b = _depth a) out))) ∧
  (∀ i j a b, out !! i = Some a → out !! j = Some b →
     _depth a = _depth b → _vIndex a = _vIndex b → i = j).
Proof.
  intros Hnd out.
  destruct (decide (ns = [])) as [->|Hne].
  { split; [by intros a ?%elem_of_nil | by intros i j a b ?]. }
  assert (out = assign_counts (max_depth (after_bfs (reset <$> ns) es))
                  (after_dfs (reset <$> ns) es).1) as Hout.
  { unfold out, _calcTreeDepths. destruct ns; [done|]. apply annotate_eq. }
  set (s := after_dfs (reset <$> ns) es) in *.
  pose proof (after_dfs_slots ns es) as Hslots. fold s in Hslots.
  assert (∀ i n, s.1 !! i = Some n → _visited n = true) as Hall.
  { intros i n Hi.
    assert (i < length ns)%nat as Hlt.
    { apply lookup_lt_Some in Hi.
      pose proof (after_dfs_keeps id (reset <$> ns) es (λ _ _, eq_refl)) as Hids.
      fold s in Hids. apply (f_equal length) in Hids.
      rewrite !length_fmap in Hids.
      pose proof (after_bfs_keeps id (λ _ _, eq_refl) (reset <$> ns) es) as Hids'.
      apply (f_equal length) in Hids'. rewrite !length_fmap in Hids'. lia. }
    destruct (after_dfs_all_marked ns es i Hnd Hlt) as (n' & Hn' & Hv).
    fold s in Hn'. congruence. }
  rewrite Hout. unfold assign_counts. split.
  - intros a (a5 & -> & Ha5)%list_elem_of_fmap. simpl.
    pose proof Ha5 as Hi. apply list_elem_of_lookup in Hi as [i Hi].
    pose proof (Hall i a5 Hi) as Hv. split; [done|].
    pose proof (depth_counts_level ns es a5 Ha5 Hv) as Hdc. cbv zeta in Hdc.
    fold s in Hdc. rewrite Hdc.
    pose proof (slots_range _ Hslots i a5 Hi Hv) as Hr.
    rewrite js_or_Z_pos by lia.
    rewrite (slots_count _ Hslots).
    rewrite length_filter_fmap_depth by done.
    do 2 f_equal. unfold marked_at. apply filter_ext_elem.
    intros b [j Hj]%list_elem_of_lookup. specialize (Hall j b Hj). tauto.
  - intros i j a b. rewrite !list_lookup_fmap.
    destruct (s.1 !! i) as [a5|] eqn:Hi; [|done].
    destruct (s.1 !! j) as [b5|] eqn:Hj; [|done].
    intros [= <-] [= <-]. simpl.
    apply (slots_inj _ Hslots i j a5 b5); try done; by eapply Hall.
Qed.

(** X7: with pairwise distinct ids the depth-first pass reaches every node, no
    two nodes share a depth and an index, and [_vCount] is the number of
    nodes that have the depth of the node. *)
Theorem calcTreeDepths_slots (ns : list node) (es : list edge) :
  NoDup (ids ns) →
  let out := _calcTreeDepths localeCompare ns es in
  (∀ a, a ∈ out →
     _visited a = true ∧
     _vCount a = Z.of_nat (length (filter (λ b, _depth b = _depth a) out))) ∧
  (∀ i j a b, out !! i = Some a → out !! j = Some b →
     _depth a = _depth b → _vIndex a = _vIndex b → i = j).
Proof. apply calc_slots. Qed.

(** ** The strict layout *)

(** C8, as the code has it: [applyStrictLayout({onlyUnpositioned: true})]
    leaves every node that has a position (non-null and not the origin)
    where it is, with its velocity, and puts every other node, a node at
    the origin as well as a node without position, on the grid of its new
    annotation, with velocity 0. *)
Theorem applyStrictLayout_partial_update (st : engine) :
  let st' := applyStrictLayout localeCompare {| onlyUnpositioned := Some true |} st in
  length (nodes st') = length (nodes st) ∧
  ∀ i n, nodes st !! i = Some n →
    ∃ n', nodes st' !! i = Some n' ∧ id n' = id n ∧
      (hasPos n = true → x n' = x n ∧ y n' = y n ∧ vx n' = vx n ∧ vy n' = vy n) ∧
      (hasPos n = false →
         x n' = Some (inject_Z (_depth n') * 300)%Q ∧
         y n' = Some (inject_Z (_vIndex n') * 100 - (inject_Z (_vCount n') - 1) * 100 / 2)%Q ∧
         vx n' = 0%Q ∧ vy n' = 0%Q).
Proof.
  intros st'. unfold st', applyStrictLayout. cbn [onlyUnpositioned].
  rewrite bool_decide_eq_true_2 by done.
  destruct (nodes st) as [|n0 ns] eqn:Hns;
    [split; [by rewrite Hns|]; intros i n; by rewrite Hns|].
  rewrite <- Hns in *. clear n0 ns Hns. unfold with_nodes. cbn [nodes].
  split; [by rewrite length_fmap, (calc_length localeCompare)|].
  intros i n Hn.
  destruct (calc_lookup localeCompare (nodes st) (edges st) i n Hn) as (m & Hm & Hr).
  rewrite list_lookup_fmap, Hm. cbn [fmap option_fmap option_map].
  eexists. split; [done|].
  destruct (calc_in_range (nodes st) (edges st) m (list_elem_of_lookup_2 _ _ _ Hm))
    as (_ & Hix & _).
  unfold place. rewrite (hasPos_reset _ _ Hr). cbn [andb].
  destruct (hasPos n) eqn:Hpos.
  - split; [exact (f_equal id Hr)|]. split; [|done]. intros _.
    split; [exact (f_equal x Hr)|]. split; [exact (f_equal y Hr)|].
    split; [exact (f_equal vx Hr) | exact (f_equal vy Hr)].
  - split; [exact (f_equal id Hr)|]. split; [done|]. intros _.
    cbn. rewrite js_or_Z_pos by lia. done.
Qed.

Lemma inject_Z_scaled (a b : Z) (c : Q) :
  (0 < c)%Q → (inject_Z a * c == inject_Z b * c)%Q → a = b.
Proof.
  intros Hc Heq. apply Qmult_inj_r in Heq; [|lra].
  unfold Qeq in Heq. simpl in Heq. lia.
Qed.

(** X8: [applyStrictLayout()] without the flag puts every node on the grid
    of its annotation, whatever the ids: [x] is 300 times the depth, [y] is
    100 times the index, shifted so that the column is centred on 0, and
    the velocity is reset; with pairwise distinct ids no two nodes get the
    same place. *)
Theorem applyStrictLayout_places_every_node (o : opts) (st : engine) :
  onlyUnpositioned o ≠ Some true →
  let st' := applyStrictLayout localeCompare o st in
  (∀ i a, nodes st' !! i = Some a →
     x a = Some (inject_Z (_depth a) * 300)%Q ∧
     y a = Some (inject_Z (_vIndex a) * 100 - (inject_Z (_vCount a) - 1) * 100 / 2)%Q ∧
     vx a = 0%Q ∧ vy a = 0%Q) ∧
  (NoDup (ids (nodes st)) →
   ∀ i j a b, nodes st' !! i = Some a → nodes st' !! j = Some b → i ≠ j →
     ¬ (num (x a) == num (x b) ∧ num (y a) == num (y b))%Q).
Proof.
  intros Ho st'.
  assert (nodes st' = place false <$> _calcTreeDepths localeCompare (nodes st) (edges st))
    as Hnodes.
  { unfold st', applyStrictLayout. rewrite bool_decide_eq_false_2 by done.
    destruct (nodes st) eqn:Hns; [by rewrite Hns | done]. }
  rewrite Hnodes. clear Hnodes.
  assert (∀ i a, (place false <$> _calcTreeDepths localeCompare (nodes st) (edges st)) !! i
                 = Some a →
            ∃ n, _calcTreeDepths localeCompare (nodes st) (edges st) !! i = Some n ∧
                 _depth a = _depth n ∧ _vIndex a = _vIndex n ∧ _vCount a = _vCount n ∧
                 x a = Some (inject_Z (_depth n) * 300)%Q ∧
                 y a = Some (inject_Z (_vIndex n) * 100
                             - (inject_Z (_vCount n) - 1) * 100 / 2)%Q ∧
                 vx a = 0%Q ∧ vy a = 0%Q) as Hplace.
  { intros i a. rewrite list_lookup_fmap.
    destruct (_ !! i) as [n|] eqn:Hn; [|done]. intros [= <-]. exists n. split; [done|].
    destruct (calc_in_range (nodes st) (edges st) n (list_elem_of_lookup_2 _ _ _ Hn))
      as (_ & Hix & _).
    unfold place. cbn. rewrite js_or_Z_pos by lia. done. }
  split.
  - intros i a Ha. destruct (Hplace i a Ha) as (n & _ & -> & -> & -> & ?). done.
  - intros Hnd i j a b Ha Hb Hne [Hx Hy].
    destruct (calc_slots (nodes st) (edges st) Hnd) as [Hcount Hinj].
    cbv zeta in Hcount, Hinj.
    destruct (Hplace i a Ha) as (n & Hn & _ & _ & _ & Hxa & Hya & _).
    destruct (Hplace j b Hb) as (m & Hm & _ & _ & _ & Hxb & Hyb & _).
    rewrite Hxa, Hxb in Hx. rewrite Hya, Hyb in Hy. simpl in Hx, Hy.
    assert (_depth n = _depth m) as Hd by (by apply (inject_Z_scaled _ _ 300)).
    assert (_vCount n = _vCount m) as Hc.
    { destruct (Hcount n (list_elem_of_lookup_2 _ _ _ Hn)) as [_ ->].
      destruct (Hcount m (list_elem_of_lookup_2 _ _ _ Hm)) as [_ ->].
      by rewrite Hd. }
    apply Hne, (Hinj i j n m Hn Hm Hd).
    apply (inject_Z_scaled _ _ 100); [done|]. rewrite Hc in Hy. lra.
Qed.

End Annotations.

(** ** Depths are breadth-first distances *)

(** [walk es a b k]: there is a path of [k] edges from [a] to [b]. *)
Inductive walk (es : list edge) (a : string) : string → nat → Prop :=
  | walk_here : walk es a a 0
  | walk_step e b k : walk es a b k → e ∈ es → source e = b →
      walk es a (target e) (S k).

Lemma walk_reachable es a b k : walk es a b k → GraphStoreFacts.reachable es a b.
Proof.
  induction 1 as [|e b k _ IH He Hs]; [constructor|].
  by apply (GraphStoreFacts.reach_step es a e b).
Qed.

Section Distance.

Variable ns0 : list node.
Variable es : list edge.
Hypothesis ids_NoDup : NoDup (ids ns0).
Hypothesis all_reset : ∀ i n, ns0 !! i = Some n → _depth n = (-1)%Z.
Hypothesis edges_ok : ∀ e, e ∈ es → edge_ok (index_map ns0) e = true.

(** The state before the loop: the roots are at depth [0] and visited. *)
Lemma bfs_init_roots :
  (∀ i, dix (bnodes (bfs_init ns0 es)) i
        = if decide (i ∈ roots ns0 es) then 0%Z else (-1)%Z) ∧
  (∀ s, s ∈ bfsVisited (bfs_init ns0 es) ↔
        ∃ r n, r ∈ roots ns0 es ∧ ns0 !! r = Some n ∧ id n = s).
Proof.
  destruct (bfs_roots_fold ns0 ids_NoDup all_reset (roots ns0 es)
              {| bnodes := ns0; bfsVisited := ∅; queue := [] |})
    as (_ & _ & Hd & Hv & _).
  - by apply roots_NoDup.
  - intros r Hr. cbn [bnodes]. split; [by apply ns0_dix | by apply (roots_lt ns0 es)].
  - done.
  - fold (bfs_init ns0 es) in Hd, Hv. cbn [bnodes bfsVisited] in Hd, Hv. split.
    + intros i. rewrite Hd. by rewrite (ns0_dix ns0 all_reset).
    + intros s. rewrite Hv. split; [|by right].
      by intros [?%elem_of_empty|?].
Qed.

(** The loop writes the depth of a node once: a node that has been visited
    keeps its depth. *)
Definition settled (V : gset string) (l0 : list node) (st : bfs_state) : Prop :=
  V ⊆ bfsVisited st ∧
  ∀ j n, ns0 !! j = Some n → id n ∈ V → dix (bnodes st) j = dix l0 j.

Lemma bfs_child_settled V l0 curr st c :
  settled V l0 st → settled V l0 (bfs_child (index_map ns0) curr st c).
Proof.
  intros [HV Hd]. unfold bfs_child. case_bool_decide as Hc; [done|].
  destruct (index_map ns0 !! c) as [p|] eqn:Hp; [|done].
  destruct (bnodes st !! curr) as [cn|]; [|done].
  split; cbn [bnodes bfsVisited]; [set_solver|].
  intros j n Hj Hn. rewrite dix_alter. rewrite decide_False; [by apply (Hd j n)|].
  intros [-> _]. apply index_map_Some in Hp as (m & Hm & Hid).
  assert (n = m) as -> by congruence. apply Hc. rewrite <- Hid. by apply HV.
Qed.

Lemma bfs_step_settled V l0 childrenMap curr rest st :
  settled V l0 st → settled V l0 (bfs_step (index_map ns0) childrenMap curr rest st).
Proof.
  intros Hs. unfold bfs_step. destruct (bnodes st !! curr); [|done].
  apply (foldl_inv (settled V l0)); [done|].
  intros s c Hsc. by apply bfs_child_settled.
Qed.

Lemma bfs_loop_settled V l0 fuel childrenMap st :
  settled V l0 st → settled V l0 (bfs_loop fuel (index_map ns0) childrenMap st).
Proof.
  revert st. induction fuel as [|f IH]; intros st Hs; simpl; [done|].
  destruct (queue st); [done|]. by apply IH, bfs_step_settled.
Qed.

Lemma end_root (r : nat) : r ∈ roots ns0 es → dix (bnodes (bfs_end ns0 es)) r = 0%Z.
Proof.
  intros Hr. destruct bfs_init_roots as [Hd Hv].
  pose proof (roots_lt ns0 es ids_NoDup all_reset r Hr) as Hlt.
  destruct (lookup_lt_is_Some_2 ns0 r Hlt) as [n Hn].
  destruct (bfs_loop_settled (bfsVisited (bfs_init ns0 es)) (bnodes (bfs_init ns0 es))
              (S (length ns0)) (adjacency ns0 es).1 (bfs_init ns0 es)) as [_ Hst].
  { split; done. }
  fold (bfs_end ns0 es) in Hst. rewrite (Hst r n Hn).
  - rewrite Hd. by rewrite decide_True.
  - apply Hv. by exists r, n.
Qed.

Lemma end_lower (j : nat) :
  dix (bnodes (bfs_end ns0 es)) j ≠ (-1)%Z → (0 ≤ dix (bnodes (bfs_end ns0 es)) j)%Z.
Proof.
  intros Hj.
  assert (lower (bnodes (bfs_end ns0 es))) as Hl.
  { apply bfs_loop_lower.
    apply (foldl_inv (λ s, lower (bnodes s))); [|intros s r; apply bfs_root_lower].
    cbn [bnodes]. unfold lower. apply Forall_forall.
    intros n [i Hi]%list_elem_of_lookup. rewrite (all_reset i n Hi). lia. }
  unfold dix in Hj |- *. destruct (bnodes (bfs_end ns0 es) !! j) as [n|] eqn:Hn; [|done].
  simpl in *. unfold lower in Hl. rewrite Forall_forall in Hl.
  specialize (Hl n (list_elem_of_lookup_2 _ _ _ Hn)). lia.
Qed.

(** A node that the loop has reached and that is no root lies below another
    reached node. *)
Lemma end_zero_root (j : nat) :
  dix (bnodes (bfs_end ns0 es)) j = 0%Z → j ∈ roots ns0 es.
Proof.
  intros Hj. destruct (bfs_end_inv ns0 es ids_NoDup all_reset) as [D Hinv].
  destruct (inv_parent _ _ _ _ _ Hinv j)
    as [[Hr _]|(e & i & _ & _ & _ & _ & Hi & Heq)]; [lia | done |].
  pose proof (end_lower i Hi). lia.
Qed.

(** Every reached node lies at the end of a path from a root that has as
    many edges as the depth of the node. *)
Lemma seen_walk (k : nat) (j : nat) :
  dix (bnodes (bfs_end ns0 es)) j = Z.of_nat k →
  ∃ r nr nj, r ∈ roots ns0 es ∧ ns0 !! r = Some nr ∧ ns0 !! j = Some nj ∧
             walk es (id nr) (id nj) k.
Proof.
  destruct (bfs_end_inv ns0 es ids_NoDup all_reset) as [D Hinv].
  revert j. induction k as [|k IH]; intros j Hj.
  - assert (j ∈ roots ns0 es) as Hr by (apply end_zero_root; lia).
    pose proof (roots_lt ns0 es ids_NoDup all_reset j Hr) as Hlt.
    destruct (lookup_lt_is_Some_2 ns0 j Hlt) as [n Hn].
    exists j, n, n. repeat split; try done. constructor.
  - destruct (inv_parent _ _ _ _ _ Hinv j)
      as [[_ H0]|(e & i & He & _ & Ht & Hs & Hi & Heq)]; [lia | lia |].
    destruct (IH i) as (r & nr & ni & Hr & Hnr & Hni & Hw); [lia|].
    apply index_map_Some in Ht as (nj & Hnj & Hidj).
    apply index_map_Some in Hs as (ni' & Hni' & Hidi).
    assert (ni' = ni) as -> by congruence.
    exists r, nr, nj. repeat split; try done.
    rewrite Hidj. by apply (walk_step es (id nr) e (id ni)).
Qed.

(** Every node that can be reached from a root is reached by the loop. *)
Lemma root_reachable_seen (r : nat) (nr : node) (t : string) :
  r ∈ roots ns0 es → ns0 !! r = Some nr →
  GraphStoreFacts.reachable es (id nr) t →
  ∃ j, index_map ns0 !! t = Some j ∧ dix (bnodes (bfs_end ns0 es)) j ≠ (-1)%Z.
Proof.
  intros Hroot Hr Hreach. destruct (bfs_end_inv ns0 es ids_NoDup all_reset) as [D Hinv].
  pose proof (bfs_loop_terminates ns0 es ids_NoDup all_reset) as Hq.
  induction Hreach as [|e b Hreach IH He Hs].
  - exists r. split; [by apply index_map_NoDup|]. by apply (inv_roots _ _ _ _ _ Hinv).
  - destruct IH as (i & Hi & Hiseen).
    destruct (index_map_Some _ _ _ Hi) as (n & Hn & Hid).
    pose proof (edges_ok e He) as Hok.
    assert (∃ j, index_map ns0 !! target e = Some j) as [j Hj].
    { unfold edge_ok in Hok. apply andb_prop in Hok as [_ Hok].
      by apply bool_decide_eq_true in Hok as [j Hj]; exists j. }
    exists j. split; [done|].
    destruct (inv_edges _ _ _ _ _ Hinv i n e j Hn Hiseen) as [Hjseen _]; try done.
    + rewrite Hq. apply not_elem_of_nil.
    + congruence.
Qed.

(** Along a path of [k] edges the depth grows by [k] at most. *)
Lemma walk_depth (a b : string) (k : nat) (i : nat) :
  walk es a b k → index_map ns0 !! a = Some i →
  ∃ j, index_map ns0 !! b = Some j ∧
       (final_depth ns0 es j ≤ final_depth ns0 es i + Z.of_nat k)%Z.
Proof.
  intros Hw Hi. induction Hw as [|e b k Hw IH He Hs].
  - exists i. split; [done | lia].
  - destruct IH as (j & Hj & Hle).
    pose proof (edges_ok e He) as Hok.
    assert (∃ j', index_map ns0 !! target e = Some j') as [j' Hj'].
    { unfold edge_ok in Hok. apply andb_prop in Hok as [_ Hok].
      by apply bool_decide_eq_true in Hok as [j' Hj']; exists j'. }
    exists j'. split; [done|].
    pose proof (final_depth_edge ns0 es ids_NoDup all_reset e j j' He Hok) as Hedge.
    rewrite Hs in Hedge. specialize (Hedge Hj Hj'). lia.
Qed.

Lemma end_length : length (bnodes (bfs_end ns0 es)) = length ns0.
Proof.
  destruct (bfs_end_inv ns0 es ids_NoDup all_reset) as [D Hinv].
  apply frame_length, (inv_frame _ _ _ _ _ Hinv).
Qed.

Lemma final_seen (j : nat) :
  dix (bnodes (bfs_end ns0 es)) j ≠ (-1)%Z →
  final_depth ns0 es j = dix (bnodes (bfs_end ns0 es)) j ∧
  (final_depth ns0 es j ≤ max_depth (bnodes (bfs_end ns0 es)))%Z.
Proof.
  intros Hj. unfold final_depth. rewrite dix_fallback.
  rewrite decide_False by (by intros [? _]). split; [done | apply max_depth_ge].
Qed.

Lemma final_unseen (j : nat) :
  (j < length ns0)%nat → dix (bnodes (bfs_end ns0 es)) j = (-1)%Z →
  final_depth ns0 es j = (max_depth (bnodes (bfs_end ns0 es)) + 1)%Z.
Proof.
  intros Hlt Hj. unfold final_depth. rewrite dix_fallback.
  rewrite decide_True; [done|]. split; [done | by rewrite end_length].
Qed.

Lemma final_zero_iff (j : nat) :
  (j < length ns0)%nat → final_depth ns0 es j = 0%Z ↔ j ∈ roots ns0 es.
Proof.
  intros Hlt. split.
  - intros H0. destruct (decide (dix (bnodes (bfs_end ns0 es)) j = (-1)%Z)) as [Hu|Hs].
    + rewrite (final_unseen j Hlt Hu) in H0.
      pose proof (max_depth_nonneg (bnodes (bfs_end ns0 es))). lia.
    + destruct (final_seen j Hs) as [Heq _]. apply end_zero_root. congruence.
  - intros Hr. pose proof (end_root j Hr) as H0.
    destruct (final_seen j) as [-> _]; [lia | done].
Qed.

(** The largest depth that the loop assigns is the depth of a reached
    node. *)
Lemma end_max_attained :
  ns0 ≠ [] →
  ∃ j, dix (bnodes (bfs_end ns0 es)) j = max_depth (bnodes (bfs_end ns0 es)) ∧
       dix (bnodes (bfs_end ns0 es)) j ≠ (-1)%Z.
Proof.
  intros Hne. pose proof (max_depth_nonneg (bnodes (bfs_end ns0 es))) as Hm.
  destruct (max_depth_attained_from 0 (bnodes (bfs_end ns0 es))) as [H|(n & Hn & H)];
    fold (max_depth (bnodes (bfs_end ns0 es))) in H.
  - assert (∃ r, r ∈ roots ns0 es) as [r Hr].
    { rewrite roots_eq. destruct (candidates ns0 es) as [|c l].
      - destruct ns0; [done|]. exists 0%nat. by left.
      - exists c. by left. }
    exists r. rewrite (end_root r Hr). split; [done | lia].
  - apply list_elem_of_lookup in Hn as [j Hj]. exists j.
    rewrite (dix_lookup _ _ _ Hj). split; [done | lia].
Qed.

End Distance.

Section DepthMeaning.

Variable localeCompare : string → string → Z.
Variable ns : list node.
Variable es : list edge.
Hypothesis ids_NoDup : NoDup (ids ns).
Hypothesis edges_valid : ∀ e, e ∈ es → source e ∈ ids ns ∧ target e ∈ ids ns.

Lemma reset_NoDup : NoDup (ids (reset <$> ns)).
Proof. by rewrite ids_reset. Qed.

Lemma reset_edges_ok (e : edge) : e ∈ es → edge_ok (index_map (reset <$> ns)) e = true.
Proof.
  intros He. destruct (edges_valid e He). apply edge_ok_ids; by rewrite ids_reset.
Qed.

(** A node of the result, its position, and its depth. *)
Lemma out_position (a : node) :
  a ∈ _calcTreeDepths localeCompare ns es →
  ∃ i, index_map (reset <$> ns) !! id a = Some i ∧
       _depth a = final_depth (reset <$> ns) es i ∧ (i < length ns)%nat.
Proof.
  intros Ha. destruct (calc_node_index localeCompare ns es a ids_NoDup Ha)
    as (i & Hi & Hd & Hne).
  exists i. split; [done|]. split; [by rewrite Hd, calc_dix|].
  apply index_map_Some in Hi as (m & Hm & _). apply lookup_lt_Some in Hm.
  by rewrite length_fmap in Hm.
Qed.

Lemma position_out (i : nat) (m : node) :
  (reset <$> ns) !! i = Some m →
  ∃ a, a ∈ _calcTreeDepths localeCompare ns es ∧ id a = id m ∧ _depth a = final_depth (reset <$> ns) es i.
Proof.
  intros Hm. rewrite list_lookup_fmap in Hm.
  destruct (ns !! i) as [n|] eqn:Hn; [|done]. injection Hm as <-.
  destruct (calc_lookup localeCompare ns es i n Hn) as (a & Ha & Hr).
  exists a. split; [by eapply list_elem_of_lookup_2|]. split; [exact (f_equal id Hr)|].
  rewrite <- (calc_dix localeCompare) by (by intros ->). symmetry. by apply dix_lookup.
Qed.

Lemma no_incoming_candidate (i : nat) (m : node) :
  (reset <$> ns) !! i = Some m →
  i ∈ candidates (reset <$> ns) es ↔ GraphStoreFacts.no_incoming es (id m).
Proof.
  intros Hm. rewrite candidates_elem. split.
  - intros (n & Hn & Hinc). assert (n = m) as -> by congruence.
    rewrite incoming_zero in Hinc. intros e He. apply Hinc; [done|].
    by apply reset_edges_ok.
  - intros Hno. exists m. split; [done|]. apply incoming_zero. intros e He _.
    by apply Hno.
Qed.

(** X9: the nodes of depth [0] are the nodes without incoming edge, and the
    first node of the array when every node has an incoming edge. *)
Theorem depth_zero_iff_root (a : node) :
  a ∈ _calcTreeDepths localeCompare ns es →
  _depth a = 0%Z ↔
  GraphStoreFacts.no_incoming es (id a) ∨
  ((∀ n, n ∈ ns → ¬ GraphStoreFacts.no_incoming es (id n)) ∧
   ∃ n0, head ns = Some n0 ∧ id a = id n0).
Proof.
  intros Ha. destruct (out_position a Ha) as (i & Hi & -> & Hlt).
  pose proof Hi as Hi'. apply index_map_Some in Hi' as (m & Hm & Hid).
  rewrite (final_zero_iff (reset <$> ns) es reset_NoDup (reset_all ns) reset_edges_ok i)
    by (by rewrite length_fmap).
  rewrite roots_eq. rewrite <- Hid.
  destruct (candidates (reset <$> ns) es) as [|c l] eqn:Hc.
  - assert (∀ n, n ∈ ns → ¬ GraphStoreFacts.no_incoming es (id n)) as Hnone.
    { intros n [j Hj]%list_elem_of_lookup Hno.
      assert (j ∈ candidates (reset <$> ns) es) as Hin.
      { apply (no_incoming_candidate j (reset n)); [|done].
        by rewrite list_lookup_fmap, Hj. }
      rewrite Hc in Hin. by apply elem_of_nil in Hin. }
    destruct (reset <$> ns) as [|m0 l0] eqn:HR.
    { apply (f_equal length) in HR. rewrite length_fmap in HR. simpl in HR. lia. }
    rewrite <- HR in *. clear HR m0 l0. split.
    + intros ->%list_elem_of_singleton. right. split; [done|]. rewrite head_lookup.
      rewrite list_lookup_fmap in Hm. destruct (ns !! 0%nat) as [n0|]; [|done].
      exists n0. split; [done|]. by injection Hm as <-.
    + intros [Hno|[_ (n0 & Hh & Heq)]].
      * exfalso. rewrite list_lookup_fmap in Hm.
        destruct (ns !! i) as [n|] eqn:Hn; [|done]. injection Hm as <-.
        apply (Hnone n); [by eapply list_elem_of_lookup_2 | done].
      * rewrite head_lookup in Hh. apply list_elem_of_singleton.
        apply (NoDup_ids_lookup (reset <$> ns) i 0 m (reset n0)); try done.
        -- apply reset_NoDup.
        -- by rewrite list_lookup_fmap, Hh.
  - rewrite <- Hc. rewrite (no_incoming_candidate i m Hm). split; [by left|].
    intros [Hno|[Hnone _]]; [done|]. exfalso.
    assert (c ∈ candidates (reset <$> ns) es) as Hin by (rewrite Hc; by left).
    pose proof Hin as Hin'. apply candidates_elem in Hin' as (n & Hn & _).
    apply (no_incoming_candidate c n Hn) in Hin.
    rewrite list_lookup_fmap in Hn. destruct (ns !! c) as [n'|] eqn:Hn'; [|done].
    injection Hn as <-. apply (Hnone n'); [by eapply list_elem_of_lookup_2 | done].
Qed.

Lemma zero_root_position (r : node) (i : nat) :
  r ∈ _calcTreeDepths localeCompare ns es → _depth r = 0%Z → index_map (reset <$> ns) !! id r = Some i →
  i ∈ roots (reset <$> ns) es.
Proof.
  intros Hr H0 Hi. destruct (out_position r Hr) as (i' & Hi' & Hd & Hlt).
  assert (i' = i) as -> by congruence.
  apply (final_zero_iff (reset <$> ns) es reset_NoDup (reset_all ns) reset_edges_ok);
    [by rewrite length_fmap | congruence].
Qed.

Lemma root_position_out (i : nat) :
  i ∈ roots (reset <$> ns) es →
  ∃ r m, (reset <$> ns) !! i = Some m ∧ r ∈ _calcTreeDepths localeCompare ns es ∧ id r = id m ∧ _depth r = 0%Z.
Proof.
  intros Hi. pose proof (roots_lt _ es reset_NoDup (reset_all ns) i Hi) as Hlt.
  destruct (lookup_lt_is_Some_2 _ i Hlt) as [m Hm].
  destruct (position_out i m Hm) as (r & Hr & Hid & Hd).
  exists r, m. repeat split; try done. rewrite Hd.
  by apply (final_zero_iff (reset <$> ns) es reset_NoDup (reset_all ns) reset_edges_ok).
Qed.

(** X10: the depth of a node is its distance from the nodes of depth [0]: along
    a path of [k] edges the depth grows by [k] at most, and a node that can
    be reached from a node of depth [0] is the end of a path from such a
    node that has as many edges as the depth of the node. *)
Theorem depth_is_distance :
  (∀ a b k, a ∈ _calcTreeDepths localeCompare ns es → b ∈ _calcTreeDepths localeCompare ns es → walk es (id a) (id b) k →
     (_depth b ≤ _depth a + Z.of_nat k)%Z) ∧
  (∀ r b, r ∈ _calcTreeDepths localeCompare ns es → b ∈ _calcTreeDepths localeCompare ns es → _depth r = 0%Z →
     GraphStoreFacts.reachable es (id r) (id b) →
     ∃ r', r' ∈ _calcTreeDepths localeCompare ns es ∧ _depth r' = 0%Z ∧ walk es (id r') (id b) (Z.to_nat (_depth b))).
Proof.
  split.
  - intros a b k Ha Hb Hw.
    destruct (out_position a Ha) as (i & Hi & -> & _).
    destruct (out_position b Hb) as (j & Hj & -> & _).
    destruct (walk_depth (reset <$> ns) es reset_NoDup (reset_all ns) reset_edges_ok
                (id a) (id b) k i Hw Hi) as (j' & Hj' & Hle).
    by assert (j' = j) as <- by congruence.
  - intros r b Hr Hb H0 Hreach.
    destruct (out_position r Hr) as (i & Hi & _ & _).
    pose proof (zero_root_position r i Hr H0 Hi) as Hroot.
    destruct (index_map_Some _ _ _ Hi) as (nr & Hnr & Hidr).
    rewrite <- Hidr in Hreach.
    destruct (root_reachable_seen (reset <$> ns) es reset_NoDup (reset_all ns) reset_edges_ok
                i nr (id b) Hroot Hnr Hreach) as (j & Hj & Hseen).
    destruct (out_position b Hb) as (j' & Hj' & Hdb & _).
    assert (j' = j) as -> by congruence.
    destruct (final_seen (reset <$> ns) es j Hseen) as [Hfin _].
    pose proof (end_lower (reset <$> ns) es (reset_all ns) j Hseen) as Hnn.
    destruct (seen_walk (reset <$> ns) es reset_NoDup (reset_all ns)
                (Z.to_nat (_depth b)) j) as (r' & nr' & nj & Hr' & Hnr' & Hnj & Hw).
    { rewrite Hdb, Hfin. lia. }
    destruct (root_position_out r' Hr') as (a' & m & Hm & Ha' & Hida' & Hda').
    assert (m = nr') as -> by congruence.
    destruct (index_map_Some _ _ _ Hj) as (nj' & Hnj' & Hidj).
    assert (nj' = nj) as -> by congruence.
    exists a'. split; [done|]. split; [done|]. by rewrite Hida', <- Hidj.
Qed.

(** X11: with pairwise distinct ids and edges between nodes of the array
    (the hypotheses of this section), a node that cannot be reached from a
    node of depth [0] is placed one level below the deepest node that
    can. *)
Theorem unreachable_depth (b : node) :
  b ∈ _calcTreeDepths localeCompare ns es →
  (∀ r, r ∈ _calcTreeDepths localeCompare ns es → _depth r = 0%Z → ¬ GraphStoreFacts.reachable es (id r) (id b)) →
  (∀ c r, c ∈ _calcTreeDepths localeCompare ns es → r ∈ _calcTreeDepths localeCompare ns es → _depth r = 0%Z →
     GraphStoreFacts.reachable es (id r) (id c) → (_depth c < _depth b)%Z) ∧
  (∃ c r, c ∈ _calcTreeDepths localeCompare ns es ∧ r ∈ _calcTreeDepths localeCompare ns es ∧ _depth r = 0%Z ∧
     GraphStoreFacts.reachable es (id r) (id c) ∧ _depth b = (_depth c + 1)%Z).
Proof.
  intros Hb Hun.
  destruct (out_position b Hb) as (j & Hj & Hdb & Hlt).
  destruct (index_map_Some _ _ _ Hj) as (nj & Hnj & Hidj).
  assert (dix (bnodes (bfs_end (reset <$> ns) es)) j = (-1)%Z) as Hunseen.
  { destruct (decide (dix (bnodes (bfs_end (reset <$> ns) es)) j = (-1)%Z)) as [?|Hseen];
      [done | exfalso].
    pose proof (end_lower (reset <$> ns) es (reset_all ns) j Hseen) as Hnn.
    destruct (seen_walk (reset <$> ns) es reset_NoDup (reset_all ns)
                (Z.to_nat (dix (bnodes (bfs_end (reset <$> ns) es)) j)) j)
      as (r' & nr' & nj' & Hr' & Hnr' & Hnj' & Hw); [lia|].
    destruct (root_position_out r' Hr') as (a' & m & Hm & Ha' & Hida' & Hda').
    assert (m = nr') as -> by congruence.
    assert (nj' = nj) as -> by congruence.
    apply (Hun a' Ha' Hda'). rewrite Hida', <- Hidj.
    by eapply walk_reachable. }
  assert (_depth b = (max_depth (bnodes (bfs_end (reset <$> ns) es)) + 1)%Z) as Hmax.
  { rewrite Hdb. apply (final_unseen (reset <$> ns) es reset_NoDup (reset_all ns));
      [by rewrite length_fmap | done]. }
  split.
  - intros c r Hc Hr H0 Hreach.
    destruct (out_position r Hr) as (i & Hi & _ & _).
    pose proof (zero_root_position r i Hr H0 Hi) as Hroot.
    destruct (index_map_Some _ _ _ Hi) as (nr & Hnr & Hidr).
    rewrite <- Hidr in Hreach.
    destruct (root_reachable_seen (reset <$> ns) es reset_NoDup (reset_all ns) reset_edges_ok
                i nr (id c) Hroot Hnr Hreach) as (jc & Hjc & Hseen).
    destruct (out_position c Hc) as (jc' & Hjc' & Hdc & _).
    assert (jc' = jc) as -> by congruence.
    destruct (final_seen (reset <$> ns) es jc Hseen) as [_ Hle]. lia.
  - destruct (end_max_attained (reset <$> ns) es reset_NoDup (reset_all ns))
      as (jm & Hjm & Hseen).
    { apply reset_edges_ok. }
    { intros Hnil. rewrite Hnil in Hnj. by rewrite lookup_nil in Hnj. }
    pose proof (end_lower (reset <$> ns) es (reset_all ns) jm Hseen) as Hnn.
    destruct (seen_walk (reset <$> ns) es reset_NoDup (reset_all ns)
                (Z.to_nat (dix (bnodes (bfs_end (reset <$> ns) es)) jm)) jm)
      as (r' & nr' & nm & Hr' & Hnr' & Hnm & Hw); [lia|].
    destruct (root_position_out r' Hr') as (a' & m & Hm & Ha' & Hida' & Hda').
    assert (m = nr') as -> by congruence.
    destruct (position_out jm nm Hnm) as (c & Hc & Hidc & Hdc).
    destruct (final_seen (reset <$> ns) es jm Hseen) as [Hfin _].
    exists c, a'. repeat split; try done.
    + rewrite Hida', Hidc. by eapply walk_reachable.
    + lia.
Qed.

End DepthMeaning.

(** ** Further properties of the simulation *)

Section MoreForces.

Variable localeCompare : string → string → Z.
Variable sqrt : Q → Q.
Variable atan2 : Q → Q → Q.
Variables cos sin : Q → Q.
Variable PI : Q.

(** *** Which nodes are simulated *)

Lemma isHidden_more_fuel (ns : list node) nodeMap (fuel : nat) (c : node) (b : bool) :
  isHidden fuel ns nodeMap c = Some b → isHidden (S fuel) ns nodeMap c = Some b.
Proof.
  revert c. induction fuel as [|f IH]; intros c; rewrite !(isHidden_unfold ns nodeMap _ c);
    destruct (parent_of ns nodeMap c) as [[i p]|]; try done;
    destruct (collapsed p); try done.
  apply IH.
Qed.

Lemma active_from_elem (ns : list node) nodeMap (k : nat) (l : list node) (act : list nat) :
  active_from ns nodeMap k l = Some act →
  ∀ j n, l !! j = Some n →
    ∃ b, isHidden (length ns) ns nodeMap n = Some b ∧ ((k + j)%nat ∈ act ↔ b = false).
Proof.
  revert k act. induction l as [|a l IH]; intros k act; simpl; [by intros _ j n|].
  destruct (isHidden _ _ _ a) as [h|] eqn:Hh; [|done]. simpl.
  destruct (active_from ns nodeMap (S k) l) as [act'|] eqn:Hact; [|done]. simpl.
  intros [= <-] j n Hj.
  destruct (active_from_sorted _ _ _ _ _ Hact) as [_ Hge].
  destruct j as [|j]; simpl in Hj.
  - injection Hj as <-. exists h. split; [done|]. rewrite Nat.add_0_r. destruct h.
    + split; [|done]. intros Hk. specialize (Hge k Hk). lia.
    + split; [done|]. intros _. by left.
  - destruct (IH (S k) act' Hact j n Hj) as (b & Hb & Hiff). exists b. split; [done|].
    replace (k + S j)%nat with (S k + j)%nat by lia. rewrite <- Hiff. destruct h; [done|].
    split; [|by right]. intros [Heq|?]%elem_of_cons; [lia | done].
Qed.

(** X12: a node is simulated exactly when the walk up its parent chain stops
    at once (no parent id, or no node with that id), or when its parent is
    expanded and is simulated itself. *)
Theorem active_iff_parent_active (ns : list node) (act : list nat) (j : nat) (c : node) :
  _getActiveNodes ns = Some act →
  ns !! j = Some c →
  j ∈ act ↔
  match parent_of ns (index_map ns) c with
  | None => True
  | Some (i, p) => collapsed p = false ∧ i ∈ act
  end.
Proof.
  intros Hact Hj. unfold _getActiveNodes in Hact.
  destruct (active_from_elem _ _ _ _ _ Hact j c Hj) as (b & Hb & Hiff).
  simpl in Hiff. rewrite Hiff. clear Hiff.
  rewrite isHidden_unfold in Hb.
  destruct (parent_of ns (index_map ns) c) as [[i p]|] eqn:Hp.
  - assert (ns !! i = Some p) as Hi.
    { unfold parent_of in Hp.
      destruct (js_or (parentId c) None) as [q|]; simpl in Hp; [|done].
      destruct (index_map ns !! q) as [i'|]; simpl in Hp; [|done].
      destruct (ns !! i') eqn:Hi'; simpl in Hp; [|done]. congruence. }
    destruct (active_from_elem _ _ _ _ _ Hact i p Hi) as (b' & Hb' & Hiff').
    simpl in Hiff'. rewrite Hiff'.
    destruct (collapsed p).
    + injection Hb as <-. split; [done | by intros [? _]].
    + destruct (length ns) as [|f] eqn:Hlen; [done|].
      apply isHidden_more_fuel in Hb. rewrite <- Hlen in Hb.
      assert (b' = b) as -> by congruence. split; [done | by intros [_ ?]].
  - injection Hb as <-. done.
Qed.

(** *** Nodes that are not simulated are not touched *)

Definition same_outside (A : list nat) (l l' : list node) : Prop :=
  ∀ i, i ∉ A → l' !! i = l !! i.

Lemma same_outside_alter (A : list nat) (f : node → node) (j : nat) (l : list node) :
  j ∈ A → same_outside A l (alter f j l).
Proof.
  intros Hj i Hi. apply list_lookup_alter_ne. by intros ->.
Qed.

Lemma same_outside_foldl {X} (A : list nat) (f : list node → X → list node)
  (xs : list X) (l : list node) :
  (∀ l x, x ∈ xs → same_outside A l (f l x)) → same_outside A l (foldl f l xs).
Proof.
  revert l. induction xs as [|x xs IH]; intros l Hf; [done|]. cbn [foldl].
  intros i Hi. rewrite IH; [|intros; apply Hf; by right|done].
  apply Hf; [by left | done].
Qed.

Lemma pairs_elem (l : list nat) (p : nat * nat) : p ∈ pairs l → p.1 ∈ l ∧ p.2 ∈ l.
Proof.
  induction l as [|a l IH]; simpl; [by intros ?%elem_of_nil|].
  intros [(b & -> & Hb)%list_elem_of_fmap|Hp]%elem_of_app.
  - simpl. split; [by left | by right].
  - destruct (IH Hp). split; by right.
Qed.

Lemma repel_outside A al ns p : p.1 ∈ A → p.2 ∈ A → same_outside A ns (repel sqrt al ns p).
Proof.
  intros H1 H2. unfold repel. destruct (ns !! p.1); [|done]. destruct (ns !! p.2); [|done].
  intros i Hi. rewrite !list_lookup_alter_ne; [done | |];
    intros Heq; apply Hi; by rewrite <- Heq.
Qed.

Lemma collide_outside A ns p : p.1 ∈ A → p.2 ∈ A → same_outside A ns (collide sqrt ns p).
Proof.
  intros H1 H2. unfold collide. destruct (ns !! p.1); [|done]. destruct (ns !! p.2); [|done].
  destruct (Qlt_le_dec _ _); [|done].
  intros i Hi. rewrite !list_lookup_alter_ne; [done | |];
    intros Heq; apply Hi; by rewrite <- Heq.
Qed.

Lemma grid_node_outside A al grid ns i :
  i ∈ A → same_outside A ns (grid_node sqrt al grid ns i).
Proof.
  intros Hi. unfold grid_node. destruct (ns !! i) as [n|]; [|done].
  destruct (cell n) as [gx gy].
  apply same_outside_foldl. intros l o _.
  apply same_outside_foldl. intros l' m _.
  unfold grid_push. case_bool_decide; [done|].
  destruct (l' !! i); [|done]. destruct (l' !! m); [|done].
  by apply same_outside_alter.
Qed.

Lemma active_map_elem (ns : list node) (active : list nat) (s : string) (i : nat) :
  active_map ns active !! s = Some i → i ∈ active.
Proof.
  unfold active_map. intros H%elem_of_list_to_map_2.
  rewrite elem_of_reverse in H. apply list_elem_of_omap in H as (j & Hj & Hs).
  destruct (ns !! j); simpl in Hs; [|done]. by injection Hs as _ <-.
Qed.

Lemma spring_outside A al nodeMap ns e :
  (∀ s i, nodeMap !! s = Some i → i ∈ A) → same_outside A ns (spring sqrt al nodeMap ns e).
Proof.
  intros HA. unfold spring.
  destruct (nodeMap !! source e) as [s|] eqn:Hs; [|done].
  destruct (nodeMap !! target e) as [t|] eqn:Ht; [|done].
  destruct (ns !! s); [|done]. destruct (ns !! t); [|done].
  intros i Hi. rewrite !list_lookup_alter_ne; [done | | ]; intros ->; apply Hi;
    by eapply HA.
Qed.

Lemma for_active_outside (f : node → node) active ns :
  same_outside active ns (for_active f active ns).
Proof.
  unfold for_active. apply same_outside_foldl. intros l i Hi.
  by apply same_outside_alter.
Qed.

Lemma same_outside_trans A l1 l2 l3 :
  same_outside A l1 l2 → same_outside A l2 l3 → same_outside A l1 l3.
Proof. intros H1 H2 i Hi. by rewrite H2, H1. Qed.

Lemma forces_outside md al es active ns :
  same_outside active ns (forces sqrt atan2 cos sin PI md al es active ns).
Proof.
  destruct active as [|a active]; [done|]. set (act := a :: active).
  unfold forces. fold act.
  assert (same_outside act ns (repulsion sqrt al act ns)) as H1.
  { unfold repulsion. case_bool_decide.
    - apply same_outside_foldl. intros l p [? ?]%pairs_elem. by apply repel_outside.
    - unfold _gridRepulsion. apply same_outside_foldl. intros l i Hi.
      by apply grid_node_outside. }
  assert (∀ l, same_outside act l (springs sqrt al es act l)) as H2.
  { intros l. unfold springs. apply same_outside_foldl. intros l' e _.
    apply spring_outside. apply active_map_elem. }
  assert (∀ l, same_outside act l (centering md al act l)) as H3.
  { intros l. unfold centering. destruct (String.eqb md "free"); [|done].
    apply for_active_outside. }
  assert (∀ l, same_outside act l (collisions sqrt act l)) as H5.
  { intros l. unfold collisions. apply same_outside_foldl.
    intros l' p [? ?]%pairs_elem. by apply collide_outside. }
  pose proof (same_outside_trans _ _ _ _ (same_outside_trans _ _ _ _ H1 (H2 _)) (H3 _)) as H123.
  cbv zeta. destruct (String.eqb md "strict").
  - eapply same_outside_trans; [exact H123 | apply for_active_outside].
  - eapply same_outside_trans; [|apply for_active_outside].
    eapply same_outside_trans; [|apply H5].
    destruct (String.eqb md "radial"); [|exact H123].
    eapply same_outside_trans; [exact H123 | apply for_active_outside].
Qed.

(** X13: a tick leaves every node that is hidden below a collapsed ancestor
    exactly as it is: position, velocity and everything else. *)
Theorem tick_leaves_hidden_nodes (st st' : engine) (active : list nat) (i : nat) :
  _getActiveNodes (nodes st) = Some active →
  i ∉ active →
  _tick sqrt atan2 cos sin PI st = Some st' →
  nodes st' !! i = nodes st !! i.
Proof.
  intros Hact Hi. unfold _tick.
  destruct (negb (running st) || _) eqn:Hrest.
  - intros [= <-]. unfold call_onTick. simpl. by destruct (onTick st).
  - unfold _applyForces. rewrite Hact. simpl. intros [= <-].
    unfold call_onTick, with_nodes. simpl.
    destruct (onTick st); simpl; by apply forces_outside.
Qed.

(** *** Strict mode is static *)

(** What a tick in strict mode keeps of a node: the pin, and the position
    when there is no pin. *)
Definition resting (n : node) : option Q * option Q * option (option Q * option Q) :=
  (fx n, fy n, match fx n with Some _ => None | None => Some (x n, y n) end).

Lemma forces_strict_resting al es active ns :
  resting <$> forces sqrt atan2 cos sin PI "strict" al es active ns = resting <$> ns.
Proof.
  destruct active as [|a active]; [done|]. rewrite forces_eq.
  rewrite (for_active_frame resting).
  - by apply before_integration_frame.
  - intros n. cbn [String.eqb Ascii.eqb Bool.eqb]. unfold strict_snap, resting.
    destruct (fx n) eqn:Hfx; [|by rewrite Hfx]. simpl. by rewrite Hfx.
Qed.

(** X14: in strict mode a tick moves no node that has no pin, whatever the
    energy: only the velocities take up the forces. *)
Theorem strict_tick_moves_no_node (st st' : engine) (i : nat) (n : node) :
  mode st = "strict" →
  _tick sqrt atan2 cos sin PI st = Some st' →
  nodes st !! i = Some n →
  fx n = None →
  ∃ n', nodes st' !! i = Some n' ∧ x n' = x n ∧ y n' = y n.
Proof.
  intros Hmode Htick Hn Hfx.
  assert (resting <$> nodes st' = resting <$> nodes st) as Hrest.
  { unfold _tick in Htick. destruct (negb (running st) || _).
    - injection Htick as <-. unfold call_onTick. simpl. by destruct (onTick st).
    - unfold _applyForces in Htick.
      destruct (_getActiveNodes (nodes st)) as [active|]; [|done]. simpl in Htick.
      injection Htick as <-. unfold call_onTick, with_nodes. simpl.
      rewrite Hmode. destruct (onTick st); simpl; apply forces_strict_resting. }
  apply (f_equal (λ l, l !! i)) in Hrest. rewrite !list_lookup_fmap, Hn in Hrest.
  destruct (nodes st' !! i) as [n'|]; [|done]. exists n'. split; [done|].
  simpl in Hrest. unfold resting in Hrest. rewrite Hfx in Hrest.
  destruct (fx n'); [congruence|]. split; congruence.
Qed.

(** *** The bounds of [clamp] *)

Lemma clamp_bounds (v lo hi : Q) : (lo <= hi)%Q → (lo <= clamp v lo hi <= hi)%Q.
Proof.
  intros Hle. unfold clamp. split.
  - apply Q.le_max_l.
  - apply Q.max_lub; [done | apply Q.le_min_l].
Qed.

(** *** Stopping and restarting *)

(** X16: [stop()] cancels the pending frame: the engine is idle, no later frame
    runs a tick, the nodes stay where they are, and the callback is not
    called, not even for a final tick. *)
Theorem stop_cancels_ticks (st : engine) (k : nat) :
  frames sqrt atan2 cos sin PI k (stop st) = Some (stop st) ∧
  running (stop st) = false ∧ nodes (stop st) = nodes st ∧
  ticklog (stop st) = ticklog st.
Proof.
  split; [|done]. induction k as [|k IH]; [done|].
  cbn [frames]. by rewrite frame_idle.
Qed.

(** X17: [reheat(0)], the call that the application makes in strict mode: the
    depths are recomputed, no force is applied and no node moves.  An idle
    engine is idle again when the call returns, after one final call of the
    callback; a running engine comes to rest in its next frame. *)
Theorem reheat_zero_moves_nothing (st : engine) :
  (running st = true → _raf st = true) →
  ∃ st1,
    reheat localeCompare sqrt atan2 cos sin PI 0 st = Some st1 ∧
    nodes st1 = _calcTreeDepths localeCompare (nodes st) (edges st) ∧
    (running st = false →
     running st1 = false ∧ (onTick st = true → ticklog st1 = true :: ticklog st)) ∧
    (running st = true →
     ∃ st2, frame sqrt atan2 cos sin PI st1 = Some st2 ∧
            running st2 = false ∧ nodes st2 = nodes st1 ∧
            (onTick st = true → ticklog st2 = true :: ticklog st)).
Proof.
  intros Hraf. unfold reheat. cbn [running].
  assert (0 < cfg_alphaMin)%Q as Hmin by done.
  destruct (running st) eqn:Hrun.
  - specialize (Hraf eq_refl). eexists. split; [reflexivity|]. split; [done|].
    split; [done|]. intros _.
    destruct (frame_rests sqrt atan2 cos sin PI
                (mkEngine (_calcTreeDepths localeCompare (nodes st) (edges st))
                   (edges st) 0 true (_raf st) (mode st) (onTick st) (ticklog st)))
      as (st2 & Hst2 & Hr & _ & _ & Hn & Hlog); try done.
    exists st2. repeat split; done.
  - unfold start. cbn [running]. unfold _tick. cbn.
    destruct (Qlt_le_dec 0 cfg_alphaMin) as [_|Hle].
    2:{ exfalso. by apply (Qlt_not_le _ _ Hmin). }
    eexists. split; [reflexivity|]. unfold call_onTick. cbn.
    destruct (onTick st); cbn; repeat split; done.
Qed.

End MoreForces.

(** ** What the depth pass depends on *)

Section Core.

Variable localeCompare : string → string → Z.

(** The fields that the depth pass reads or writes. *)
Definition core (n : node) : string * string * (Z * Z * bool) * (Z * Z) :=
  (id n, name n, (_depth n, _vIndex n, _visited n), (_vCount n, _maxDepth n)).

Lemma foldl_rel {A B C} (R : A → B → Prop) (f : A → C → A) (g : B → C → B)
  (l : list C) (a : A) (b : B) :
  R a b → (∀ a b c, R a b → R (f a c) (g b c)) → R (foldl f a l) (foldl g b l).
Proof.
  revert a b. induction l as [|c l IH]; intros a b Hab Hfg; [done|].
  cbn [foldl]. apply IH; [by apply Hfg | done].
Qed.

Lemma core_lookup (l l' : list node) (i : nat) :
  core <$> l = core <$> l' →
  match l !! i, l' !! i with
  | Some n, Some n' => core n = core n'
  | None, None => True
  | _, _ => False
  end.
Proof.
  intros H. apply (f_equal (λ l, l !! i)) in H. rewrite !list_lookup_fmap in H.
  destruct (l !! i), (l' !! i); simpl in H; try done. congruence.
Qed.

Lemma core_alter (f g : node → node) (i : nat) (l l' : list node) :
  core <$> l = core <$> l' →
  (∀ n n', core n = core n' → core (f n) = core (g n')) →
  core <$> alter f i l = core <$> alter g i l'.
Proof.
  intros H Hfg. revert i l' H.
  induction l as [|a l IH]; intros i [|a' l'] H; try done.
  rewrite !fmap_cons in H. assert (core a = core a' ∧ core <$> l = core <$> l') as [Ha Hl]
    by (split; congruence).
  destruct i as [|i]; cbn [alter list_alter fmap list_fmap].
  - rewrite (Hfg a a' Ha). f_equal. exact Hl.
  - rewrite Ha. f_equal. by apply IH.
Qed.

Lemma core_fmap (f g : node → node) (l l' : list node) :
  core <$> l = core <$> l' →
  (∀ n n', core n = core n' → core (f n) = core (g n')) →
  core <$> (f <$> l) = core <$> (g <$> l').
Proof.
  intros H Hfg. revert l' H.
  induction l as [|a l IH]; intros [|a' l'] H; try done.
  rewrite !fmap_cons in H. assert (core a = core a' ∧ core <$> l = core <$> l') as [Ha Hl]
    by (split; congruence).
  rewrite !fmap_cons. rewrite (Hfg a a' Ha). f_equal. by apply IH.
Qed.

Lemma core_ids (l l' : list node) : core <$> l = core <$> l' → id <$> l = id <$> l'.
Proof.
  intros H. apply (f_equal (fmap (λ c : string * string * (Z * Z * bool) * (Z * Z), c.1.1.1))) in H.
  by rewrite <- !list_fmap_compose in H.
Qed.

Lemma core_length (l l' : list node) : core <$> l = core <$> l' → length l = length l'.
Proof. intros H. by rewrite <- (length_fmap core l), H, length_fmap. Qed.

Lemma index_map_ids (l l' : list node) : id <$> l = id <$> l' → index_map l = index_map l'.
Proof.
  intros H. unfold index_map. f_equal. f_equal.
  transitivity (imap (λ i (s : string), (s, i)) (id <$> l)).
  - by rewrite imap_fmap.
  - rewrite H. by rewrite imap_fmap.
Qed.

Lemma adjacency_ids (l l' : list node) (es : list edge) :
  id <$> l = id <$> l' → adjacency l es = adjacency l' es.
Proof.
  intros H. unfold adjacency. rewrite (index_map_ids _ _ H). f_equal.
  generalize (∅ : gmap string (list string), ∅ : gmap string Z).
  revert l' H. induction l as [|a l IH]; intros [|a' l'] H acc; try done.
  rewrite !fmap_cons in H. cbn [foldl].
  assert (id a = id a' ∧ id <$> l = id <$> l') as [-> Hl] by (split; congruence).
  by apply IH.
Qed.

Lemma roots_scan_ids (inc : gmap string Z) (k : nat) (l l' : list node) :
  id <$> l = id <$> l' →
  omap (λ '(i, n), if (default 0 (inc !! id n) =? 0)%Z then Some i else None)
       (imap (λ i n, ((k + i)%nat, n)) l)
  = omap (λ '(i, n), if (default 0 (inc !! id n) =? 0)%Z then Some i else None)
       (imap (λ i n, ((k + i)%nat, n)) l').
Proof.
  revert k l'. induction l as [|a l IH]; intros k [|a' l'] H; try done.
  rewrite !fmap_cons in H.
  assert (id a = id a' ∧ id <$> l = id <$> l') as [Ha Hl] by (split; congruence).
  assert (∀ l0 : list node,
            imap ((λ i n, ((k + i)%nat, n)) ∘ S) l0 = imap (λ i n, ((S k + i)%nat, n)) l0)
    as Hs.
  { intros l0. apply imap_ext. intros i x _. simpl. f_equal. lia. }
  cbn [imap list_omap omap]. rewrite !Hs, Ha. by rewrite (IH (S k) l' Hl).
Qed.

Lemma find_roots_ids (inc : gmap string Z) (l l' : list node) :
  id <$> l = id <$> l' → find_roots inc l = find_roots inc l'.
Proof.
  intros H. unfold find_roots.
  assert (∀ l0 : list node, imap pair l0 = imap (λ i n, ((0 + i)%nat, n)) l0) as H0.
  { intros l0. by apply imap_ext. }
  rewrite !H0, (roots_scan_ids inc 0 l l' H).
  destruct l, l'; done.
Qed.

(** *** Two runs on node arrays with the same core *)

Ltac core_eq := unfold core in *; simpl in *; congruence.

Definition bfs_sim (st st' : bfs_state) : Prop :=
  core <$> bnodes st = core <$> bnodes st' ∧
  bfsVisited st = bfsVisited st' ∧ queue st = queue st'.

Lemma bfs_root_sim st st' r : bfs_sim st st' → bfs_sim (bfs_root st r) (bfs_root st' r).
Proof.
  intros (Hn & Hv & Hq). unfold bfs_root.
  pose proof (core_lookup _ _ r Hn) as Hr.
  destruct (bnodes st !! r) as [n|], (bnodes st' !! r) as [n'|]; try done.
  split; [|split]; cbn [bnodes bfsVisited queue].
  - apply core_alter; [done|]. intros m m' Hm. core_eq.
  - assert (id n = id n') as -> by core_eq. by rewrite Hv.
  - by rewrite Hq.
Qed.

Lemma bfs_child_sim nodeMap curr st st' c :
  bfs_sim st st' → bfs_sim (bfs_child nodeMap curr st c) (bfs_child nodeMap curr st' c).
Proof.
  intros (Hn & Hv & Hq). unfold bfs_child. rewrite <- Hv.
  case_bool_decide; [done|].
  destruct (nodeMap !! c) as [p|]; [|done].
  pose proof (core_lookup _ _ curr Hn) as Hc.
  destruct (bnodes st !! curr) as [cn|], (bnodes st' !! curr) as [cn'|]; try done.
  assert (_depth cn = _depth cn') as Hd by core_eq.
  split; [|split]; cbn [bnodes bfsVisited queue].
  - rewrite Hd. apply core_alter; [done|]. intros m m' Hm. core_eq.
  - done.
  - by rewrite Hq.
Qed.

Lemma bfs_step_sim nodeMap childrenMap curr rest st st' :
  bfs_sim st st' →
  bfs_sim (bfs_step nodeMap childrenMap curr rest st)
          (bfs_step nodeMap childrenMap curr rest st').
Proof.
  intros (Hn & Hv & Hq). unfold bfs_step.
  pose proof (core_lookup _ _ curr Hn) as Hc.
  destruct (bnodes st !! curr) as [cn|], (bnodes st' !! curr) as [cn'|]; try done.
  assert (id cn = id cn') as -> by core_eq.
  apply (foldl_rel bfs_sim); [done|]. intros a b c Hab. by apply bfs_child_sim.
Qed.

Lemma bfs_loop_sim fuel nodeMap childrenMap st st' :
  bfs_sim st st' →
  bfs_sim (bfs_loop fuel nodeMap childrenMap st) (bfs_loop fuel nodeMap childrenMap st').
Proof.
  revert st st'. induction fuel as [|f IH]; intros st st' H; simpl; [done|].
  pose proof H as (_ & _ & Hq). rewrite <- Hq.
  destruct (queue st); [done|]. by apply IH, bfs_step_sim.
Qed.

Lemma max_depth_core (l l' : list node) :
  core <$> l = core <$> l' → max_depth l = max_depth l'.
Proof.
  unfold max_depth. generalize 0%Z. revert l'.
  induction l as [|a l IH]; intros [|a' l'] m H; try done.
  rewrite !fmap_cons in H.
  assert (core a = core a' ∧ core <$> l = core <$> l') as [Ha Hl] by (split; congruence).
  cbn [foldl]. assert (_depth a = _depth a') as -> by core_eq. by apply IH.
Qed.

Lemma fallback_core (l l' : list node) :
  core <$> l = core <$> l' → core <$> fallback l = core <$> fallback l'.
Proof.
  intros H. unfold fallback. rewrite (max_depth_core _ _ H).
  apply core_fmap; [done|]. intros n n' Hn.
  assert (_depth n = _depth n') as -> by core_eq.
  destruct (_ =? _)%Z; core_eq.
Qed.

Lemma after_bfs_core (l l' : list node) (es : list edge) :
  core <$> l = core <$> l' → core <$> after_bfs l es = core <$> after_bfs l' es.
Proof.
  intros H. pose proof (core_ids _ _ H) as Hids. unfold after_bfs.
  rewrite <- (adjacency_ids _ _ es Hids), <- (index_map_ids _ _ Hids).
  rewrite <- (find_roots_ids _ _ _ Hids), <- (core_length _ _ H).
  apply fallback_core.
  apply bfs_loop_sim. apply (foldl_rel bfs_sim); [done|].
  intros a b r Hab. by apply bfs_root_sim.
Qed.

Definition dfs_sim (s s' : list node * gmap Z Z) : Prop :=
  core <$> s.1 = core <$> s'.1 ∧ s.2 = s'.2.

Lemma insert_sorted_core (l l' : list node) (a : nat) (ks : list nat) :
  core <$> l = core <$> l' →
  insert_sorted localeCompare l a ks = insert_sorted localeCompare l' a ks.
Proof.
  intros H. induction ks as [|b ks IH]; [done|]. simpl.
  pose proof (core_lookup _ _ a H) as Ha. pose proof (core_lookup _ _ b H) as Hb.
  destruct (l !! a) as [na|], (l' !! a) as [na'|]; try done;
    destruct (l !! b) as [nb|], (l' !! b) as [nb'|]; try done.
  assert (name na = name na') as -> by core_eq.
  assert (name nb = name nb') as -> by core_eq.
  destruct (_ <=? _)%Z; [done|]. by rewrite IH.
Qed.

Lemma sort_by_name_core (l l' : list node) (ks : list nat) :
  core <$> l = core <$> l' →
  sort_by_name localeCompare l ks = sort_by_name localeCompare l' ks.
Proof.
  intros H. unfold sort_by_name. induction ks as [|a ks IH]; [done|].
  cbn [foldr]. rewrite IH. by apply insert_sorted_core.
Qed.

Lemma unvisited_core (l l' : list node) (c : nat) :
  core <$> l = core <$> l' → unvisited l c = unvisited l' c.
Proof.
  intros H. unfold unvisited. pose proof (core_lookup _ _ c H) as Hc.
  destruct (l !! c) as [n|], (l' !! c) as [n'|]; try done.
  assert (_visited n = _visited n') as -> by core_eq. done.
Qed.

Lemma visit_step_sim (f : nat) nodeMap childrenMap :
  (∀ nodeId s s', dfs_sim s s' →
     dfs_sim (visit localeCompare f nodeMap childrenMap nodeId s)
             (visit localeCompare f nodeMap childrenMap nodeId s')) →
  ∀ s s' c, dfs_sim s s' →
    dfs_sim (visit_node localeCompare f nodeMap childrenMap s c)
            (visit_node localeCompare f nodeMap childrenMap s' c).
Proof.
  intros IH s s' c Hs. unfold visit_node.
  pose proof (core_lookup _ _ c (proj1 Hs)) as Hc.
  destruct (s.1 !! c) as [cn|], (s'.1 !! c) as [cn'|]; try done.
  assert (id cn = id cn') as -> by core_eq. by apply IH.
Qed.

Lemma visit_sim fuel nodeMap childrenMap nodeId s s' :
  dfs_sim s s' →
  dfs_sim (visit localeCompare fuel nodeMap childrenMap nodeId s)
          (visit localeCompare fuel nodeMap childrenMap nodeId s').
Proof.
  revert nodeId s s'. induction fuel as [|f IH]; intros nodeId s s' Hs; [done|].
  pose proof Hs as [Hn Hl]. cbn [visit].
  destruct (nodeMap !! nodeId) as [i|]; [|done].
  pose proof (core_lookup _ _ i Hn) as Hi.
  destruct (s.1 !! i) as [nd|], (s'.1 !! i) as [nd'|]; try done.
  assert (_visited nd = _visited nd') as Hv by core_eq.
  assert (_depth nd = _depth nd') as Hd by core_eq.
  rewrite <- Hv, <- Hd, <- Hl. destruct (_visited nd); [done|].
  set (v := default 0%Z (s.2 !! _depth nd)).
  assert (core <$> alter (set_visit v) i s.1 = core <$> alter (set_visit v) i s'.1) as Hn1.
  { apply core_alter; [done|]. intros m m' Hm. core_eq. }
  rewrite <- (sort_by_name_core _ _ _ Hn1).
  rewrite <- (filter_ext_elem
                (λ c, Is_true (unvisited (alter (set_visit v) i s.1) c))
                (λ c, Is_true (unvisited (alter (set_visit v) i s'.1) c)))
    by (intros c _; by rewrite (unvisited_core _ _ c Hn1)).
  apply (foldl_rel dfs_sim); [done|].
  intros a b c Hab. by apply (visit_step_sim f nodeMap childrenMap IH).
Qed.

Lemma visit_node_sim fuel nodeMap childrenMap s s' c :
  dfs_sim s s' →
  dfs_sim (visit_node localeCompare fuel nodeMap childrenMap s c)
          (visit_node localeCompare fuel nodeMap childrenMap s' c).
Proof.
  apply visit_step_sim. intros nodeId a b. apply visit_sim.
Qed.

Lemma sweep_sim fuel nodeMap childrenMap s s' c :
  dfs_sim s s' →
  dfs_sim (sweep localeCompare fuel nodeMap childrenMap s c)
          (sweep localeCompare fuel nodeMap childrenMap s' c).
Proof.
  intros Hs. unfold sweep. rewrite <- (unvisited_core _ _ c (proj1 Hs)).
  destruct (unvisited s.1 c); [|done]. by apply visit_node_sim.
Qed.

Lemma after_dfs_core (l l' : list node) (es : list edge) :
  core <$> l = core <$> l' →
  dfs_sim (after_dfs localeCompare l es) (after_dfs localeCompare l' es).
Proof.
  intros H. pose proof (core_ids _ _ H) as Hids. unfold after_dfs.
  pose proof (after_bfs_core l l' es H) as Hbfs.
  rewrite <- (adjacency_ids _ _ es Hids), <- (index_map_ids _ _ Hids).
  rewrite <- (find_roots_ids _ _ _ Hids), <- (core_length _ _ H).
  rewrite <- (sort_by_name_core _ _ _ Hbfs).
  apply (foldl_rel dfs_sim); [|intros a b c Hab; by apply sweep_sim].
  apply (foldl_rel dfs_sim); [done | intros a b c Hab; by apply visit_node_sim].
Qed.

Lemma depth_counts_core (l l' : list node) :
  core <$> l = core <$> l' → depth_counts l = depth_counts l'.
Proof.
  unfold depth_counts. generalize (∅ : gmap Z Z). revert l'.
  induction l as [|a l IH]; intros [|a' l'] m H; try done.
  rewrite !fmap_cons in H.
  assert (core a = core a' ∧ core <$> l = core <$> l') as [Ha Hl] by (split; congruence).
  cbn [foldl]. assert (_depth a = _depth a') as -> by core_eq.
  assert (_vIndex a = _vIndex a') as -> by core_eq. by apply IH.
Qed.

Lemma annotate_core (l l' : list node) (es : list edge) :
  core <$> l = core <$> l' →
  core <$> annotate localeCompare l es = core <$> annotate localeCompare l' es.
Proof.
  intros H. rewrite !annotate_eq. unfold assign_counts.
  destruct (after_dfs_core l l' es H) as [Hn _].
  rewrite (max_depth_core _ _ (after_bfs_core l l' es H)).
  rewrite (depth_counts_core _ _ Hn).
  apply core_fmap; [done|]. intros n n' Hc.
  assert (_depth n = _depth n') as -> by core_eq. core_eq.
Qed.

(** The annotation of a node. *)
Definition ann (n : node) : Z * Z * bool * Z * Z :=
  (_depth n, _vIndex n, _visited n, _vCount n, _maxDepth n).

Lemma calc_names (ns ns' : list node) (es : list edge) :
  (λ n, (id n, name n)) <$> ns = (λ n, (id n, name n)) <$> ns' →
  ann <$> _calcTreeDepths localeCompare ns es = ann <$> _calcTreeDepths localeCompare ns' es.
Proof.
  intros H.
  assert (core <$> (reset <$> ns) = core <$> (reset <$> ns')) as Hc.
  { rewrite <- !list_fmap_compose.
    apply (f_equal (fmap (λ p : string * string, (p.1, p.2, (-1, 0, false), (1, 0))%Z))) in H.
    by rewrite <- !list_fmap_compose in H. }
  assert (core <$> _calcTreeDepths localeCompare ns es
          = core <$> _calcTreeDepths localeCompare ns' es) as Hout.
  { unfold _calcTreeDepths. destruct ns as [|n ns], ns' as [|n' ns']; try done.
    by apply annotate_core. }
  apply (f_equal (fmap (λ c : string * string * (Z * Z * bool) * (Z * Z),
                          (c.1.2.1.1, c.1.2.1.2, c.1.2.2, c.2.1, c.2.2)))) in Hout.
  by rewrite <- !list_fmap_compose in Hout.
Qed.

(** X18: the annotation that the depth pass computes depends on the ids and the
    names of the nodes and on the edges, and on nothing else: not on the
    positions, not on [parentId], and not on annotations left by an
    earlier run. *)
Theorem calcTreeDepths_reads_ids_and_names (ns ns' : list node) (es : list edge) :
  (λ n, (id n, name n)) <$> ns = (λ n, (id n, name n)) <$> ns' →
  (λ n, (_depth n, _vIndex n, _visited n, _vCount n, _maxDepth n))
    <$> _calcTreeDepths localeCompare ns es
  = (λ n, (_depth n, _vIndex n, _visited n, _vCount n, _maxDepth n))
    <$> _calcTreeDepths localeCompare ns' es.
Proof. apply calc_names. Qed.

(** *** The strict layout is idempotent *)

Lemma node_ext (n m : node) : reset n = reset m → ann n = ann m → n = m.
Proof.
  destruct n, m. unfold reset, ann. simpl. intros H1 H2.
  injection H1 as -> -> -> -> -> -> -> -> -> -> ->.
  injection H2 as -> -> -> -> ->. done.
Qed.

Lemma nodes_ext (l l' : list node) :
  reset <$> l = reset <$> l' → ann <$> l = ann <$> l' → l = l'.
Proof.
  revert l'. induction l as [|a l IH]; intros [|a' l'] H1 H2; try done.
  rewrite !fmap_cons in H1. rewrite !fmap_cons in H2.
  assert (reset a = reset a' ∧ reset <$> l = reset <$> l') as [Ha Hl] by (split; congruence).
  assert (ann a = ann a' ∧ ann <$> l = ann <$> l') as [Ha' Hl'] by (split; congruence).
  f_equal; [by apply node_ext | by apply IH].
Qed.

Lemma place_twice (only : bool) (n : node) : place only (place only n) = place only n.
Proof.
  unfold place. destruct (only && hasPos n) eqn:Hn; [by rewrite Hn|].
  match goal with |- (if ?c then _ else _) = _ => destruct c end; [done|].
  by destruct n.
Qed.

Lemma place_ann (only : bool) (n : node) :
  ann (place only n) = ann n ∧ id (place only n) = id n ∧ name (place only n) = name n.
Proof. unfold place. by destruct (only && hasPos n). Qed.

(** X19: a second call of [applyStrictLayout] with the same options changes
    nothing: the depth pass finds the annotation it left, and every node is
    already where the layout puts it. *)
Theorem applyStrictLayout_idempotent (o : opts) (st : engine) :
  applyStrictLayout localeCompare o (applyStrictLayout localeCompare o st)
    = applyStrictLayout localeCompare o st.
Proof.
  destruct (nodes st) as [|n0 l0] eqn:Hns.
  { unfold applyStrictLayout. by rewrite !Hns. }
  set (only := bool_decide (onlyUnpositioned o = Some true)).
  set (out := _calcTreeDepths localeCompare (nodes st) (edges st)).
  remember (place only <$> out) as l1 eqn:Hl1.
  assert (applyStrictLayout localeCompare o st = with_nodes l1 st) as Hinner.
  { unfold applyStrictLayout. fold only. rewrite Hns, Hl1. unfold out. by rewrite Hns. }
  assert (_calcTreeDepths localeCompare l1 (edges st) = l1) as Hfix.
  { apply nodes_ext; [apply calc_frame|].
    transitivity (ann <$> out).
    - apply calc_names. rewrite Hl1. unfold out. rewrite <- list_fmap_compose.
      pose proof (calc_frame localeCompare (nodes st) (edges st)) as Hf.
      apply (f_equal (fmap (λ n, (id n, name n)))) in Hf.
      rewrite <- !list_fmap_compose in Hf.
      etrans; [|exact Hf]. apply list_fmap_ext. intros i n _. simpl.
      by destruct (place_ann only n) as (_ & -> & ->).
    - rewrite Hl1. rewrite <- list_fmap_compose. apply list_fmap_ext.
      intros i n _. simpl. by destruct (place_ann only n) as (-> & _). }
  assert (place only <$> l1 = l1) as Hplace.
  { rewrite Hl1. rewrite <- list_fmap_compose. apply list_fmap_ext.
    intros i n _. apply place_twice. }
  rewrite Hinner. unfold applyStrictLayout. fold only.
  unfold with_nodes. cbn [nodes edges alpha running _raf mode onTick ticklog].
  destruct l1 as [|a1 l1']; [done|]. by rewrite Hfix, Hplace.
Qed.

End Core.

(** ** Examples *)

(** C8, counterexample.  A settled strict layout of "root" and its child
    "A", to which one node without position is added.  The call
    [applyStrictLayout(true)] reads no flag from the boolean and lays out
    every node: with the new child "B" of "root", the node "A" moves from
    (300, 0) to (300, -50).  And with the flag, a node that sits at the
    origin counts as not positioned: with a new node "N" that has no edge,
    "root" moves from (0, 0) to (0, 50). *)
Definition settled_tree : engine :=
  applyStrictLayout some_order (opts_of arg_undefined)
    (mkEngine
       [ mkNode "root" "root" None false None None None 0 0 None None 0 0 false 0 0;
         mkNode "A" "A" (Some "root") false None None None 0 0 None None 0 0 false 0 0 ]
       [ mkEdge "root->A" "root" "A" ] 0 false false "strict" false []).

Definition grown_tree (n : node) (es : list edge) : engine :=
  mkEngine (nodes settled_tree ++ [n]) (edges settled_tree ++ es)
    0 false false "strict" false [].

Lemma applyStrictLayout_true_moves_settled_nodes :
  ¬ (∀ st i n, nodes st !! i = Some n → hasPos n = true →
       ∃ n', nodes (applyStrictLayout some_order (opts_of (arg_boolean true)) st) !! i
               = Some n' ∧
             x n' = x n ∧ y n' = y n) ∧
  ¬ (∀ st i n, nodes st !! i = Some n → is_Some (x n) → is_Some (y n) →
       ∃ n', nodes (applyStrictLayout some_order {| onlyUnpositioned := Some true |} st) !! i
               = Some n' ∧
             x n' = x n ∧ y n' = y n).
Proof.
  split; intros H.
  - set (st := grown_tree
                 (mkNode "B" "B" (Some "root") false None None None 0 0 None None 0 0 false 0 0)
                 [ mkEdge "root->B" "root" "B" ]).
    destruct (nodes st !! 1%nat) as [a|] eqn:Ha; [|vm_compute in Ha; discriminate].
    destruct (H st 1%nat a Ha) as (a' & Ha' & _ & Hy).
    { vm_compute in Ha. injection Ha as <-. reflexivity. }
    vm_compute in Ha, Ha'. injection Ha as <-. injection Ha' as <-. discriminate Hy.
  - set (st := grown_tree
                 (mkNode "N" "N" None false None None None 0 0 None None 0 0 false 0 0) []).
    destruct (nodes st !! 0%nat) as [a|] eqn:Ha; [|vm_compute in Ha; discriminate].
    destruct (H st 0%nat a Ha) as (a' & Ha' & _ & Hy).
    { vm_compute in Ha. injection Ha as <-. by eexists. }
    { vm_compute in Ha. injection Ha as <-. by eexists. }
    vm_compute in Ha, Ha'. injection Ha as <-. injection Ha' as <-. discriminate Hy.
Qed.

(** A root "R" with one child, and two nodes "X" and "Y" that point at each
    other and that no root reaches. *)
Definition island_nodes : list node :=
  [ mkNode "R" "R" None false None None None 0 0 None None 0 0 false 0 0;
    mkNode "A" "A" (Some "R") false None None None 0 0 None None 0 0 false 0 0;
    mkNode "X" "X" (Some "Y") false None None None 0 0 None None 0 0 false 0 0;
    mkNode "Y" "Y" (Some "X") false None None None 0 0 None None 0 0 false 0 0 ].

Definition island_edges : list edge :=
  [ mkEdge "R-A" "R" "A"; mkEdge "X-Y" "X" "Y"; mkEdge "Y-X" "Y" "X" ].

Definition island_out : list node :=
  [ mkNode "R" "R" None false None None None 0 0 None None 0 0 true 1 2;
    mkNode "A" "A" (Some "R") false None None None 0 0 None None 1 0 true 1 2;
    mkNode "X" "X" (Some "Y") false None None None 0 0 None None 2 0 true 2 2;
    mkNode "Y" "Y" (Some "X") false None None None 0 0 None None 2 1 true 2 2 ].

Lemma island_calc : _calcTreeDepths some_order island_nodes island_edges = island_out.
Proof. vm_compute. reflexivity. Qed.

Lemma island_NoDup : NoDup (ids island_nodes).
Proof. apply (bool_decide_unpack _). vm_compute. exact I. Qed.

Lemma island_edges_valid (e : edge) :
  e ∈ island_edges → source e ∈ ids island_nodes ∧ target e ∈ ids island_nodes.
Proof.
  unfold island_edges. rewrite !elem_of_cons, elem_of_nil.
  intros [->|[->|[->|[]]]]; split; unfold ids; simpl; pick_elem.
Qed.

(** Nothing outside of "R" and "A" can be reached from them. *)
Lemma island_closed (a b : string) :
  GraphStoreFacts.reachable island_edges a b → a = "R" ∨ a = "A" → b = "R" ∨ b = "A".
Proof.
  intros Hr Ha. induction Hr as [|e b Hr IH He Hs]; [done|].
  unfold island_edges in He. rewrite !elem_of_cons, elem_of_nil in He.
  destruct He as [->|[->|[->|[]]]]; simpl in *; [by right|..];
    destruct IH as [->| ->]; discriminate.
Qed.

Lemma calcTreeDepths_annotations_in_range_witness :
  let out := _calcTreeDepths some_order island_nodes island_edges in
  let a := mkNode "X" "X" (Some "Y") false None None None 0 0 None None 2 0 true 2 2 in
  (0 ≤ _depth a ≤ _maxDepth a)%Z ∧ (0 ≤ _vIndex a < _vCount a)%Z ∧
  (∀ b, b ∈ out → _maxDepth b = _maxDepth a) ∧
  (∃ b, b ∈ out ∧ _depth b = _maxDepth a).
Proof.
  intros out a.
  apply (calcTreeDepths_annotations_in_range some_order island_nodes island_edges a).
  rewrite island_calc. unfold island_out. pick_elem.
Defined.

Lemma calcTreeDepths_slots_witness :
  let out := _calcTreeDepths some_order island_nodes island_edges in
  (∀ a, a ∈ out →
     _visited a = true ∧
     _vCount a = Z.of_nat (length (filter (λ b, _depth b = _depth a) out))) ∧
  (∀ i j a b, out !! i = Some a → out !! j = Some b →
     _depth a = _depth b → _vIndex a = _vIndex b → i = j).
Proof.
  apply (calcTreeDepths_slots some_order island_nodes island_edges).
  apply island_NoDup.
Defined.

Definition island_engine : engine :=
  mkEngine island_nodes island_edges 0 false false "strict" false [].

Lemma applyStrictLayout_places_every_node_witness :
  let st' := applyStrictLayout some_order no_opts island_engine in
  (∀ i a, nodes st' !! i = Some a →
     x a = Some (inject_Z (_depth a) * 300)%Q ∧
     y a = Some (inject_Z (_vIndex a) * 100 - (inject_Z (_vCount a) - 1) * 100 / 2)%Q ∧
     vx a = 0%Q ∧ vy a = 0%Q) ∧
  (NoDup (ids (nodes island_engine)) →
   ∀ i j a b, nodes st' !! i = Some a → nodes st' !! j = Some b → i ≠ j →
     ¬ (num (x a) == num (x b) ∧ num (y a) == num (y b))%Q).
Proof.
  apply (applyStrictLayout_places_every_node some_order no_opts island_engine).
  discriminate.
Defined.

Lemma depth_zero_iff_root_witness :
  let a := mkNode "R" "R" None false None None None 0 0 None None 0 0 true 1 2 in
  _depth a = 0%Z ↔
  GraphStoreFacts.no_incoming island_edges (id a) ∨
  (∀ n, n ∈ island_nodes → ¬ GraphStoreFacts.no_incoming island_edges (id n)) ∧
  ∃ n0, head island_nodes = Some n0 ∧ id a = id n0.
Proof.
  intros a.
  apply (depth_zero_iff_root some_order island_nodes island_edges
           island_NoDup island_edges_valid a).
  rewrite island_calc. unfold island_out. pick_elem.
Defined.

Lemma depth_is_distance_witness :
  let out := _calcTreeDepths some_order island_nodes island_edges in
  (∀ a b k, a ∈ out → b ∈ out → walk island_edges (id a) (id b) k →
     (_depth b ≤ _depth a + Z.of_nat k)%Z) ∧
  (∀ r b, r ∈ out → b ∈ out → _depth r = 0%Z →
     GraphStoreFacts.reachable island_edges (id r) (id b) →
     ∃ r', r' ∈ out ∧ _depth r' = 0%Z ∧
           walk island_edges (id r') (id b) (Z.to_nat (_depth b))).
Proof.
  apply (depth_is_distance some_order island_nodes island_edges
           island_NoDup island_edges_valid).
Defined.

Lemma unreachable_depth_witness :
  let out := _calcTreeDepths some_order island_nodes island_edges in
  let b := mkNode "X" "X" (Some "Y") false None None None 0 0 None None 2 0 true 2 2 in
  (∀ c r, c ∈ out → r ∈ out → _depth r = 0%Z →
     GraphStoreFacts.reachable island_edges (id r) (id c) → (_depth c < _depth b)%Z) ∧
  (∃ c r, c ∈ out ∧ r ∈ out ∧ _depth r = 0%Z ∧
     GraphStoreFacts.reachable island_edges (id r) (id c) ∧
     _depth b = (_depth c + 1)%Z).
Proof.
  intros out b.
  apply (unreachable_depth some_order island_nodes island_edges
           island_NoDup island_edges_valid b).
  - unfold b. rewrite island_calc. unfold island_out. pick_elem.
  - intros r Hr Hd Hreach. rewrite island_calc in Hr. unfold island_out in Hr.
    rewrite !elem_of_cons, elem_of_nil in Hr.
    destruct Hr as [->|[->|[->|[->|[]]]]]; try discriminate Hd.
    destruct (island_closed _ _ Hreach); [by left | discriminate | discriminate].
Defined.

Lemma active_iff_parent_active_witness :
  1%nat ∈ [0%nat] ↔ collapsed closed_folder = false ∧ 0%nat ∈ [0%nat].
Proof.
  apply (active_iff_parent_active [closed_folder; pinned_node] [0%nat] 1 pinned_node).
  - vm_compute. reflexivity.
  - reflexivity.
Defined.

Lemma tick_leaves_hidden_nodes_witness :
  ∃ st', _tick no_math (λ a _, a) no_math no_math 3
           (running_engine closed_folder "free") = Some st' ∧
         nodes st' !! 1%nat = Some pinned_node.
Proof.
  eexists. split; [vm_compute; reflexivity|].
  apply (tick_leaves_hidden_nodes no_math (λ a _, a) no_math no_math 3
           (running_engine closed_folder "free") _ [0%nat] 1).
  - vm_compute. reflexivity.
  - intros [= ]%list_elem_of_singleton.
  - vm_compute. reflexivity.
Defined.

Lemma strict_tick_moves_no_node_witness :
  ∃ st', _tick no_math (λ a _, a) no_math no_math 3
           (running_engine open_folder "strict") = Some st' ∧
         ∃ n', nodes st' !! 0%nat = Some n' ∧ x n' = Some 10%Q ∧ y n' = Some 10%Q.
Proof.
  eexists. split; [vm_compute; reflexivity|].
  apply (strict_tick_moves_no_node no_math (λ a _, a) no_math no_math 3
           (running_engine open_folder "strict") _ 0 open_folder).
  - reflexivity.
  - vm_compute. reflexivity.
  - reflexivity.
  - reflexivity.
Defined.

Lemma reheat_zero_moves_nothing_witness :
  ∃ st1, reheat some_order no_math (λ a _, a) no_math no_math 3 0 settled_engine = Some st1 ∧
    nodes st1 = _calcTreeDepths some_order (nodes settled_engine) (edges settled_engine) ∧
    (running settled_engine = false →
       running st1 = false ∧
       (onTick settled_engine = true → ticklog st1 = true :: ticklog settled_engine)) ∧
    (running settled_engine = true →
       ∃ st2, frame no_math (λ a _, a) no_math no_math 3 st1 = Some st2 ∧
              running st2 = false ∧ nodes st2 = nodes st1 ∧
              (onTick settled_engine = true → ticklog st2 = true :: ticklog settled_engine)).
Proof.
  apply (reheat_zero_moves_nothing some_order no_math (λ a _, a) no_math no_math 3
           settled_engine).
  discriminate.
Defined.

Lemma calcTreeDepths_reads_ids_and_names_witness :
  let ann := λ n, (_depth n, _vIndex n, _visited n, _vCount n, _maxDepth n) in
  ann <$> _calcTreeDepths some_order [placed_node; new_node] (edges settled_engine) =
  ann <$> _calcTreeDepths some_order [open_folder; pinned_node] (edges settled_engine).
Proof.
  apply (calcTreeDepths_reads_ids_and_names some_order [placed_node; new_node]
           [open_folder; pinned_node] (edges settled_engine)).
  reflexivity.
Defined.

End ForceLayoutFacts.

(** * Properties of the utility functions *)

Module UtilsFacts.
Import ForceLayout Utils.

(** ** [clamp] *)

(** X20: [Utils.clamp(v, lo, hi)] with bounds in order returns a value within
    the bounds, the value itself when it is within them and the nearer
    bound otherwise; with the bounds the wrong way round it returns
    [lo]. *)
Theorem clamp_in_range (v lo hi : Q) :
  ((lo <= hi →
    lo <= clamp v lo hi <= hi ∧
    (lo <= v <= hi → clamp v lo hi == v) ∧
    (v < lo → clamp v lo hi == lo) ∧
    (hi < v → clamp v lo hi == hi)) ∧
   (hi < lo → clamp v lo hi == lo))%Q.
Proof.
  unfold clamp. split.
  - intros Hle. split; [|split; [|split]].
    + split; [apply Q.le_max_l | apply Q.max_lub; [done | apply Q.le_min_l]].
    + intros [H1 H2]. rewrite (Q.min_r hi v) by done. by apply Q.max_r.
    + intros Hv. apply Q.max_l. eapply Qle_trans; [apply Q.le_min_r | by apply Qlt_le_weak].
    + intros Hv. rewrite (Q.min_l hi v) by (by apply Qlt_le_weak). by apply Q.max_r.
  - intros Hlt. apply Q.max_l. eapply Qle_trans; [apply Q.le_min_l | by apply Qlt_le_weak].
Qed.

(** ** [hashStr] *)

Open Scope Z_scope.

Lemma toUint32_toInt32 (z : Z) : toUint32 (toInt32 z) = toUint32 z.
Proof.
  unfold toUint32, toInt32. rewrite Zminus_mod_idemp_l. f_equal. lia.
Qed.

Lemma toInt32_small (c : Z) : 0 ≤ c < 2 ^ 31 → toInt32 c = c.
Proof. intros Hc. unfold toInt32. rewrite Z.mod_small; lia. Qed.

Lemma lxor_mod (a c : Z) :
  0 ≤ c < 2 ^ 32 → Z.lxor a c mod 2 ^ 32 = Z.lxor (a mod 2 ^ 32) c.
Proof.
  intros Hc. apply Z.bits_inj'. intros n Hn.
  rewrite Z.lxor_spec, !Z.testbit_mod_pow2, Z.lxor_spec by lia.
  destruct (Z.ltb_spec n 32) as [Hlt|Hge]; [done|]. simpl.
  rewrite <- (Z.mod_small c (2 ^ 32)) by done.
  by rewrite Z.mod_pow2_bits_high by lia.
Qed.

(** One step of the loop, seen on unsigned 32-bit numbers: multiply by
    33, cut to 32 bits, and combine with the code unit. *)
Lemma hash_step_unsigned (h c : Z) :
  0 ≤ c < 2 ^ 16 →
  toUint32 (hash_step h c) = Z.lxor ((33 * toUint32 h) mod 2 ^ 32) c.
Proof.
  intros Hc. unfold hash_step, xor, shl.
  rewrite toUint32_toInt32, (toInt32_small c) by lia.
  unfold toUint32 at 1. rewrite lxor_mod by lia. f_equal.
  fold (toUint32 (toInt32 (toInt32 (Z.shiftl (toInt32 h) 5) + h))).
  rewrite toUint32_toInt32. unfold toUint32.
  rewrite <- Zplus_mod_idemp_l. fold (toUint32 (toInt32 (Z.shiftl (toInt32 h) 5))).
  rewrite toUint32_toInt32. unfold toUint32.
  rewrite Z.shiftl_mul_pow2 by lia.
  rewrite <- Zmult_mod_idemp_l. fold (toUint32 (toInt32 h)).
  rewrite toUint32_toInt32. unfold toUint32.
  rewrite Zmult_mod_idemp_l, Zplus_mod_idemp_l, Zmult_mod_idemp_r.
  f_equal. lia.
Qed.

Lemma hash_unsigned_from (h : Z) (str : list Z) :
  Forall (λ c, 0 ≤ c < 2 ^ 16) str →
  toUint32 (foldl hash_step h str)
    = foldl (λ u c, Z.lxor ((33 * u) mod 2 ^ 32) c) (toUint32 h) str.
Proof.
  intros Hstr. revert h. induction Hstr as [|c str Hc _ IH]; intros h; [done|].
  cbn [foldl]. rewrite IH. by rewrite hash_step_unsigned.
Qed.

(** X21: the loop of [hashStr], written on 32-bit signed integers, computes the
    multiply-by-33-and-xor hash on unsigned 32-bit numbers: the value that
    is printed is the result of that recurrence, started at 5381. *)
Theorem hashStr_is_times33_xor (str : list Z) :
  Forall (λ c, 0 ≤ c < 2 ^ 16) str →
  toUint32 (hash str) = foldl (λ u c, Z.lxor ((33 * u) mod 2 ^ 32) c) 5381 str ∧
  0 ≤ toUint32 (hash str) < 2 ^ 32.
Proof.
  intros Hstr. split.
  - unfold hash. by rewrite hash_unsigned_from.
  - unfold toUint32. apply Z.mod_pos_bound. lia.
Qed.

Lemma hashStr_is_times33_xor_witness :
  toUint32 (hash [97; 47; 98]) = foldl (λ u c, Z.lxor ((33 * u) mod 2 ^ 32) c) 5381 [97; 47; 98] ∧
  0 ≤ toUint32 (hash [97; 47; 98]) < 2 ^ 32.
Proof.
  apply (hashStr_is_times33_xor [97; 47; 98]).
  repeat constructor; lia.
Defined.

(** *** The printed id *)

Definition digit_value (c : Ascii.ascii) : Z :=
  let k := Z.of_nat (Ascii.nat_of_ascii c) in if k <? 58 then k - 48 else k - 87.

(** The number that a string of digits in base 36 denotes. *)
Fixpoint parse36 (acc : Z) (s : string) : Z :=
  match s with
  | EmptyString => acc
  | String c s' => parse36 (acc * 36 + digit_value c) s'
  end.

Definition is_base36 (c : Ascii.ascii) : bool :=
  let k := Ascii.nat_of_ascii c in
  ((48 <=? k) && (k <=? 57) || (97 <=? k) && (k <=? 122))%nat.

Fixpoint all_base36 (s : string) : bool :=
  match s with
  | EmptyString => true
  | String c s' => is_base36 c && all_base36 s'
  end.

Lemma digit36_ok (d : Z) :
  0 ≤ d < 36 → digit_value (digit36 d) = d ∧ is_base36 (digit36 d) = true.
Proof.
  intros Hd.
  assert (Forall (λ d, digit_value (digit36 d) = d ∧ is_base36 (digit36 d) = true)
            (Z.of_nat <$> seq 0 36)) as Hall.
  { cbn. repeat (constructor; [split; reflexivity|]). constructor. }
  rewrite Forall_forall in Hall. apply Hall.
  apply list_elem_of_fmap. exists (Z.to_nat d). split; [lia|].
  apply elem_of_seq. lia.
Qed.

Lemma parse36_length (acc : Z) (s : string) :
  parse36 acc s = acc * 36 ^ Z.of_nat (String.length s) + parse36 0 s.
Proof.
  revert acc. induction s as [|c s IH]; intros acc; simpl String.length; cbn [parse36].
  - lia.
  - rewrite (IH (acc * 36 + digit_value c)), (IH (0 * 36 + digit_value c)).
    rewrite Nat2Z.inj_succ, Z.pow_succ_r by lia. lia.
Qed.

Lemma toString36_go_value (fuel : nat) (n : Z) (acc : string) :
  0 ≤ n < 36 ^ Z.of_nat (S fuel) →
  parse36 0 (toString36_go fuel n acc)
    = n * 36 ^ Z.of_nat (String.length acc) + parse36 0 acc.
Proof.
  revert n acc. induction fuel as [|f IH]; intros n acc Hn.
  - cbn [toString36_go parse36]. rewrite parse36_length.
    rewrite Z.mod_small by (simpl in Hn; lia).
    destruct (digit36_ok n) as [-> _]; [simpl in Hn|]; lia.
  - cbn [toString36_go].
    pose proof (Z.div_mod n 36 ltac:(lia)) as Hdm.
    pose proof (Z.mod_pos_bound n 36 ltac:(lia)) as Hm.
    destruct (digit36_ok (n mod 36) Hm) as [Hv _].
    destruct (Z.eqb_spec (n / 36) 0) as [H0|Hne].
    + cbn [parse36]. rewrite parse36_length, Hv. lia.
    + rewrite IH.
      * simpl String.length. cbn [parse36].
        rewrite (parse36_length (0 * 36 + _)), Hv.
        rewrite Nat2Z.inj_succ, Z.pow_succ_r by lia. lia.
      * split; [apply Z.div_pos; lia|].
        apply Z.div_lt_upper_bound; [lia|].
        rewrite Nat2Z.inj_succ, Z.pow_succ_r in Hn by lia. lia.
Qed.

(** The fuel of [toString36] is enough for every number. *)
Lemma toString36_fuel_enough (n : Z) :
  0 ≤ n → n < 36 ^ Z.of_nat (S (Z.to_nat (Z.log2 n))).
Proof.
  intros Hn. rewrite Nat2Z.inj_succ, Z2Nat.id by apply Z.log2_nonneg.
  destruct (decide (n = 0)) as [->|Hne]; [done|].
  destruct (Z.log2_spec n) as [_ Hlt]; [lia|].
  eapply Z.lt_le_trans; [exact Hlt|].
  apply Z.pow_le_mono_l. lia.
Qed.

Lemma toString36_value (n : Z) : 0 ≤ n → parse36 0 (toString36 n) = n.
Proof.
  intros Hn. unfold toString36. rewrite toString36_go_value.
  - simpl. lia.
  - split; [done | by apply toString36_fuel_enough].
Qed.

Lemma toString36_go_base36 (fuel : nat) (n : Z) (acc : string) :
  all_base36 acc = true → all_base36 (toString36_go fuel n acc) = true.
Proof.
  revert n acc. induction fuel as [|f IH]; intros n acc Hacc; cbn [toString36_go].
  - cbn [all_base36]. rewrite Hacc.
    by destruct (digit36_ok (n mod 36) (Z.mod_pos_bound n 36 ltac:(lia))) as [_ ->].
  - assert (all_base36 (String (digit36 (n mod 36)) acc) = true) as H1.
    { cbn [all_base36]. rewrite Hacc.
      by destruct (digit36_ok (n mod 36) (Z.mod_pos_bound n 36 ltac:(lia))) as [_ ->]. }
    destruct (n / 36 =? 0); [done | by apply IH].
Qed.

Lemma toString36_go_length (fuel : nat) (k : nat) (n : Z) (acc : string) :
  0 ≤ n < 36 ^ Z.of_nat (S k) →
  (1 ≤ String.length (toString36_go fuel n acc) - String.length acc ≤ S k)%nat.
Proof.
  revert k n acc. induction fuel as [|f IH]; intros k n acc Hn; cbn [toString36_go].
  - simpl. lia.
  - destruct (Z.eqb_spec (n / 36) 0) as [H0|Hne]; [simpl; lia|].
    destruct k as [|k].
    { exfalso. apply Hne. apply Z.div_small. simpl in Hn. lia. }
    specialize (IH k (n / 36) (String (digit36 (n mod 36)) acc)).
    simpl String.length in IH.
    assert (0 ≤ n / 36 < 36 ^ Z.of_nat (S k)) as Hdiv.
    { split; [apply Z.div_pos; lia|]. apply Z.div_lt_upper_bound; [lia|].
      rewrite (Nat2Z.inj_succ (S k)), Z.pow_succ_r in Hn by lia. lia. }
    specialize (IH Hdiv). lia.
Qed.

Lemma base36_not_arrow (c : Ascii.ascii) (s : string) :
  is_base36 c = true → String.prefix "→" (String c s) = false.
Proof.
  destruct c as [[] [] [] [] [] [] [] []]; try discriminate; reflexivity.
Qed.

Lemma base36_arrow_free (s : string) :
  all_base36 s = true → GraphStoreFacts.arrow_free s = true.
Proof.
  induction s as [|c s IH]; [done|]. cbn [all_base36 GraphStoreFacts.arrow_free].
  intros [Hc Hs]%andb_prop. rewrite (base36_not_arrow c s Hc). simpl. by apply IH.
Qed.

(** X22: an id made by [hashStr] is a plain word: between one and seven
    characters, digits and lower-case letters only.  It is therefore never
    taken for a missing id by [||], and it does not contain the separator
    of the edge key. *)
Theorem hashStr_makes_plain_ids (str : list Z) :
  (1 ≤ String.length (hashStr str) ≤ 7)%nat ∧
  all_base36 (hashStr str) = true ∧
  truthy (hashStr str) = true ∧
  GraphStoreFacts.arrow_free (hashStr str) = true.
Proof.
  assert (0 ≤ toUint32 (hash str) < 2 ^ 32) as Hh
    by (unfold toUint32; apply Z.mod_pos_bound; lia).
  assert (all_base36 (hashStr str) = true) as Hall
    by (by apply toString36_go_base36).
  assert (1 ≤ String.length (hashStr str) ≤ 7)%nat as Hlen.
  { pose proof (toString36_go_length (Z.to_nat (Z.log2 (toUint32 (hash str)))) 6
                  (toUint32 (hash str)) "") as H.
    simpl String.length in H. rewrite Nat.sub_0_r in H. apply H.
    split; [lia|]. eapply Z.lt_le_trans; [apply Hh|]. by vm_compute. }
  split; [done|]. split; [done|]. split; [|by apply base36_arrow_free].
  unfold truthy. destruct (hashStr str); [simpl in Hlen; lia | done].
Qed.

(** X23: [hashStr] prints the 32-bit hash without loss: two strings get the same
    id exactly when their hashes agree on 32 bits. *)
Theorem hashStr_equal_iff (s1 s2 : list Z) :
  hashStr s1 = hashStr s2 ↔ toUint32 (hash s1) = toUint32 (hash s2).
Proof.
  split; [|unfold hashStr; by intros ->].
  intros Heq. unfold hashStr in Heq.
  apply (f_equal (parse36 0)) in Heq.
  rewrite !toString36_value in Heq; [done| |]; unfold toUint32; apply Z.mod_pos_bound; lia.
Qed.

Close Scope Z_scope.

(** ** [easeInOutCubic] *)

Open Scope Q_scope.

Lemma square_nonneg (a : Q) : 0 <= a * a.
Proof.
  destruct (Qlt_le_dec a 0) as [Hneg|Hpos].
  - assert (a * a == (- a) * (- a)) as -> by ring.
    apply Qmult_le_0_compat; lra.
  - by apply Qmult_le_0_compat.
Qed.

Lemma cube_mono (a b : Q) : a <= b → a * a * a <= b * b * b.
Proof.
  intros H.
  assert (0 <= (b - a) * ((a + b / 2) * (a + b / 2) + (3 # 4) * (b * b))) as H1.
  { apply Qmult_le_0_compat; [lra|].
    pose proof (square_nonneg (a + b / 2)). pose proof (square_nonneg b). lra. }
  assert ((b - a) * ((a + b / 2) * (a + b / 2) + (3 # 4) * (b * b))
          == b * b * b - a * a * a) as H2 by field.
  rewrite H2 in H1. lra.
Qed.

(** X24: the easing curve starts at 0, ends at 1, never decreases, and
    stays between 0 and 1 on the unit interval. *)
Theorem easeInOutCubic_shape :
  easeInOutCubic 0 == 0 ∧ easeInOutCubic 1 == 1 ∧
  (∀ t u, t <= u → easeInOutCubic t <= easeInOutCubic u) ∧
  (∀ t, 0 <= t <= 1 → 0 <= easeInOutCubic t <= 1).
Proof.
  assert (easeInOutCubic 0 == 0) as H0 by reflexivity.
  assert (easeInOutCubic 1 == 1) as H1 by reflexivity.
  assert (∀ t u, t <= u → easeInOutCubic t <= easeInOutCubic u) as Hmono.
  { intros t u Htu. unfold easeInOutCubic.
    assert (∀ q, 4 * q * q * q == 4 * (q * q * q)) as H4 by (intros q; ring).
    assert (∀ q, q / 2 == q * (1 # 2)) as Hhalf by (intros q; field).
    destruct (Qlt_le_dec t 0.5) as [Ht|Ht], (Qlt_le_dec u 0.5) as [Hu|Hu];
      rewrite ?H4, ?Hhalf.
    - pose proof (cube_mono t u Htu). lra.
    - pose proof (cube_mono t (1 # 2) ltac:(lra)) as Ha.
      pose proof (cube_mono (-2 * u + 2) 1 ltac:(lra)) as Hb.
      assert ((1 # 2) * (1 # 2) * (1 # 2) == 1 # 8) as H8 by reflexivity.
      assert (1 * 1 * 1 == 1) as H11 by reflexivity.
      rewrite H8 in Ha. rewrite H11 in Hb. lra.
    - lra.
    - pose proof (cube_mono (-2 * u + 2) (-2 * t + 2) ltac:(lra)). lra. }
  split; [done|]. split; [done|]. split; [done|].
  intros t [Ht0 Ht1]. split.
  - rewrite <- H0. by apply Hmono.
  - rewrite <- H1. by apply Hmono.
Qed.

Close Scope Q_scope.

End UtilsFacts.

(** * Properties of the node categories *)

Module NodeTypesFacts.

Import Stdlib.Strings.Ascii.
Import NodeTypes.

(** An entry of the table: a dot followed by characters without a dot. *)
Definition plain_ext (ext : string) : bool :=
  match ext with
  | String a e => Ascii.eqb a "." && bool_decide (lastIndexOf "." e = None)
  | EmptyString => false
  end.

Definition listed (ext : string) : option string :=
  fst <$> head (filter (λ g, ext ∈ g.2) groups).

Lemma EXT_MAP_listed :
  map_Forall (λ ext cat, listed ext = Some cat ∧ truthy cat = true
                         ∧ cat ≠ "folder" ∧ cat ≠ "file-group"
                         ∧ is_Some (own_property CATEGORIES cat)) EXT_MAP.
Proof. apply (bool_decide_unpack _). vm_compute. exact I. Qed.

Lemma groups_mapped :
  Forall (λ g, Forall (λ ext, EXT_MAP !! ext = Some g.1 ∧ plain_ext ext = true) g.2) groups.
Proof. apply (bool_decide_unpack _). vm_compute. exact I. Qed.

Lemma listed_mapped (ext cat : string) (exts : list string) :
  (cat, exts) ∈ groups → ext ∈ exts → EXT_MAP !! ext = Some cat.
Proof.
  intros Hg He. pose proof groups_mapped as H.
  rewrite Forall_forall in H. specialize (H _ Hg). rewrite Forall_forall in H.
  by destruct (H _ He).
Qed.

Lemma unlisted_unmapped (ext : string) :
  (∀ cat exts, (cat, exts) ∈ groups → ext ∉ exts) → EXT_MAP !! ext = None.
Proof.
  intros H. destruct (EXT_MAP !! ext) as [cat|] eqn:Hm; [|done].
  destruct (EXT_MAP_listed ext cat Hm) as [Hl _]. unfold listed in Hl.
  destruct (filter (λ g, ext ∈ g.2) groups) as [|g l] eqn:Hf; [done|].
  assert (g ∈ filter (λ g, ext ∈ g.2) groups) as Hg by (rewrite Hf; left).
  apply list_elem_of_filter in Hg as [He Hg]. destruct g as [c exts].
  by destruct (H c exts Hg).
Qed.

Lemma slice_app (stem s : string) : slice (String.length stem) (stem +:+ s) = s.
Proof. induction stem as [|a stem IH]; [by destruct s|done]. Qed.

Lemma lastIndexOf_app (c : Ascii.ascii) (stem e : string) :
  lastIndexOf c e = None →
  lastIndexOf c (stem +:+ String c e) = Some (String.length stem).
Proof.
  intros He. induction stem as [|a stem IH]; simpl.
  - rewrite He. by rewrite Ascii.eqb_refl.
  - by rewrite IH.
Qed.

Section Infer.

Variable toLowerCase : string → string.

(** X25: [infer] always answers with a key of [CATEGORIES]: "folder" for a
    directory and for nothing else, never "file-group", and "unknown" for a
    file name without a dot. *)
Theorem infer_known_category (name : string) (isDir : bool) :
  is_Some (own_property CATEGORIES (infer toLowerCase name isDir)) ∧
  (infer toLowerCase name isDir = "folder" ↔ isDir = true) ∧
  infer toLowerCase name isDir ≠ "file-group" ∧
  (isDir = false → lastIndexOf "." name = None →
   infer toLowerCase name isDir = "unknown").
Proof.
  unfold infer. destruct isDir.
  { split; [by eexists|]. split; [done|]. split; [done|]. done. }
  destruct (lastIndexOf "." name) as [dot|].
  - cbv zeta. destruct (EXT_MAP !! toLowerCase (slice dot name)) as [cat|] eqn:Hm.
    + destruct (EXT_MAP_listed _ _ Hm) as (_ & Ht & Hf & Hg & Hc).
      simpl. rewrite Ht. simpl. split; [done|]. split; [|done].
      split; [done | discriminate].
    + simpl. split; [by eexists|]. split; [|done]. split; discriminate.
  - split; [by eexists|]. split; [|done]. split; discriminate.
Qed.

(** X26: the category of a file is read off the text after the last dot, in
    lower case: a name whose extension is listed in a group gets the name
    of that group, whatever stands before the dot, and a name whose
    extension is listed nowhere is "unknown". *)
Theorem infer_by_extension (stem e : string) :
  lastIndexOf "." e = None →
  let name := stem +:+ String "." e in
  let ext := toLowerCase (String "." e) in
  (∀ cat exts, (cat, exts) ∈ groups → ext ∈ exts → infer toLowerCase name false = cat) ∧
  ((∀ cat exts, (cat, exts) ∈ groups → ext ∉ exts) →
   infer toLowerCase name false = "unknown").
Proof.
  intros He name ext. unfold infer, name.
  rewrite (lastIndexOf_app _ _ _ He). cbv zeta. rewrite slice_app. fold ext. split.
  - intros cat exts Hg Hx. rewrite (listed_mapped _ _ _ Hg Hx).
    destruct (EXT_MAP_listed _ _ (listed_mapped _ _ _ Hg Hx)) as (_ & Ht & _).
    simpl. by rewrite Ht.
  - intros Hno. by rewrite (unlisted_unmapped _ Hno).
Qed.

End Infer.

Fixpoint ascii_lower (s : string) : string :=
  match s with
  | EmptyString => EmptyString
  | String a s' =>
      let n := Ascii.nat_of_ascii a in
      String (if bool_decide (65 ≤ n ≤ 90)%nat then Ascii.ascii_of_nat (n + 32) else a)
        (ascii_lower s')
  end.

Lemma infer_by_extension_witness :
  (∀ cat exts, (cat, exts) ∈ groups → ".png" ∈ exts →
     infer ascii_lower "holiday.2024.PNG" false = cat) ∧
  ((∀ cat exts, (cat, exts) ∈ groups → ".png" ∉ exts) →
   infer ascii_lower "holiday.2024.PNG" false = "unknown").
Proof.
  apply (infer_by_extension ascii_lower "holiday.2024" "PNG").
  reflexivity.
Defined.

End NodeTypesFacts.

(** * Properties of the camera *)

Module RendererFacts.

Import Renderer.

(** The renderer when the camera has reached its target. *)
Definition arrived (r : t) : t :=
  mkRenderer (canvas_width r) (canvas_height r) (_targetCam r) (_targetCam r)
    (nodes r) (edges r) (_nodeMap r) (_dirty r).

(** X28: [zoom] keeps the position of the target camera and keeps its scale
    between 0.04 and 6, whatever the factor; from a scale within these
    bounds, a factor of at least 1 does not lower the scale and a factor
    between 0 and 1 does not raise it. *)
Theorem zoom_in_range (factor : Q) (cx cy : option Q) (r : t) :
  let r' := zoom factor cx cy r in
  let s := cam_scale (_targetCam r) in
  let s' := cam_scale (_targetCam r') in
  (0.04 <= s' <= 6)%Q ∧
  cam_x (_targetCam r') = cam_x (_targetCam r) ∧
  cam_y (_targetCam r') = cam_y (_targetCam r) ∧
  _cam r' = _cam r ∧
  ((0.04 <= s <= 6)%Q → (1 <= factor)%Q → (s <= s')%Q) ∧
  ((0.04 <= s <= 6)%Q → (0 <= factor <= 1)%Q → (s' <= s)%Q).
Proof.
  intros r' s s'. unfold s', r', zoom. cbn. fold s.
  split; [apply ForceLayoutFacts.clamp_bounds; lra|].
  do 3 (split; [done|]). unfold ForceLayout.clamp. split.
  - intros [Hlo Hhi] Hf.
    assert (s * 1 <= s * factor)%Q as Hm by (apply Qmult_le_l; lra).
    eapply Qle_trans; [|apply Q.le_max_r].
    apply Q.min_glb; [done|]. lra.
  - intros [Hlo Hhi] [Hf0 Hf1].
    assert (s * factor <= s * 1)%Q as Hm by (apply Qmult_le_l; lra).
    apply Q.max_lub; [done|].
    eapply Qle_trans; [apply Q.le_min_r|]. lra.
Qed.

(** *** [fitView] *)

Definition box_ok (b : option (Q * Q * Q * Q)) : Prop :=
  match b with
  | Some (minX, maxX, minY, maxY) => (minX <= maxX ∧ minY <= maxY)%Q
  | None => True
  end.

Definition in_box (b : option (Q * Q * Q * Q)) (px py : Q) : Prop :=
  match b with
  | Some (minX, maxX, minY, maxY) => (minX <= px <= maxX ∧ minY <= py <= maxY)%Q
  | None => False
  end.

Lemma bounds_step_ok (b : option (Q * Q * Q * Q)) (n : node) :
  box_ok b → box_ok (bounds_step b n).
Proof.
  unfold bounds_step. destruct (x n) as [nx|]; [|done].
  destruct b as [[[[minX maxX] minY] maxY]|]; simpl.
  - intros [H1 H2]. split.
    + eapply Qle_trans; [apply Q.le_min_l|]. eapply Qle_trans; [exact H1|apply Q.le_max_l].
    + eapply Qle_trans; [apply Q.le_min_l|]. eapply Qle_trans; [exact H2|apply Q.le_max_l].
  - intros _. split; apply Qle_refl.
Qed.

Lemma bounds_step_grows (b : option (Q * Q * Q * Q)) (n : node) (px py : Q) :
  in_box b px py → in_box (bounds_step b n) px py.
Proof.
  unfold bounds_step. destruct (x n) as [nx|]; [|done].
  destruct b as [[[[minX maxX] minY] maxY]|]; simpl; [|done].
  intros [[H1 H2] [H3 H4]]. repeat split.
  - eapply Qle_trans; [apply Q.le_min_l|done].
  - eapply Qle_trans; [exact H2|apply Q.le_max_l].
  - eapply Qle_trans; [apply Q.le_min_l|done].
  - eapply Qle_trans; [exact H4|apply Q.le_max_l].
Qed.

Lemma bounds_step_here (b : option (Q * Q * Q * Q)) (n : node) (nx : Q) :
  x n = Some nx → in_box (bounds_step b n) nx (ForceLayout.num (y n)).
Proof.
  unfold bounds_step. intros ->.
  destruct b as [[[[minX maxX] minY] maxY]|]; simpl.
  - repeat split; first [apply Q.le_min_r | apply Q.le_max_r].
  - repeat split; apply Qle_refl.
Qed.

Lemma bounds_fold (ns : list node) (b : option (Q * Q * Q * Q)) :
  box_ok b →
  box_ok (foldl bounds_step b ns) ∧
  (∀ px py, in_box b px py → in_box (foldl bounds_step b ns) px py) ∧
  (∀ n nx, n ∈ ns → x n = Some nx →
     in_box (foldl bounds_step b ns) nx (ForceLayout.num (y n))).
Proof.
  revert b. induction ns as [|a ns IH]; intros b Hb; simpl.
  - split; [done|]. split; [done|]. intros n nx Hn. by apply elem_of_nil in Hn.
  - destruct (IH (bounds_step b a) (bounds_step_ok _ _ Hb)) as (H1 & H2 & H3).
    split; [done|]. split.
    + intros px py Hin. by apply H2, bounds_step_grows.
    + intros n nx [->|Hn]%elem_of_cons Hx.
      * by apply H2, bounds_step_here.
      * by eapply H3.
Qed.

Lemma bounds_none (ns : list node) :
  (∀ n, n ∈ ns → x n = None) → foldl bounds_step None ns = None.
Proof.
  induction ns as [|a ns IH]; intros H; simpl; [done|].
  unfold bounds_step at 2. rewrite (H a) by left.
  apply IH. intros n Hn. apply H. by right.
Qed.

Lemma Qmin_case (a b : Q) : Qmin a b = a ∨ Qmin a b = b.
Proof.
  unfold Qmin, GenericMinMax.gmin. destruct (a ?= b)%Q; auto.
Qed.

Lemma Qmax_case (a b : Q) : Qmax a b = a ∨ Qmax a b = b.
Proof.
  unfold Qmax, GenericMinMax.gmax. destruct (a ?= b)%Q; auto.
Qed.

(** Each side of the box is the coordinate of a node. *)
Definition touches (ns : list node) (b : option (Q * Q * Q * Q)) : Prop :=
  match b with
  | Some (minX, maxX, minY, maxY) =>
      (∃ n, n ∈ ns ∧ x n = Some minX) ∧ (∃ n, n ∈ ns ∧ x n = Some maxX) ∧
      (∃ n, n ∈ ns ∧ is_Some (x n) ∧ ForceLayout.num (y n) = minY) ∧
      (∃ n, n ∈ ns ∧ is_Some (x n) ∧ ForceLayout.num (y n) = maxY)
  | None => True
  end.

Lemma touches_mono (ns ns' : list node) (b : option (Q * Q * Q * Q)) :
  (∀ n, n ∈ ns → n ∈ ns') → touches ns b → touches ns' b.
Proof.
  intros Hsub. destruct b as [[[[minX maxX] minY] maxY]|]; [|done]. simpl.
  intros ((n1 & ? & ?) & (n2 & ? & ?) & (n3 & ? & ?) & (n4 & ? & ?)).
  repeat split; [exists n1 | exists n2 | exists n3 | exists n4]; auto.
Qed.

Lemma bounds_step_touches (ns : list node) (b : option (Q * Q * Q * Q)) (n : node) :
  n ∈ ns → touches ns b → touches ns (bounds_step b n).
Proof.
  intros Hn Hb. unfold bounds_step. destruct (x n) as [nx|] eqn:Hx; [|done].
  assert (is_Some (x n)) as Hsome by (by rewrite Hx).
  destruct b as [[[[minX maxX] minY] maxY]|]; simpl.
  - destruct Hb as (H1 & H2 & H3 & H4). repeat split.
    + destruct (Qmin_case minX nx) as [-> | ->]; [done | by exists n].
    + destruct (Qmax_case maxX nx) as [-> | ->]; [done | by exists n].
    + destruct (Qmin_case minY (ForceLayout.num (y n))) as [-> | ->]; [done | by exists n].
    + destruct (Qmax_case maxY (ForceLayout.num (y n))) as [-> | ->]; [done | by exists n].
  - repeat split; by exists n.
Qed.

Lemma bounds_fold_touches (ns l : list node) (b : option (Q * Q * Q * Q)) :
  (∀ n, n ∈ l → n ∈ ns) → touches ns b → touches ns (foldl bounds_step b l).
Proof.
  revert b. induction l as [|a l IH]; intros b Hsub Hb; simpl; [done|].
  apply IH; [intros n Hn; apply Hsub; by right|].
  apply bounds_step_touches; [apply Hsub; by left | done].
Qed.

Section Fit.

Variable page_size : option (Q * Q).

(** X29: when some node has a position, [fitView] chooses a scale between
    0.06 and 2.5 and aims the camera at the middle of the bounding box of
    the nodes that have a position: every such node lies within the box,
    every side of the box is the coordinate of such a node, and once the
    camera has arrived the middle of the box (of a box of extent 100 where
    the extent is 0) is shown in the middle of the canvas. *)
Theorem fitView_centres_the_graph (r : t) (n : node) (nx : Q) :
  n ∈ nodes r → x n = Some nx →
  let r' := arrived (fitView page_size r) in
  (0.06 <= cam_scale (_cam r') <= 2.5)%Q ∧
  ∃ minX maxX minY maxY,
    (∀ m mx, m ∈ nodes r → x m = Some mx →
       (minX <= mx <= maxX)%Q ∧ (minY <= ForceLayout.num (y m) <= maxY)%Q) ∧
    touches (nodes r) (Some (minX, maxX, minY, maxY)) ∧
    let cx := (minX + ForceLayout.nz (maxX - minX) 100 / 2)%Q in
    let cy := (minY + ForceLayout.nz (maxY - minY) 100 / 2)%Q in
    let p := worldToScreen r' cx cy in
    (p.1 == canvas_width r' / 2 ∧ p.2 == canvas_height r' / 2)%Q.
Proof.
  intros Hn Hx r'. unfold r', fitView.
  destruct (nodes r) as [|a0 l0] eqn:Hns; [by apply elem_of_nil in Hn|].
  rewrite <- Hns in *. clear a0 l0 Hns.
  set (r1 := if Qeq_bool (canvas_width r) 0 then _resize page_size r else r).
  assert (nodes r1 = nodes r) as Hnodes.
  { unfold r1, _resize. destruct (Qeq_bool _ _); [|done].
    by destruct page_size as [[w h]|]. }
  rewrite Hnodes.
  destruct (bounds_fold (nodes r) None I) as (_ & _ & Hin).
  pose proof (bounds_fold_touches (nodes r) (nodes r) None (λ _ H, H) I) as Htouch.
  destruct (foldl bounds_step None (nodes r)) as [[[[minX maxX] minY] maxY]|] eqn:Hb;
    [|by destruct (Hin n nx Hn Hx)].
  cbv zeta. cbn [arrived with_target _cam _targetCam cam_scale cam_x cam_y
                 canvas_width canvas_height nodes].
  split; [apply ForceLayoutFacts.clamp_bounds; lra|].
  exists minX, maxX, minY, maxY. split; [exact Hin|]. split; [exact Htouch|].
  cbv zeta. unfold worldToScreen.
  cbn [arrived with_target _cam _targetCam cam_scale cam_x cam_y canvas_width
       canvas_height fst snd].
  split; ring.
Qed.

(** Without a node that has a position, [fitView] leaves both cameras
    alone. *)
Lemma fitView_without_positions (r : t) :
  (∀ n, n ∈ nodes r → x n = None) →
  _targetCam (fitView page_size r) = _targetCam r ∧ _cam (fitView page_size r) = _cam r.
Proof.
  intros H. unfold fitView. destruct (nodes r) as [|a0 l0] eqn:Hns; [done|].
  rewrite <- Hns in *. clear a0 l0 Hns.
  set (r1 := if Qeq_bool (canvas_width r) 0 then _resize page_size r else r).
  assert (nodes r1 = nodes r ∧ _targetCam r1 = _targetCam r ∧ _cam r1 = _cam r)
    as (Hnodes & Ht & Hc).
  { unfold r1, _resize. destruct (Qeq_bool _ _); [|done].
    by destruct page_size as [[w h]|]. }
  rewrite Hnodes, (bounds_none _ H). done.
Qed.

End Fit.

Lemma fitView_centres_the_graph_witness :
  let r := mkRenderer 800 600 (mkCamera 0 0 1) (mkCamera 0 0 1)
             [ForceLayoutFacts.placed_node; ForceLayoutFacts.pinned_node] [] ∅ false in
  let r' := arrived (fitView None r) in
  (0.06 <= cam_scale (_cam r') <= 2.5)%Q ∧
  ∃ minX maxX minY maxY,
    (∀ m mx, m ∈ nodes r → x m = Some mx →
       (minX <= mx <= maxX)%Q ∧ (minY <= ForceLayout.num (y m) <= maxY)%Q) ∧
    touches (nodes r) (Some (minX, maxX, minY, maxY)) ∧
    let cx := (minX + ForceLayout.nz (maxX - minX) 100 / 2)%Q in
    let cy := (minY + ForceLayout.nz (maxY - minY) 100 / 2)%Q in
    let p := worldToScreen r' cx cy in
    (p.1 == canvas_width r' / 2 ∧ p.2 == canvas_height r' / 2)%Q.
Proof.
  apply (fitView_centres_the_graph None
           (mkRenderer 800 600 (mkCamera 0 0 1) (mkCamera 0 0 1)
              [ForceLayoutFacts.placed_node; ForceLayoutFacts.pinned_node] [] ∅ false)
           ForceLayoutFacts.placed_node 40).
  - left.
  - reflexivity.
Defined.

(** *** [panTo] *)

(** X30: after [loadGraph], [panTo] with the id of a node that has a position
    aims the camera so that the node is shown in the middle of the canvas;
    the scale is the given one, or at least 1.2 when none or 0 is given.
    With an id that no node carries nothing changes. *)
Theorem panTo_centres_node (ns : list node) (es : list edge) (r0 : t)
    (k : nat) (n : node) (nx : Q) (scale : option Q) :
  NoDup (ids ns) → ns !! k = Some n → x n = Some nx →
  let r := loadGraph ns es r0 in
  let r' := arrived (panTo (id n) scale r) in
  let p := worldToScreen r' nx (ForceLayout.num (y n)) in
  (p.1 == canvas_width r0 / 2 ∧ p.2 == canvas_height r0 / 2)%Q ∧
  (∀ s, scale = Some s → ¬ (s == 0)%Q → cam_scale (_cam r') = s) ∧
  (scale = None → (1.2 <= cam_scale (_cam r'))%Q) ∧
  (∀ i, i ∉ ids ns → panTo i scale r = r).
Proof.
  intros Hnd Hk Hx r r' p. unfold p, r', r, panTo, loadGraph.
  cbn [_nodeMap nodes _targetCam].
  rewrite (ForceLayoutFacts.index_map_NoDup ns k n Hnd Hk). cbn [mbind option_bind].
  rewrite Hk, Hx. cbv zeta. unfold worldToScreen.
  cbn [arrived with_target _cam _targetCam cam_scale cam_x cam_y canvas_width
       canvas_height fst snd].
  split; [split; ring|]. split; [|split].
  - intros s -> Hs. unfold ForceLayout.nz, ForceLayout.num. simpl.
    destruct (Qeq_bool s 0) eqn:He; [|done]. by apply Qeq_bool_eq in He.
  - intros ->. unfold ForceLayout.nz, ForceLayout.num. simpl. apply Q.le_max_r.
  - intros i Hi. apply ForceLayoutFacts.index_map_None in Hi. by rewrite Hi.
Qed.

Lemma panTo_centres_node_witness :
  let r0 := mkRenderer 800 600 (mkCamera 0 0 1) (mkCamera 0 0 1) [] [] ∅ false in
  let ns := [ForceLayoutFacts.placed_node; ForceLayoutFacts.new_node] in
  let r := loadGraph ns [] r0 in
  let r' := arrived (panTo "root" None r) in
  let p := worldToScreen r' 40 (-25) in
  (p.1 == 800 / 2 ∧ p.2 == 600 / 2)%Q ∧
  (∀ s, @None Q = Some s → ¬ (s == 0)%Q → cam_scale (_cam r') = s) ∧
  (@None Q = None → (1.2 <= cam_scale (_cam r'))%Q) ∧
  (∀ i, i ∉ ids ns → panTo i None r = r).
Proof.
  apply (panTo_centres_node [ForceLayoutFacts.placed_node; ForceLayoutFacts.new_node] []
           (mkRenderer 800 600 (mkCamera 0 0 1) (mkCamera 0 0 1) [] [] ∅ false)
           0 ForceLayoutFacts.placed_node 40 None).
  - apply (bool_decide_unpack _). vm_compute. exact I.
  - reflexivity.
  - reflexivity.
Defined.

End RendererFacts.
